(** * CDS survival-curve calibration: calendar, hazard curve, valuation,
      Newton-Raphson root finder and calibration driver

    Shallow embedding of the notebook's functions.

    Modelling conventions.
    - Python floats are modelled by real numbers ([R]); rounding, overflow and
      NaN are not modelled.  [np.exp] is [exp].  So [int(t * 360)] truncates
      the exact product, the exponential never underflows, and the
      floating-point errors that [np.seterr] turns into exceptions do not
      occur.  Statements that depend on this say so, or are stated on the
      target date [target M t] that [Q_h] computes; the root finder is also
      given on results that may be NaN (module [NanAware]).
    - A [datetime.date] is a record of year, month and day.  Its proleptic
      Gregorian ordinal is computed as [datetime] does; [.weekday()],
      differences [(a - b).days] and the addition of a number of days go
      through the ordinal.  The range MINYEAR..MAXYEAR of [datetime] is kept.
    - Exceptions are results of the error monad [res]; a loop or a recursion
      without a static bound carries a fuel argument and answers [OutOfFuel]
      when it is exhausted; Python's [RecursionError] is such an
      exhaustion.
    - A [dict] is an association list in insertion order. *)

From Stdlib Require Import Reals ZArith List Lia Lra Bool Psatz.
Import ListNotations.

(** ** Exceptions and results *)

Inductive exn : Type :=
| KeyError | TypeError | ValueError | IndexError | OverflowError
| ZeroDivisionError.

Inductive res (A : Type) : Type :=
| Ret (a : A)
| Raise (e : exn)
| OutOfFuel.

Arguments Ret {A} a.
Arguments Raise {A} e.
Arguments OutOfFuel {A}.

Definition bind {A B : Type} (m : res A) (k : A -> res B) : res B :=
  match m with
  | Ret a => k a
  | Raise e => Raise e
  | OutOfFuel => OutOfFuel
  end.

Notation "x <- m ;; k" := (bind m (fun x => k))
  (at level 61, m at next level, right associativity).

(** [l[i]] on a Python list. *)
Definition item {A : Type} (l : list A) (i : nat) : res A :=
  match nth_error l i with
  | Some a => Ret a
  | None => Raise IndexError
  end.

(** ** Calendar *)

Module Calendar.

Open Scope Z_scope.

Record date : Type := mkdate { year : Z; month : Z; day : Z }.

Definition MINYEAR : Z := 1.
Definition MAXYEAR : Z := 9999.

Definition is_leap (y : Z) : bool :=
  (y mod 4 =? 0) && (negb (y mod 100 =? 0) || (y mod 400 =? 0)).

Definition DAYS_IN_MONTH (m : Z) : Z :=
  match m with
  | 1 => 31 | 2 => 28 | 3 => 31 | 4 => 30 | 5 => 31 | 6 => 30
  | 7 => 31 | 8 => 31 | 9 => 30 | 10 => 31 | 11 => 30 | 12 => 31
  | _ => -1
  end.

Definition DAYS_BEFORE_MONTH (m : Z) : Z :=
  match m with
  | 1 => 0 | 2 => 31 | 3 => 59 | 4 => 90 | 5 => 120 | 6 => 151
  | 7 => 181 | 8 => 212 | 9 => 243 | 10 => 273 | 11 => 304 | 12 => 334
  | _ => -1
  end.

Definition days_in_month (y m : Z) : Z :=
  if (m =? 2) && is_leap y then 29 else DAYS_IN_MONTH m.

Definition days_before_year (y : Z) : Z :=
  let y := y - 1 in y * 365 + y / 4 - y / 100 + y / 400.

Definition days_in_year (y : Z) : Z := if is_leap y then 366 else 365.

Definition days_before_month (y m : Z) : Z :=
  DAYS_BEFORE_MONTH m + (if (2 <? m) && is_leap y then 1 else 0).

Definition toordinal (d : date) : Z :=
  days_before_year (year d) + days_before_month (year d) (month d) + day d.

(** Ordinal of 9999-12-31, the last date [datetime] represents. *)
Definition MAXORDINAL : Z := 3652059.

(** Monday is 0, Sunday is 6. *)
Definition weekday (d : date) : Z := (toordinal d + 6) mod 7.

Definition valid_ymd (y m d : Z) : bool :=
  (MINYEAR <=? y) && (y <=? MAXYEAR) && (1 <=? m) && (m <=? 12)
  && (1 <=? d) && (d <=? days_in_month y m).

Definition valid (d : date) : bool := valid_ymd (year d) (month d) (day d).

(** The constructor [date(y, m, d)]. *)
Definition new_date (y m d : Z) : res date :=
  if valid_ymd y m d then Ret (mkdate y m d) else Raise ValueError.

(** Comparison of dates, on (year, month, day). *)
Definition date_eqb (a b : date) : bool :=
  (year a =? year b) && (month a =? month b) && (day a =? day b).

Definition date_ltb (a b : date) : bool :=
  (year a <? year b)
  || ((year a =? year b)
      && ((month a <? month b)
          || ((month a =? month b) && (day a <? day b)))).

Definition date_leb (a b : date) : bool := negb (date_ltb b a).

(** [(a - b).days] *)
Definition days_between (a b : date) : Z := toordinal a - toordinal b.

(** Ordinal of the date [d + relativedelta(days=n)]; [OverflowError] when the
    date is out of the range of [datetime].  The date itself is only
    compared with other dates and subtracted from them, which its ordinal
    decides. *)
Definition plus_days (d : date) (n : Z) : res Z :=
  let o := toordinal d + n in
  if (1 <=? o) && (o <=? MAXORDINAL) then Ret o else Raise OverflowError.

(** [d + relativedelta(days=1)]: the next day. *)
Definition tomorrow (d : date) : res date :=
  if day d <? days_in_month (year d) (month d)
  then Ret (mkdate (year d) (month d) (day d + 1))
  else if month d <? 12
  then Ret (mkdate (year d) (month d + 1) 1)
  else if year d <? MAXYEAR
  then Ret (mkdate (year d + 1) 1 1)
  else Raise OverflowError.

(** [d + relativedelta(months=1)]: the day is clipped to the length of the
    target month. *)
Definition add_month (d : date) : res date :=
  let ym := if 12 <? month d + 1
            then (year d + 1, month d + 1 - 12)
            else (year d, month d + 1) in
  new_date (fst ym) (snd ym) (Z.min (days_in_month (fst ym) (snd ym)) (day d)).

(** Saturday and Sunday go to the following Monday. *)
Definition weekend_rollover (w_date : date) : res date :=
  if weekday w_date =? 5 then
    d1 <- tomorrow w_date ;; tomorrow d1
  else if weekday w_date =? 6 then
    tomorrow w_date
  else Ret w_date.

(** [current_date.month > payment_dates[i].month and
     current_date.month < payment_dates[i+1].month] *)
Definition in_gap (current_date : date) (payment_dates : list date) (i : nat)
  : res bool :=
  lo <- item payment_dates i ;;
  if month lo <? month current_date then
    hi <- item payment_dates (S i) ;;
    Ret (month current_date <? month hi)
  else Ret false.

(** [date(current_date.year, payment_dates[i].month, payment_dates[i].day)] *)
Definition anchor_in_year (current_date : date) (payment_dates : list date)
  (i : nat) : res date :=
  p <- item payment_dates i ;;
  new_date (year current_date) (month p) (day p).

(** [fuel] bounds the depth of the recursion. *)
Fixpoint next_payment_date (fuel : nat) (current_date : date)
  (payment_dates : list date) : res date :=
  match fuel with
  | O => OutOfFuel
  | S fuel' =>
    p0 <- item payment_dates 0 ;;
    payment_date <-
      (if month current_date <? month p0 then
         anchor_in_year current_date payment_dates 0
       else
         g1 <- in_gap current_date payment_dates 0 ;;
         if g1 then anchor_in_year current_date payment_dates 1
         else
           g2 <- in_gap current_date payment_dates 1 ;;
           if g2 then anchor_in_year current_date payment_dates 2
           else
             g3 <- in_gap current_date payment_dates 2 ;;
             if g3 then anchor_in_year current_date payment_dates 3
             else
               p0' <- item payment_dates 0 ;;
               if day current_date <? day p0' then
                 new_date (year current_date) (month current_date) (day p0')
               else
                 nxt <- add_month current_date ;;
                 next_payment_date fuel' nxt payment_dates) ;;
    weekend_rollover payment_date
  end.

(** A cycle of four anchors with valid months, days that exist in every
    month, and a first anchor after January. *)
Definition regular_anchor (p : date) : bool :=
  (1 <=? month p) && (month p <=? 12) && (1 <=? day p) && (day p <=? 28).

Definition regular_cycle (payment_dates : list date) : bool :=
  match payment_dates with
  | [p0; _; _; _] => (1 <? month p0) && forallb regular_anchor payment_dates
  | _ => false
  end.

Definition standard_cds_payment_dates : list date :=
  [mkdate 2014 3 20; mkdate 2014 6 20; mkdate 2014 9 20; mkdate 2014 12 20].

Definition nonstandard_cds_payment_dates : list date :=
  [mkdate 2014 2 15; mkdate 2014 5 15; mkdate 2014 8 15; mkdate 2014 11 15].

End Calendar.

Import Calendar.

(** ** Discount curve (Nelson-Siegel) *)

Module Discount.

Local Open Scope R_scope.

Definition r (s B0 B1 B2 tau : R) : R :=
  if Req_dec_T s 0 then 0
  else
    let term_1 := B0 in
    let term_2 := B1 * (tau / s) * (1 - exp (- s / tau)) in
    let term_3 := B2 * ((tau / s) * (1 - exp (- s / tau)) - exp (- s / tau)) in
    term_1 + term_2 + term_3.

Definition Z (s B0 B1 B2 tau : R) : R :=
  exp (- r s B0 B1 B2 tau * s).

End Discount.

(** [Z(s)] with the default Nelson-Siegel parameters of the source. *)
Definition Z0 (s : R) : R :=
  Discount.Z s (408 / 10000) (- (396 / 10000)) (- (511 / 10000))
    (1614 / 1000).

(** ** Hazard curve *)

Module Hazard.

Local Open Scope R_scope.

(** A value stored in the hazard map: a float, or [None]. *)
Inductive value : Type :=
| VNone
| VFloat (x : R).

(** Ordered dictionary from pillar date to value. *)
Definition hmap : Type := list (date * value).

(** [m[k]] *)
Fixpoint getitem (m : hmap) (k : date) : res value :=
  match m with
  | [] => Raise KeyError
  | (k', v) :: m' => if date_eqb k' k then Ret v else getitem m' k
  end.

(** [m[k] = v]: an existing key keeps its position, a new key goes last. *)
Fixpoint setitem (m : hmap) (k : date) (v : value) : hmap :=
  match m with
  | [] => [(k, v)]
  | (k', v') :: m' =>
    if date_eqb k' k then (k', v) :: m' else (k', v') :: setitem m' k v
  end.

(** [v * x] for a float [x]. *)
Definition mul_value (v : value) (x : R) : res R :=
  match v with
  | VFloat h => Ret (h * x)
  | VNone => Raise TypeError
  end.

(** The global data of the notebook. *)
Record market : Type := mkmarket {
  effective_date : date;
  spread_maturity_dates : list date;
  spread_data : list (R * R)
}.

(** [int(x)]: truncation towards zero. *)
Definition py_int (x : R) : Z :=
  if Rle_dec 0 x then Int_part x else (- Int_part (- x))%Z.

(** [math.ceil(x)] *)
Definition py_ceil (x : R) : Z := (- Int_part (- x))%Z.

(** Number of monthly subintervals, with the default [m = 12]. *)
Definition K (T_i : R) : Z := py_ceil (12 * T_i).

(** [k * T_i / K(T_i)]; a float divided by the integer 0 raises. *)
Definition s (k : Z) (T_i : R) : res R :=
  if (K T_i =? 0)%Z then Raise ZeroDivisionError
  else Ret (IZR k * T_i / IZR (K T_i)).

Section WithMarket.

Variable M : market.

(** [effective_date if idx == 0 else spread_maturity_dates[idx-1]] *)
Definition start_date (idx : nat) : res date :=
  if Nat.eqb idx 0 then Ret (effective_date M)
  else item (spread_maturity_dates M) (idx - 1).

(** The loop of [Q_h] over [enumerate(spread_maturity_dates)], from index
    [idx] on, with the accumulator [h_t].  [end_ord] is the ordinal of
    [end_date]. *)
Fixpoint Q_h_loop (end_ord : Z) (h_i : value) (prev_h : hmap)
  (idx : nat) (rest : list date) (h_t : R) : res R :=
  match rest with
  | [] => Ret h_t
  | mat_date :: rest' =>
    st <- start_date idx ;;
    if (toordinal mat_date <? end_ord)%Z then
      v <- getitem prev_h mat_date ;;
      x <- mul_value v (IZR (toordinal mat_date - toordinal st) / 360) ;;
      Q_h_loop end_ord h_i prev_h (S idx) rest' (h_t + x)
    else
      x <- mul_value h_i (IZR (end_ord - toordinal st) / 360) ;;
      Ret (h_t + x)
  end.

(** [t] is the time in years, [h_i] the candidate rate, [prev_h] the map of
    solved rates. *)
Definition Q_h (t : R) (h_i : value) (prev_h : hmap) : res R :=
  end_ord <- plus_days (effective_date M) (py_int (t * 360)) ;;
  h_t <- Q_h_loop end_ord h_i prev_h 0 (spread_maturity_dates M) 0 ;;
  Ret (exp (- h_t)).

(** The loop of [diff_Q_h]; the result is the final value of [diff]. *)
Fixpoint diff_loop (end_ord : Z) (idx : nat) (rest : list date)
  : res R :=
  match rest with
  | [] => Ret 0
  | mat_date :: rest' =>
    if (end_ord <=? toordinal mat_date)%Z then
      st <- start_date idx ;;
      Ret (IZR (end_ord - toordinal st) / 360)
    else diff_loop end_ord (S idx) rest'
  end.

Definition diff_Q_h (t : R) (h_i : value) (prev_h : hmap) : res R :=
  end_ord <- plus_days (effective_date M) (py_int (t * 360)) ;;
  diff <- diff_loop end_ord 0 (spread_maturity_dates M) ;;
  q <- Q_h t h_i prev_h ;;
  Ret (- diff * q).

End WithMarket.

End Hazard.

Import Hazard.

(** ** Valuation engine *)

Module Valuation.

Local Open Scope R_scope.

(** [l.index(x)] *)
Fixpoint index_from (l : list date) (x : date) (i : nat) : res nat :=
  match l with
  | [] => Raise ValueError
  | y :: l' => if date_eqb y x then Ret i else index_from l' x (S i)
  end.

(** [range(n)] *)
Definition range (n : Z) : list Z := map Z.of_nat (seq 0 (Z.to_nat n)).

Section WithMarket.

Variable M : market.

(** The [for k in range(K(T))] loop of [standard_cds_mtm_value]. *)
Fixpoint protection_loop (h_i : R) (prev_h : hmap) (T : R) (ks : list Z)
  (b : R) : res R :=
  match ks with
  | [] => Ret b
  | k :: ks' =>
    sk <- s k T ;;
    sk1 <- s (k + 1) T ;;
    q <- Q_h M sk (VFloat h_i) prev_h ;;
    q1 <- Q_h M sk1 (VFloat h_i) prev_h ;;
    protection_loop h_i prev_h T ks' (b + (Z0 sk + Z0 sk1) * (q - q1))
  end.

(** The [while next_pay_date <= maturity_date] loop of
    [standard_cds_mtm_value]. *)
Fixpoint premium_loop (fuel : nat) (h_i : R) (maturity_date : date)
  (prev_h : hmap) (payment_dates : list date)
  (current_date next_pay_date : date) (d : R) : res R :=
  match fuel with
  | O => OutOfFuel
  | S fuel' =>
    if date_leb next_pay_date maturity_date then
      let delta_t := IZR (days_between next_pay_date current_date) / 360 in
      let t_1 := IZR (days_between current_date (effective_date M)) / 360 in
      let t_2 := IZR (days_between next_pay_date (effective_date M)) / 360 in
      q1 <- Q_h M t_1 (VFloat h_i) prev_h ;;
      q2 <- Q_h M t_2 (VFloat h_i) prev_h ;;
      nxt <- next_payment_date fuel next_pay_date payment_dates ;;
      premium_loop fuel' h_i maturity_date prev_h payment_dates
        next_pay_date nxt (d + delta_t * Z0 t_2 * (q1 + q2))
    else Ret d
  end.

(** [fuel] bounds the iterations of the [while] loop and the depth of the
    recursion of [next_payment_date]; [rec] is the recovery rate [R]. *)
Definition standard_cds_mtm_value (fuel : nat) (h_i : R)
  (maturity_date : date) (prev_h : hmap) (payment_dates : list date)
  (rec : R) : res R :=
  let a := (1 - rec) * 100 / 2 in
  let T := IZR (days_between maturity_date (effective_date M)) / 360 in
  b <- protection_loop h_i prev_h T (range (K T)) 0 ;;
  maturity_date_index <- index_from (spread_maturity_dates M) maturity_date 0 ;;
  sp <- item (map snd (spread_data M)) maturity_date_index ;;
  let c := (5 / 10) * sp in
  next_pay_date <- next_payment_date fuel (effective_date M) payment_dates ;;
  d <- premium_loop fuel h_i maturity_date prev_h payment_dates
         (effective_date M) next_pay_date 0 ;;
  Ret (a * b - c * d).

(** The [for] loop of [d_standard_cds_mtm_value]. *)
Fixpoint d_protection_loop (h_i : R) (prev_h : hmap) (T : R) (ks : list Z)
  (b : R) : res R :=
  match ks with
  | [] => Ret b
  | k :: ks' =>
    sk <- s k T ;;
    sk1 <- s (k + 1) T ;;
    q <- diff_Q_h M sk (VFloat h_i) prev_h ;;
    q1 <- diff_Q_h M sk1 (VFloat h_i) prev_h ;;
    d_protection_loop h_i prev_h T ks' (b + (Z0 sk + Z0 sk1) * (q - q1))
  end.

(** The [while] loop of [d_standard_cds_mtm_value]. *)
Fixpoint d_premium_loop (fuel : nat) (h_i : R) (maturity_date : date)
  (prev_h : hmap) (payment_dates : list date)
  (current_date next_pay_date : date) (d : R) : res R :=
  match fuel with
  | O => OutOfFuel
  | S fuel' =>
    if date_leb next_pay_date maturity_date then
      let delta_t := IZR (days_between next_pay_date current_date) / 360 in
      let t_1 := IZR (days_between current_date (effective_date M)) / 360 in
      let t_2 := IZR (days_between next_pay_date (effective_date M)) / 360 in
      q1 <- diff_Q_h M t_1 (VFloat h_i) prev_h ;;
      q2 <- diff_Q_h M t_2 (VFloat h_i) prev_h ;;
      nxt <- next_payment_date fuel next_pay_date payment_dates ;;
      d_premium_loop fuel' h_i maturity_date prev_h payment_dates
        next_pay_date nxt (d + delta_t * Z0 t_2 * (q1 + q2))
    else Ret d
  end.

Definition d_standard_cds_mtm_value (fuel : nat) (h_i : R)
  (maturity_date : date) (prev_h : hmap) (payment_dates : list date)
  (rec : R) : res R :=
  let a := (1 - rec) * 100 / 2 in
  let T := IZR (days_between maturity_date (effective_date M)) / 360 in
  b <- d_protection_loop h_i prev_h T (range (K T)) 0 ;;
  maturity_date_index <- index_from (spread_maturity_dates M) maturity_date 0 ;;
  sp <- item (map snd (spread_data M)) maturity_date_index ;;
  let c := (5 / 10) * sp in
  next_pay_date <- next_payment_date fuel (effective_date M) payment_dates ;;
  d <- d_premium_loop fuel h_i maturity_date prev_h payment_dates
         (effective_date M) next_pay_date 0 ;;
  Ret (a * b - c * d).

End WithMarket.

End Valuation.

Import Valuation.

(** ** Root finder *)

Module RootFinder.

Local Open Scope R_scope.

(** [np.finfo(float).eps] *)
Definition float_eps : R := / 2 ^ 52.

(** The floor under which a derivative is taken as zero. *)
Definition derivative_floor : R := sqrt float_eps.

Section Newton.

Variables f d_f : R -> date -> hmap -> res R.
Variable maturity_date : date.
Variable prev_h : hmap.
Variable eps : R.

(** The [while abs(val) > eps] loop.  Next to the result, the loop gives the
    divisors of the divisions [float(val) / diff] it performed, oldest
    first. *)
Fixpoint newton_loop (fuel : nat) (x val : R) : list R * res value :=
  match fuel with
  | O => ([], OutOfFuel)
  | S fuel' =>
    if Rgt_dec (Rabs val) eps then
      match d_f x maturity_date prev_h with
      | Ret diff =>
        if Rgt_dec (Rabs diff) derivative_floor then
          let x' := x - val / diff in
          match f x' maturity_date prev_h with
          | Ret val' =>
            let (ds, out) := newton_loop fuel' x' val' in (diff :: ds, out)
          | Raise e => ([diff], Raise e)
          | OutOfFuel => ([diff], OutOfFuel)
          end
        else ([], Ret VNone)
      | Raise e => ([], Raise e)
      | OutOfFuel => ([], OutOfFuel)
      end
    else ([], Ret (VFloat x))
  end.

(** The root finder with the divisors it used; [fuel] bounds the iterations
    of its loop. *)
Definition newton_trace (fuel : nat) (x : R) : list R * res value :=
  match f x maturity_date prev_h with
  | Ret val => newton_loop fuel x val
  | Raise e => ([], Raise e)
  | OutOfFuel => ([], OutOfFuel)
  end.

Definition newton_raphson_method (fuel : nat) (x : R) : res value :=
  snd (newton_trace fuel x).

End Newton.

End RootFinder.

Import RootFinder.

(** ** Calibration driver and query *)

Module Calibration.

Local Open Scope R_scope.

Section Driver.

(** The value function and its derivative handed to the root finder; the
    notebook passes [standard_cds_mtm_value] and
    [d_standard_cds_mtm_value]. *)
Variables f d_f : R -> date -> hmap -> res R.

(** The loop [for mat_date in spread_maturity_dates] that fills [h_values],
    started in the state [h_values]: the state of the dictionary when the
    loop stops, and how it stopped.  The root finder is called with its
    default initial guess 0.01 and tolerance 1e-6. *)
Fixpoint calibrate (fuel : nat) (mat_dates : list date) (h_values : hmap)
  : hmap * res unit :=
  match mat_dates with
  | [] => (h_values, Ret tt)
  | mat_date :: rest =>
    match newton_raphson_method f d_f mat_date h_values (1 / 1000000)
            fuel (1 / 100) with
    | Ret h => calibrate fuel rest (setitem h_values mat_date h)
    | Raise e => (h_values, Raise e)
    | OutOfFuel => (h_values, OutOfFuel)
    end
  end.

End Driver.

(** The notebook's calibration cell. *)
Definition h_values_cell (M : market) (fuel : nat) : hmap * res unit :=
  calibrate
    (fun h d p =>
       standard_cds_mtm_value M fuel h d p standard_cds_payment_dates
         (45 / 100))
    (fun h d p =>
       d_standard_cds_mtm_value M fuel h d p standard_cds_payment_dates
         (45 / 100))
    fuel (spread_maturity_dates M) [].

(** [list(h_values.values())[-1]] *)
Definition last_value (h_values : hmap) : res value :=
  match rev h_values with
  | [] => Raise IndexError
  | (_, v) :: _ => Ret v
  end.

(** The loop of [Q] over the pillars. *)
Fixpoint Q_loop (M : market) (h_values : hmap) (dat : date) (t : R)
  (mat_dates : list date) : res R :=
  match mat_dates with
  | [] =>
    h <- last_value h_values ;;
    Q_h M t h h_values
  | mat_date :: rest =>
    if date_leb dat mat_date then
      h <- getitem h_values mat_date ;;
      Q_h M t h h_values
    else Q_loop M h_values dat t rest
  end.

(** The query, on the calibrated map [h_values]. *)
Definition Q (M : market) (h_values : hmap) (dat : date) : res R :=
  if date_ltb dat (effective_date M) then Ret 0
  else
    let t := IZR (days_between dat (effective_date M)) / 360 in
    Q_loop M h_values dat t (spread_maturity_dates M).

End Calibration.

Import Calibration.

(** ** The notebook's data *)

Definition contract_date : date := mkdate 2014 2 28.

Definition spread_maturity_dates_before_adjustment : list date :=
  [mkdate 2014 9 20; mkdate 2015 3 20; mkdate 2016 3 20; mkdate 2017 3 20;
   mkdate 2018 3 20; mkdate 2019 3 20; mkdate 2021 3 20; mkdate 2024 3 20;
   mkdate 2034 3 20; mkdate 2044 3 20].

Definition notebook_market : market :=
  {| effective_date := mkdate 2014 3 1;
     spread_maturity_dates :=
       [mkdate 2014 9 22; mkdate 2015 3 20; mkdate 2016 3 21;
        mkdate 2017 3 20; mkdate 2018 3 20; mkdate 2019 3 20;
        mkdate 2021 3 22; mkdate 2024 3 20; mkdate 2034 3 20;
        mkdate 2044 3 21];
     spread_data :=
       [(5 / 10, 10307 / 100); (1, 10468 / 100); (2, 10674 / 100);
        (3, 11031 / 100); (4, 11338 / 100); (5, 11698 / 100);
        (7, 12878 / 100); (10, 14351 / 100); (20, 15943 / 100);
        (30, 16413 / 100)]%R |}.


(** ** Specification-level definitions *)

Module Spec.

Local Open Scope R_scope.

(** The number carried by a result; 0 when there is none. *)
Definition value_of (x : res R) : R :=
  match x with
  | Ret v => v
  | _ => 0
  end.

(** The payment date after [d] on a cycle whose recursion is at most
    thirteen calls deep. *)
Definition next_pay (payment_dates : list date) (d : date) : date :=
  match next_payment_date 13 d payment_dates with
  | Ret x => x
  | _ => d
  end.

(** The coupon periods (start, end) that end at or before the maturity date,
    walking the schedule from [start]; at most [n] of them. *)
Fixpoint coupon_periods (n : nat) (payment_dates : list date)
  (maturity_date start : date) : list (date * date) :=
  match n with
  | O => []
  | S n' =>
    let e := next_pay payment_dates start in
    if date_leb e maturity_date
    then (start, e) :: coupon_periods n' payment_dates maturity_date e
    else []
  end.

(** [d] is an anchor of the cycle in its own year, up to the weekend roll. *)
Definition on_anchor (payment_dates : list date) (d : date) : bool :=
  existsb
    (fun p =>
       match weekend_rollover (mkdate (year d) (month p) (day p)) with
       | Ret x => date_eqb x d
       | _ => false
       end)
    payment_dates.

(** Month [m] is strictly between the anchor months of [lo] and [hi]. *)
Definition between_anchors (lo hi : date) (m : Z) : bool :=
  ((month lo <? m) && (m <? month hi))%Z.

(** Every month that [next_payment_date] sends to its last branch (not
    before the first anchor month, and strictly between no two consecutive
    anchor months) is the month of an anchor that has the day of the first
    anchor. *)
Definition last_branch_months_are_anchors (payment_dates : list date)
  : bool :=
  match payment_dates with
  | [p0; p1; p2; p3] =>
    forallb
      (fun m =>
         (m <? month p0)%Z || between_anchors p0 p1 m
         || between_anchors p1 p2 m || between_anchors p2 p3 m
         || existsb (fun p => (month p =? m)%Z && (day p =? day p0)%Z)
              payment_dates)
      [1; 2; 3; 4; 5; 6; 7; 8; 9; 10; 11; 12]%Z
  | _ => false
  end.

Section WithMarket.

Variable M : market.

(** Actual/360 year fraction from the effective date to [d]. *)
Definition year_fraction (d : date) : R :=
  IZR (days_between d (effective_date M)) / 360.

(** Integrated hazard over the inter-pillar intervals that end strictly
    before the target date, each at its solved rate; [st] is the date the
    first interval starts at. *)
Fixpoint solved_sum (end_ord : Z) (prev_h : hmap) (st : date)
  (rest : list date) : res R :=
  match rest with
  | [] => Ret 0
  | mat_date :: rest' =>
    if (toordinal mat_date <? end_ord)%Z then
      v <- getitem prev_h mat_date ;;
      x <- mul_value v (IZR (toordinal mat_date - toordinal st) / 360) ;;
      y <- solved_sum end_ord prev_h mat_date rest' ;;
      Ret (x + y)
    else Ret 0
  end.

(** Year fraction of the final interval: from the preceding pillar date (the
    effective date for the first pillar) to the target date, for the first
    pillar at or after the target date; zero when every pillar lies before
    the target date. *)
Fixpoint final_delta (end_ord : Z) (st : date) (rest : list date) : R :=
  match rest with
  | [] => 0
  | mat_date :: rest' =>
    if (toordinal mat_date <? end_ord)%Z
    then final_delta end_ord mat_date rest'
    else IZR (end_ord - toordinal st) / 360
  end.

(** Whether every pillar of [rest] lies strictly before the target date. *)
Definition all_before (end_ord : Z) (rest : list date) : bool :=
  forallb (fun p => (toordinal p <? end_ord)%Z) rest.

(** Ordinal of the target date of [Q_h] at time [t]. *)
Definition target (t : R) : Z :=
  (toordinal (effective_date M) + py_int (t * 360))%Z.

Definition Delta (t : R) : R :=
  final_delta (target t) (effective_date M) (spread_maturity_dates M).

(** Survival probability and its derivative as numbers. *)
Definition survival (h_i : R) (prev_h : hmap) (t : R) : R :=
  value_of (Q_h M t (VFloat h_i) prev_h).

Definition survival_derivative (h_i : R) (prev_h : hmap) (t : R) : R :=
  value_of (diff_Q_h M t (VFloat h_i) prev_h).

(** Pillar [p] is at or after the date of ordinal [o], or has a float in the
    map. *)
Definition covered (prev_h : hmap) (o : Z) (p : date) : bool :=
  if (toordinal p <? o)%Z then
    match getitem prev_h p with
    | Ret (VFloat _) => true
    | _ => false
    end
  else true.

(** Every pillar strictly before the date of ordinal [o] has a float in the
    map. *)
Definition covers (prev_h : hmap) (o : Z) : bool :=
  forallb (covered prev_h o) (spread_maturity_dates M).

(** Pillar dates strictly increasing, from ordinal [o] on. *)
Fixpoint ascending (o : Z) (l : list date) : bool :=
  match l with
  | [] => true
  | m :: l' => (o <? toordinal m)%Z && ascending (toordinal m) l'
  end.

(** Pillars strictly increasing, the first not before [st]. *)
Definition sorted_from (st : date) (rest : list date) : bool :=
  match rest with
  | [] => true
  | m :: l => (toordinal st <=? toordinal m)%Z && ascending (toordinal m) l
  end.

(** The pillar dates are strictly increasing and none is before the
    effective date. *)
Definition chronological : bool :=
  match spread_maturity_dates M with
  | [] => true
  | m :: l =>
    (toordinal (effective_date M) <=? toordinal m)%Z
    && ascending (toordinal m) l
  end.

(** Every float of the map is non-negative. *)
Definition nonneg_rates (prev_h : hmap) : Prop :=
  forall p x, getitem prev_h p = Ret (VFloat x) -> 0 <= x.

(** Pillar [p] does not separate the dates of ordinals [e1] and [e2]. *)
Definition apart (e1 e2 : Z) (p : date) : bool :=
  negb (e1 <=? toordinal p)%Z || (e2 <=? toordinal p)%Z.

(** No pillar date [p] with [e1 <= p < e2]: the dates of ordinals [e1] and
    [e2] have the same first pillar at or after them, or none. *)
Definition no_pillar_between (e1 e2 : Z) : bool :=
  forallb (apart e1 e2) (spread_maturity_dates M).

(** *** One evaluator for both legs, with the survival term as a parameter *)

Fixpoint legs_protection (surv : R -> res R) (T : R) (ks : list Z) (b : R)
  : res R :=
  match ks with
  | [] => Ret b
  | k :: ks' =>
    sk <- s k T ;;
    sk1 <- s (k + 1) T ;;
    q <- surv sk ;;
    q1 <- surv sk1 ;;
    legs_protection surv T ks' (b + (Z0 sk + Z0 sk1) * (q - q1))
  end.

Fixpoint legs_premium (surv : R -> res R) (fuel : nat) (maturity_date : date)
  (payment_dates : list date) (current_date next_pay_date : date) (d : R)
  : res R :=
  match fuel with
  | O => OutOfFuel
  | S fuel' =>
    if date_leb next_pay_date maturity_date then
      q1 <- surv (year_fraction current_date) ;;
      q2 <- surv (year_fraction next_pay_date) ;;
      nxt <- next_payment_date fuel next_pay_date payment_dates ;;
      legs_premium surv fuel' maturity_date payment_dates next_pay_date nxt
        (d + IZR (days_between next_pay_date current_date) / 360
             * Z0 (year_fraction next_pay_date) * (q1 + q2))
    else Ret d
  end.

Definition legs_value (surv : R -> res R) (fuel : nat) (maturity_date : date)
  (payment_dates : list date) (rec : R) : res R :=
  let T := year_fraction maturity_date in
  b <- legs_protection surv T (range (K T)) 0 ;;
  i <- index_from (spread_maturity_dates M) maturity_date 0 ;;
  sp <- item (map snd (spread_data M)) i ;;
  nxt <- next_payment_date fuel (effective_date M) payment_dates ;;
  d <- legs_premium surv fuel maturity_date payment_dates
         (effective_date M) nxt 0 ;;
  Ret ((1 - rec) * 100 / 2 * b - 5 / 10 * sp * d).

(** *** The two legs as sums *)





(** Number of days from the effective date to [d], at least zero. *)
Definition horizon (d : date) : nat :=
  Z.to_nat (days_between d (effective_date M)).


End WithMarket.

End Spec.

Import Spec.

(** The map that gives every pillar of the notebook the rate [x]. *)
Definition flat_map_of (x : R) : hmap :=
  map (fun p => (p, VFloat x)) (spread_maturity_dates notebook_market).

(** The states of the root finder's loop: [iterate x val] when the loop is
    entered or re-entered at [x], with [val = f(x)]. *)
Section Iterates.

Variables f d_f : R -> date -> hmap -> res R.
Variable maturity_date : date.
Variable prev_h : hmap.
Variable eps : R.
Variable x0 : R.

Inductive iterate : R -> R -> Prop :=
| iterate_first (val : R) :
    f x0 maturity_date prev_h = Ret val -> iterate x0 val
| iterate_next (x val diff val' : R) :
    iterate x val ->
    (Rabs val > eps)%R ->
    d_f x maturity_date prev_h = Ret diff ->
    (Rabs diff > derivative_floor)%R ->
    f (x - val / diff)%R maturity_date prev_h = Ret val' ->
    iterate (x - val / diff)%R val'.

End Iterates.

(** A value function with its root at 0, and its derivative. *)
Definition identity_value : R -> date -> hmap -> res R :=
  fun x _ _ => Ret x.

Definition identity_derivative : R -> date -> hmap -> res R :=
  fun _ _ _ => Ret 1%R.

(** A quarterly cycle anchored on the last day of each quarter. *)
Definition end_of_quarter_cycle : list date :=
  [mkdate 2014 3 31; mkdate 2014 6 30; mkdate 2014 9 30; mkdate 2014 12 31].

(** A cycle of four anchors in adjacent months. *)
Definition adjacent_months_cycle : list date :=
  [mkdate 2014 1 15; mkdate 2014 2 15; mkdate 2014 3 15; mkdate 2014 4 15].

(** ** Further definitions: cycles, sample markets, integrated hazard, and
       the root finder on NaN *)

(** A cycle of four anchors on one day of the month (at most the 26th), in
    months that increase with at least one month between two anchors, the
    first after January. *)
Definition spaced_cycle (payment_dates : list date) : bool :=
  match payment_dates with
  | [p0; p1; p2; p3] =>
    ((1 <? month p0) && (month p0 + 1 <? month p1)
     && (month p1 + 1 <? month p2) && (month p2 + 1 <? month p3)
     && (month p3 <=? 12) && (1 <=? day p0) && (day p0 <=? 26)
     && (day p1 =? day p0) && (day p2 =? day p0) && (day p3 =? day p0))%Z
  | _ => false
  end.

(** [x] falls on the month and day of an anchor. *)
Definition anchor_date (payment_dates : list date) (x : date) : bool :=
  existsb (fun p => ((month p =? month x) && (day p =? day x))%Z)
    payment_dates.

(** [current_date] is not in a month after the last anchor month before the
    anchor day. *)
Definition in_cycle_range (payment_dates : list date) (current_date : date)
  : bool :=
  match payment_dates with
  | [p0; _; _; p3] =>
    ((month current_date <=? month p3) || (day p0 <=? day current_date))%Z
  | _ => false
  end.

(** The exceptions of the calendar functions. *)
Definition calendar_error (err : exn) : Prop :=
  err = IndexError \/ err = ValueError \/ err = OverflowError.

(** The exceptions of the valuation and of its derivative. *)
Definition valuation_error (err : exn) : Prop :=
  err = KeyError \/ err = TypeError \/ err = OverflowError
  \/ err = ValueError \/ err = IndexError.

(** Pillar [p] has a float in the map. *)
Definition has_float (prev_h : hmap) (p : date) : bool :=
  match getitem prev_h p with
  | Ret (VFloat _) => true
  | _ => false
  end.

(** A market with one pillar, on its effective date. *)
Definition single_pillar_market : market :=
  {| effective_date := mkdate 2014 9 22;
     spread_maturity_dates := [mkdate 2014 9 22];
     spread_data := [(5 / 10, 10307 / 100)]%R |}.



(** A market of two pillars, one day and two days after its effective date
    2014-03-19, with the spreads [sp1] and [sp2]. *)
Definition short_market (sp1 sp2 : R) : market :=
  {| effective_date := mkdate 2014 3 19;
     spread_maturity_dates := [mkdate 2014 3 20; mkdate 2014 3 21];
     spread_data := [(5 / 10, sp1); (1, sp2)]%R |}.

(** The spread of the first pillar of [short_market] for which the
    derivative of the valuation of that pillar vanishes at every rate. *)
Definition stall_spread : R :=
  (- (720 * ((1 - 45 / 100) * 100 / 2) * (1 + Z0 (1 / 360))
      / Z0 (1 / 360)))%R.

(** The spreads of the two pillars of [short_market] for which the rate 0.01
    is the root at the first pillar and then, with 0.01 in the map for the
    first pillar, at the second. *)
Definition fair_spread_1 : R :=
  ((1 - 45 / 100) * 100 / 2
   * ((1 + Z0 (1 / 360)) * (1 - exp (- (1 / 100 * (1 / 360)))))
   / (5 / 10
      * (1 / 360 * Z0 (1 / 360) * (1 + exp (- (1 / 100 * (1 / 360)))))))%R.

Definition fair_spread_2 : R :=
  ((1 - 45 / 100) * 100 / 2
   * ((1 + Z0 (2 / 360))
      * (1 - exp (- (1 / 100 * (1 / 360) + 1 / 100 * (1 / 360)))))
   / (5 / 10
      * (1 / 360 * Z0 (1 / 360) * (1 + exp (- (1 / 100 * (1 / 360)))))))%R.

Definition fair_market : market := short_market fair_spread_1 fair_spread_2.

(** The two functions the calibration cell hands to the root finder:
    [standard_cds_mtm_value] and [d_standard_cds_mtm_value] with their
    default payment dates and recovery rate. *)
Definition cell_value (M : market) (fuel : nat)
  : R -> date -> hmap -> res R :=
  fun h d p =>
    standard_cds_mtm_value M fuel h d p standard_cds_payment_dates
      (45 / 100)%R.

Definition cell_derivative (M : market) (fuel : nat)
  : R -> date -> hmap -> res R :=
  fun h d p =>
    d_standard_cds_mtm_value M fuel h d p standard_cds_payment_dates
      (45 / 100)%R.

(** ** The root finder on values that may be NaN

    [newton_raphson_method] once more, with the results of [f] and [d_f]
    taken as floats that may be NaN.  A comparison with NaN is false: the
    [while abs(val) > eps] loop is left on a NaN value, and a NaN
    derivative fails the test [np.abs(diff) > np.sqrt(np.finfo(float).eps)].
    The step [x - float(val) / diff] is taken on numbers and is exact; an
    overflow of the iterates is not modelled. *)

Module NanAware.

Local Open Scope R_scope.

Inductive fnum : Type :=
| Num (x : R)
| NaN.

(** A function on numbers, as a function whose result is never NaN. *)
Definition lift (g : R -> date -> hmap -> res R)
  : R -> date -> hmap -> res fnum :=
  fun x d p =>
    match g x d p with
    | Ret v => Ret (Num v)
    | Raise e => Raise e
    | OutOfFuel => OutOfFuel
    end.

Section Newton.

Variables f d_f : R -> date -> hmap -> res fnum.
Variable maturity_date : date.
Variable prev_h : hmap.
Variable eps : R.

(** The [while abs(val) > eps] loop, with the divisors of its divisions. *)
Fixpoint newton_loop (fuel : nat) (x : R) (val : fnum)
  : list R * res value :=
  match fuel with
  | O => ([], OutOfFuel)
  | S fuel' =>
    match val with
    | Num v =>
      if Rgt_dec (Rabs v) eps then
        match d_f x maturity_date prev_h with
        | Ret (Num diff) =>
          if Rgt_dec (Rabs diff) derivative_floor then
            let x' := x - v / diff in
            match f x' maturity_date prev_h with
            | Ret val' =>
              let (ds, out) := newton_loop fuel' x' val' in (diff :: ds, out)
            | Raise e => ([diff], Raise e)
            | OutOfFuel => ([diff], OutOfFuel)
            end
          else ([], Ret VNone)
        | Ret NaN => ([], Ret VNone)
        | Raise e => ([], Raise e)
        | OutOfFuel => ([], OutOfFuel)
        end
      else ([], Ret (VFloat x))
    | NaN => ([], Ret (VFloat x))
    end
  end.

Definition newton_trace (fuel : nat) (x : R) : list R * res value :=
  match f x maturity_date prev_h with
  | Ret val => newton_loop fuel x val
  | Raise e => ([], Raise e)
  | OutOfFuel => ([], OutOfFuel)
  end.

Definition newton_raphson_method (fuel : nat) (x : R) : res value :=
  snd (newton_trace fuel x).

Variable x0 : R.

(** The states of the loop: [iterate x val] when the loop is entered or
    re-entered at [x], with [val = f(x)]. *)
Inductive iterate : R -> fnum -> Prop :=
| iterate_first (val : fnum) :
    f x0 maturity_date prev_h = Ret val -> iterate x0 val
| iterate_next (x v diff : R) (val' : fnum) :
    iterate x (Num v) ->
    Rabs v > eps ->
    d_f x maturity_date prev_h = Ret (Num diff) ->
    Rabs diff > derivative_floor ->
    f (x - v / diff) maturity_date prev_h = Ret val' ->
    iterate (x - v / diff) val'.

End Newton.

End NanAware.

(** The integrated hazard of [Q_h] at time [t]: the exponent of its result
    with the sign changed. *)
Definition integrated_hazard (M : market) (h_i : R) (prev_h : hmap) (t : R)
  : R :=
  (value_of (solved_sum (target M t) prev_h (effective_date M)
               (spread_maturity_dates M))
   + h_i * Delta M t)%R.






(** * Properties *)

(** ** Results *)

Lemma bind_Ret_inv {A B : Type} (m : res A) (k : A -> res B) (b : B) :
  bind m k = Ret b -> exists a, m = Ret a /\ k a = Ret b.
Proof.
  destruct m as [a | e | ]; simpl; intros H; try discriminate.
  exists a; split; [reflexivity | exact H].
Qed.

Ltac inv_bind H :=
  let a := fresh "a" in
  let Ha := fresh "Ha" in
  apply bind_Ret_inv in H; destruct H as [a [Ha H]].

Ltac unbool :=
  repeat match goal with
  | H : _ && _ = true |- _ => apply andb_true_iff in H; destruct H
  | H : _ && _ = false |- _ => apply andb_false_iff in H
  | H : _ || _ = true |- _ => apply orb_true_iff in H
  | H : _ || _ = false |- _ => apply orb_false_iff in H; destruct H
  | H : negb _ = true |- _ => apply negb_true_iff in H
  | H : negb _ = false |- _ => apply negb_false_iff in H
  | H : (_ <=? _)%Z = true |- _ => apply Z.leb_le in H
  | H : (_ <=? _)%Z = false |- _ => apply Z.leb_gt in H
  | H : (_ <? _)%Z = true |- _ => apply Z.ltb_lt in H
  | H : (_ <? _)%Z = false |- _ => apply Z.ltb_ge in H
  | H : (_ =? _)%Z = true |- _ => apply Z.eqb_eq in H
  | H : (_ =? _)%Z = false |- _ => apply Z.eqb_neq in H
  end.

Ltac month_cases m :=
  let Hm := fresh "Hm" in
  assert (m = 1 \/ m = 2 \/ m = 3 \/ m = 4 \/ m = 5 \/ m = 6 \/ m = 7
          \/ m = 8 \/ m = 9 \/ m = 10 \/ m = 11 \/ m = 12)%Z as Hm by lia;
  repeat (destruct Hm as [Hm | Hm]; [subst m | ]); [ .. | subst m].

(** ** Calendar *)

Section CalendarFacts.

Local Open Scope Z_scope.

Lemma is_leap_spec (y : Z) :
  is_leap y = true <->
  y mod 4 = 0 /\ (y mod 100 <> 0 \/ y mod 400 = 0).
Proof.
  unfold is_leap. rewrite andb_true_iff, orb_true_iff, negb_true_iff.
  rewrite !Z.eqb_eq, Z.eqb_neq. tauto.
Qed.

Lemma days_before_year_succ (y : Z) :
  days_before_year (y + 1) = days_before_year y + days_in_year y.
Proof.
  unfold days_before_year, days_in_year.
  replace (y + 1 - 1) with y by lia.
  destruct (is_leap y) eqn:L.
  - apply is_leap_spec in L. Z.div_mod_to_equations. lia.
  - assert (N : ~ (y mod 4 = 0 /\ (y mod 100 <> 0 \/ y mod 400 = 0)))
      by (rewrite <- is_leap_spec, L; discriminate).
    Z.div_mod_to_equations. lia.
Qed.

Lemma days_before_year_mono (y1 y2 : Z) :
  y1 <= y2 -> days_before_year y1 <= days_before_year y2.
Proof.
  unfold days_before_year. intros H. Z.div_mod_to_equations. lia.
Qed.

Lemma days_in_month_bounds (y m : Z) :
  1 <= m <= 12 -> 28 <= days_in_month y m <= 31.
Proof.
  intros H. unfold days_in_month. month_cases m;
    destruct (is_leap y); simpl; lia.
Qed.

Lemma days_before_month_succ (y m : Z) :
  1 <= m < 12 ->
  days_before_month y (m + 1) = days_before_month y m + days_in_month y m.
Proof.
  intros H. unfold days_before_month, days_in_month.
  month_cases m; destruct (is_leap y); simpl; lia.
Qed.

Lemma days_before_month_last (y : Z) :
  days_before_month y 12 + days_in_month y 12 = days_in_year y.
Proof.
  unfold days_before_month, days_in_month, days_in_year.
  destruct (is_leap y); simpl; lia.
Qed.

Lemma days_before_month_mono (y m1 m2 : Z) :
  1 <= m1 -> m1 < m2 -> m2 <= 12 ->
  days_before_month y m1 + days_in_month y m1 <= days_before_month y m2.
Proof.
  intros H1 H2 H3. unfold days_before_month, days_in_month.
  month_cases m1; month_cases m2; try lia;
    destruct (is_leap y); simpl; lia.
Qed.

Lemma days_before_month_nonneg (y m : Z) :
  1 <= m <= 12 -> 0 <= days_before_month y m.
Proof.
  intros H. unfold days_before_month.
  month_cases m; destruct (is_leap y); simpl; lia.
Qed.

Lemma valid_spec (d : date) :
  valid d = true <->
  1 <= year d <= 9999 /\ 1 <= month d <= 12
  /\ 1 <= day d <= days_in_month (year d) (month d).
Proof.
  unfold valid, valid_ymd, MINYEAR, MAXYEAR.
  rewrite !andb_true_iff, !Z.leb_le. tauto.
Qed.

Lemma toordinal_in_year (d : date) :
  valid d = true ->
  days_before_year (year d) < toordinal d
  <= days_before_year (year d) + days_in_year (year d).
Proof.
  intros V. apply valid_spec in V. destruct V as (Hy & Hm & Hd).
  unfold toordinal.
  pose proof (days_before_month_nonneg (year d) (month d) Hm).
  assert (days_before_month (year d) (month d)
          + days_in_month (year d) (month d) <= days_in_year (year d)).
  { destruct (Z.eq_dec (month d) 12) as [E | E].
    - rewrite E. rewrite days_before_month_last. lia.
    - pose proof (days_before_month_mono (year d) (month d) 12).
      pose proof (days_before_month_last (year d)).
      pose proof (days_in_month_bounds (year d) 12). lia. }
  lia.
Qed.

Lemma date_ltb_toordinal (a b : date) :
  valid a = true -> valid b = true ->
  date_ltb a b = true -> toordinal a < toordinal b.
Proof.
  intros Va Vb L.
  pose proof (toordinal_in_year a Va) as Ia.
  pose proof (toordinal_in_year b Vb) as Ib.
  apply valid_spec in Va. apply valid_spec in Vb.
  destruct Va as (Hya & Hma & Hda). destruct Vb as (Hyb & Hmb & Hdb).
  unfold date_ltb in L. unbool. destruct L as [L | L]; unbool.
  - pose proof (days_before_year_succ (year a)).
    pose proof (days_before_year_mono (year a + 1) (year b)). lia.
  - unfold toordinal.
    match goal with H : year a = year b |- _ => rewrite H in * end.
    match goal with H : _ \/ _ |- _ => destruct H as [L | L] end; unbool.
    + pose proof (days_before_month_mono (year b) (month a) (month b)). lia.
    + match goal with H : month a = month b |- _ => rewrite H in * end. lia.
Qed.

Lemma date_ltb_total (a b : date) :
  date_ltb a b = false -> a = b \/ date_ltb b a = true.
Proof.
  destruct a as [ya ma da], b as [yb mb db]. unfold date_ltb; simpl.
  intros H.
  destruct (Z.lt_trichotomy ya yb) as [Hy | [Hy | Hy]].
  - apply Z.ltb_lt in Hy. rewrite Hy in H. discriminate.
  - subst yb. rewrite Z.ltb_irrefl, Z.eqb_refl in *. simpl in *.
    destruct (Z.lt_trichotomy ma mb) as [Hm | [Hm | Hm]].
    + apply Z.ltb_lt in Hm. rewrite Hm in H. discriminate.
    + subst mb. rewrite Z.ltb_irrefl, Z.eqb_refl in *. simpl in *.
      apply Z.ltb_ge in H.
      destruct (Z.eq_dec da db) as [E | E]; [left; congruence | right].
      apply Z.ltb_lt. lia.
    + right. apply Z.ltb_lt in Hm. rewrite Hm. reflexivity.
  - right. apply Z.ltb_lt in Hy. rewrite Hy. reflexivity.
Qed.

(** Dates compare as their ordinals do. *)
Lemma date_ltb_iff (a b : date) :
  valid a = true -> valid b = true ->
  (date_ltb a b = true <-> toordinal a < toordinal b).
Proof.
  intros Va Vb. split; [apply date_ltb_toordinal; assumption | ].
  intros H. destruct (date_ltb a b) eqn:L; [reflexivity | ].
  destruct (date_ltb_total a b L) as [E | L'].
  - subst b. lia.
  - pose proof (date_ltb_toordinal b a Vb Va L'). lia.
Qed.

Lemma date_leb_iff (a b : date) :
  valid a = true -> valid b = true ->
  (date_leb a b = true <-> toordinal a <= toordinal b).
Proof.
  intros Va Vb. unfold date_leb. rewrite negb_true_iff.
  pose proof (date_ltb_iff b a Vb Va) as H.
  destruct (date_ltb b a); split; intros; try reflexivity; try discriminate.
  - assert (toordinal b < toordinal a) by (apply H; reflexivity). lia.
  - assert (~ toordinal b < toordinal a) by (rewrite <- H; discriminate). lia.
Qed.

Lemma date_eqb_eq (a b : date) : date_eqb a b = true <-> a = b.
Proof.
  destruct a as [ya ma da], b as [yb mb db]. unfold date_eqb. simpl.
  rewrite !andb_true_iff, !Z.eqb_eq. split.
  - intros [[-> ->] ->]. reflexivity.
  - intros H. inversion H. tauto.
Qed.

Lemma date_eqb_refl (a : date) : date_eqb a a = true.
Proof. apply date_eqb_eq. reflexivity. Qed.

End CalendarFacts.

Section CalendarSteps.

Local Open Scope Z_scope.

Lemma new_date_inv (y m d : Z) (x : date) :
  new_date y m d = Ret x -> x = mkdate y m d /\ valid x = true.
Proof.
  unfold new_date. destruct (valid_ymd y m d) eqn:V; intros H;
    inversion H; subst. split; [reflexivity | exact V].
Qed.

Lemma tomorrow_spec (d d' : date) :
  valid d = true -> tomorrow d = Ret d' ->
  valid d' = true /\ toordinal d' = toordinal d + 1.
Proof.
  intros V H. apply valid_spec in V. destruct V as (Hy & Hm & Hd).
  unfold tomorrow, MAXYEAR in H.
  destruct (day d <? days_in_month (year d) (month d)) eqn:C1; unbool.
  { inversion H; subst; clear H. split.
    - apply valid_spec; simpl. lia.
    - unfold toordinal; simpl. lia. }
  destruct (month d <? 12) eqn:C2; unbool.
  { inversion H; subst; clear H.
    pose proof (days_in_month_bounds (year d) (month d + 1)).
    split.
    - apply valid_spec; simpl. lia.
    - unfold toordinal; simpl.
      rewrite days_before_month_succ by lia. lia. }
  destruct (year d <? 9999) eqn:C3; unbool; [ | discriminate].
  inversion H; subst; clear H.
  assert (E : month d = 12) by lia.
  split.
  - apply valid_spec; simpl. unfold days_in_month; simpl. lia.
  - unfold toordinal; simpl. rewrite E in *.
    rewrite days_before_year_succ.
    pose proof (days_before_month_last (year d)).
    unfold days_before_month at 1; simpl. lia.
Qed.

Lemma tomorrow_total (d : date) :
  valid d = true -> day d <= 29 -> exists d', tomorrow d = Ret d'.
Proof.
  intros V H. apply valid_spec in V. destruct V as (Hy & Hm & Hd).
  unfold tomorrow.
  destruct (day d <? days_in_month (year d) (month d)) eqn:C1;
    [eexists; reflexivity | unbool].
  destruct (month d <? 12) eqn:C2; [eexists; reflexivity | unbool].
  assert (E : month d = 12) by lia. rewrite E in *.
  unfold days_in_month in C1; simpl in C1. lia.
Qed.

Lemma weekend_rollover_spec (w w' : date) :
  valid w = true -> weekend_rollover w = Ret w' ->
  valid w' = true /\ toordinal w <= toordinal w' <= toordinal w + 2.
Proof.
  intros V H. unfold weekend_rollover in H.
  destruct (weekday w =? 5).
  - inv_bind H. destruct (tomorrow_spec _ _ V Ha) as [V1 E1].
    destruct (tomorrow_spec _ _ V1 H) as [V2 E2]. split; [assumption | lia].
  - destruct (weekday w =? 6).
    + destruct (tomorrow_spec _ _ V H) as [V1 E1]. split; [assumption | lia].
    + inversion H; subst. split; [assumption | lia].
Qed.

Lemma weekend_rollover_total (w : date) :
  valid w = true -> day w <= 28 -> exists w', weekend_rollover w = Ret w'.
Proof.
  intros V H. unfold weekend_rollover.
  destruct (weekday w =? 5).
  - destruct (tomorrow_total w V) as [d1 E1]; [lia | ].
    rewrite E1; simpl.
    assert (day d1 <= 29).
    { unfold tomorrow in E1.
      destruct (day w <? days_in_month (year w) (month w));
        [ | destruct (month w <? 12); [ | destruct (year w <? MAXYEAR)]];
        inversion E1; subst; simpl; lia. }
    destruct (tomorrow_spec _ _ V E1) as [V1 _].
    apply tomorrow_total; assumption.
  - destruct (weekday w =? 6).
    + apply tomorrow_total; [assumption | lia].
    + eexists; reflexivity.
Qed.

Lemma add_month_spec (d d' : date) :
  valid d = true -> add_month d = Ret d' ->
  valid d' = true /\ date_ltb d d' = true
  /\ ((month d < 12 /\ year d' = year d /\ month d' = month d + 1)
      \/ (month d = 12 /\ year d' = year d + 1 /\ month d' = 1))
  /\ Z.min 28 (day d) <= day d' <= day d.
Proof.
  intros V H. apply valid_spec in V. destruct V as (Hy & Hm & Hd).
  unfold add_month in H.
  destruct (12 <? month d + 1) eqn:C; unbool; simpl in H;
    apply new_date_inv in H; destruct H as [E V']; subst d';
    (split; [exact V' | ]); unfold date_ltb; simpl.
  - assert (Em : month d = 12) by lia. rewrite Em.
    pose proof (days_in_month_bounds (year d + 1) 1).
    replace (12 + 1 - 12) with 1 in * by lia.
    split; [ | split; [right; lia | lia]].
    replace (year d <? year d + 1) with true by (symmetry; apply Z.ltb_lt; lia).
    reflexivity.
  - pose proof (days_in_month_bounds (year d) (month d + 1)).
    split; [ | split; [left; lia | lia]].
    rewrite Z.eqb_refl.
    replace (month d <? month d + 1) with true
      by (symmetry; apply Z.ltb_lt; lia).
    simpl. apply orb_true_r.
Qed.

Lemma add_month_total (d : date) :
  valid d = true -> year d < 9999 \/ month d < 12 ->
  exists d', add_month d = Ret d'.
Proof.
  intros V H. apply valid_spec in V. destruct V as (Hy & Hm & Hd).
  unfold add_month, new_date.
  destruct (12 <? month d + 1) eqn:C; unbool; simpl.
  - pose proof (days_in_month_bounds (year d + 1) (month d + 1 - 12)).
    replace (valid_ymd _ _ _) with true; [eexists; reflexivity | ].
    symmetry. unfold valid_ymd, MINYEAR, MAXYEAR.
    rewrite !andb_true_iff, !Z.leb_le. lia.
  - pose proof (days_in_month_bounds (year d) (month d + 1)).
    replace (valid_ymd _ _ _) with true; [eexists; reflexivity | ].
    symmetry. unfold valid_ymd, MINYEAR, MAXYEAR.
    rewrite !andb_true_iff, !Z.leb_le. lia.
Qed.

End CalendarSteps.

Section NextPaymentDate.

Local Open Scope Z_scope.

Lemma later_in_year (cur : date) (m d : Z) (x : date) :
  valid cur = true -> new_date (year cur) m d = Ret x ->
  month cur < m \/ (month cur = m /\ day cur < d) ->
  valid x = true /\ toordinal cur < toordinal x.
Proof.
  intros V H L. apply new_date_inv in H. destruct H as [E Vx]. subst x.
  split; [exact Vx | ].
  apply date_ltb_toordinal; try assumption.
  unfold date_ltb; simpl. rewrite Z.eqb_refl, Z.ltb_irrefl. simpl.
  destruct L as [L | [L1 L2]].
  - apply Z.ltb_lt in L. rewrite L. reflexivity.
  - rewrite L1, Z.eqb_refl, Z.ltb_irrefl. simpl. apply Z.ltb_lt. exact L2.
Qed.

Lemma in_gap_true (cur : date) (c : list date) (i : nat) :
  in_gap cur c i = Ret true ->
  exists hi, item c (S i) = Ret hi /\ month cur < month hi.
Proof.
  unfold in_gap. intros H. inv_bind H.
  destruct (month a <? month cur); [ | discriminate].
  inv_bind H. inversion H. unbool. exists a0. split; assumption.
Qed.

Lemma anchor_later (cur : date) (c : list date) (i : nat) (hi x : date) :
  valid cur = true -> item c i = Ret hi -> month cur < month hi ->
  anchor_in_year cur c i = Ret x ->
  valid x = true /\ toordinal cur < toordinal x.
Proof.
  intros V Hi L H. unfold anchor_in_year in H. rewrite Hi in H. simpl in H.
  eapply later_in_year; eauto.
Qed.

(** Whenever [next_payment_date] returns, it returns a valid date strictly
    later than its input, for any list of anchors. *)
Lemma next_payment_date_later (fuel : nat) :
  forall (cur : date) (c : list date) (d : date),
  valid cur = true -> next_payment_date fuel cur c = Ret d ->
  valid d = true /\ toordinal cur < toordinal d.
Proof.
  induction fuel as [ | fuel IH]; intros cur c d V H; [discriminate | ].
  simpl in H. inv_bind H. rename a into p0, Ha into Hp0.
  inv_bind H. rename a into pd, Ha into Hpd.
  assert (P : valid pd = true /\ toordinal cur < toordinal pd).
  { destruct (month cur <? month p0) eqn:C0.
    { unbool. eapply anchor_later; eauto. }
    inv_bind Hpd. destruct a.
    { apply in_gap_true in Ha. destruct Ha as (hi & Hhi & L).
      eapply anchor_later; eauto. }
    clear Ha. inv_bind Hpd. destruct a.
    { apply in_gap_true in Ha. destruct Ha as (hi & Hhi & L).
      eapply anchor_later; eauto. }
    clear Ha. inv_bind Hpd. destruct a.
    { apply in_gap_true in Ha. destruct Ha as (hi & Hhi & L).
      eapply anchor_later; eauto. }
    clear Ha. inv_bind Hpd.
    destruct (day cur <? day a) eqn:Cd.
    { unbool. eapply later_in_year; eauto. }
    inv_bind Hpd. rename a0 into nxt.
    destruct (add_month_spec _ _ V Ha0) as (Vn & Ln & _).
    destruct (IH _ _ _ Vn Hpd) as [Vpd Lpd].
    split; [exact Vpd | ].
    pose proof (date_ltb_toordinal _ _ V Vn Ln). lia. }
  destruct P as [Vpd Lpd].
  destruct (weekend_rollover_spec _ _ Vpd H) as [Vd Ld].
  split; [exact Vd | lia].
Qed.

Lemma next_payment_date_fuel_mono (fuel : nat) :
  forall (cur : date) (c : list date) (d : date),
  next_payment_date fuel cur c = Ret d ->
  forall fuel', (fuel <= fuel')%nat -> next_payment_date fuel' cur c = Ret d.
Proof.
  induction fuel as [ | fuel IH]; intros cur c d H fuel' Hf; [discriminate | ].
  destruct fuel' as [ | fuel']; [lia | ].
  simpl in H |- *.
  destruct (item c 0) as [p0 | | ]; simpl in *; try discriminate.
  destruct (month cur <? month p0); [exact H | ].
  destruct (in_gap cur c 0) as [[ | ] | | ]; simpl in *; try discriminate;
    [exact H | ].
  destruct (in_gap cur c 1) as [[ | ] | | ]; simpl in *; try discriminate;
    [exact H | ].
  destruct (in_gap cur c 2) as [[ | ] | | ]; simpl in *; try discriminate;
    [exact H | ].
  destruct (day cur <? day p0); [exact H | ].
  destruct (add_month cur) as [nxt | | ]; simpl in *; try discriminate.
  destruct (next_payment_date fuel nxt c) as [x | | ] eqn:E; simpl in *;
    try discriminate.
  rewrite (IH _ _ _ E fuel') by lia. simpl. exact H.
Qed.

End NextPaymentDate.

Section NextPaymentDateTotal.

Local Open Scope Z_scope.

Lemma weekend_rollover_weekday (w w' : date) :
  valid w = true -> weekend_rollover w = Ret w' ->
  weekday w' <> 5 /\ weekday w' <> 6.
Proof.
  intros V H. unfold weekend_rollover in H.
  destruct (weekday w =? 5) eqn:C5; unbool.
  - inv_bind H. destruct (tomorrow_spec _ _ V Ha) as [V1 E1].
    destruct (tomorrow_spec _ _ V1 H) as [V2 E2].
    unfold weekday in *. rewrite E2, E1. Z.div_mod_to_equations. lia.
  - destruct (weekday w =? 6) eqn:C6; unbool.
    + destruct (tomorrow_spec _ _ V H) as [V1 E1].
      unfold weekday in *. rewrite E1. Z.div_mod_to_equations. lia.
    + inversion H; subst. split; assumption.
Qed.

Lemma weekend_rollover_id (w : date) :
  weekday w <> 5 -> weekday w <> 6 -> weekend_rollover w = Ret w.
Proof.
  intros H5 H6. unfold weekend_rollover.
  apply Z.eqb_neq in H5. apply Z.eqb_neq in H6. rewrite H5, H6. reflexivity.
Qed.

Lemma next_payment_date_weekday (fuel : nat) (cur : date) (c : list date)
  (d : date) :
  valid cur = true -> next_payment_date fuel cur c = Ret d ->
  weekday d <> 5 /\ weekday d <> 6.
Proof.
  intros V H. destruct fuel as [ | fuel]; [discriminate | ].
  assert (exists pd, valid pd = true /\ weekend_rollover pd = Ret d)
    as (pd & Vpd & Hpd).
  { pose proof (next_payment_date_later (S fuel) cur c) as L.
    simpl in H. inv_bind H. inv_bind H. exists a0. split; [ | exact H].
    destruct (month cur <? month a) eqn:C0.
    { unfold anchor_in_year in Ha0. inv_bind Ha0.
      apply new_date_inv in Ha0. tauto. }
    inv_bind Ha0. destruct a1.
    { unfold anchor_in_year in Ha0. inv_bind Ha0.
      apply new_date_inv in Ha0. tauto. }
    inv_bind Ha0. destruct a1.
    { unfold anchor_in_year in Ha0. inv_bind Ha0.
      apply new_date_inv in Ha0. tauto. }
    inv_bind Ha0. destruct a1.
    { unfold anchor_in_year in Ha0. inv_bind Ha0.
      apply new_date_inv in Ha0. tauto. }
    inv_bind Ha0. destruct (day cur <? day a1).
    { apply new_date_inv in Ha0. tauto. }
    inv_bind Ha0. destruct (add_month_spec _ _ V Ha5) as (Vn & _).
    apply (next_payment_date_later _ _ _ _ Vn Ha0). }
  eapply weekend_rollover_weekday; eauto.
Qed.

Lemma regular_anchor_new_date (y : Z) (p : date) :
  1 <= y <= 9999 -> regular_anchor p = true ->
  exists x, new_date y (month p) (day p) = Ret x /\ day x <= 28.
Proof.
  intros Hy Hp. unfold regular_anchor in Hp. unbool.
  pose proof (days_in_month_bounds y (month p)).
  unfold new_date.
  replace (valid_ymd y (month p) (day p)) with true.
  - eexists; split; [reflexivity | simpl; lia].
  - symmetry. unfold valid_ymd, MINYEAR, MAXYEAR.
    rewrite !andb_true_iff, !Z.leb_le. lia.
Qed.

Lemma regular_cycle_inv (c : list date) :
  regular_cycle c = true ->
  exists p0 p1 p2 p3, c = [p0; p1; p2; p3] /\ 1 < month p0
    /\ regular_anchor p0 = true /\ regular_anchor p1 = true
    /\ regular_anchor p2 = true /\ regular_anchor p3 = true.
Proof.
  destruct c as [ | p0 [ | p1 [ | p2 [ | p3 [ | ? ?]]]]]; try discriminate.
  unfold regular_cycle. simpl. intros H. unbool.
  exists p0, p1, p2, p3. repeat split; assumption.
Qed.

(** One call of [next_payment_date] on a regular cycle, given the result of
    the recursive call whenever it is needed. *)
Lemma next_payment_date_step (fuel : nat) (cur : date) (c : list date) :
  valid cur = true -> regular_cycle c = true ->
  (forall nxt, add_month cur = Ret nxt ->
     exists x, next_payment_date fuel nxt c = Ret x) ->
  year cur < 9999 \/ month cur < 12 ->
  exists d, next_payment_date (S fuel) cur c = Ret d.
Proof.
  intros V Hc Hrec Hy.
  destruct (regular_cycle_inv c Hc)
    as (p0 & p1 & p2 & p3 & -> & H0 & R0 & R1 & R2 & R3).
  pose proof V as V'. apply valid_spec in V'. destruct V' as (Vy & Vm & Vd).
  assert (A : forall p, regular_anchor p = true ->
            exists d, (pd <- new_date (year cur) (month p) (day p) ;;
                       weekend_rollover pd) = Ret d).
  { intros p Rp. destruct (regular_anchor_new_date (year cur) p Vy Rp)
      as (x & Ex & Dx).
    rewrite Ex. simpl. apply new_date_inv in Ex. destruct Ex as [_ Vx].
    apply weekend_rollover_total; assumption. }
  assert (E : exists d,
            (payment_date <-
               (if day cur <? day p0
                then new_date (year cur) (month cur) (day p0)
                else nxt <- add_month cur ;;
                     next_payment_date fuel nxt [p0; p1; p2; p3]) ;;
             weekend_rollover payment_date) = Ret d).
  { destruct (day cur <? day p0) eqn:Cd; unbool.
    - unfold regular_anchor in R0. unbool.
      pose proof (days_in_month_bounds (year cur) (month cur) Vm).
      unfold new_date.
      replace (valid_ymd (year cur) (month cur) (day p0)) with true.
      + simpl. apply weekend_rollover_total; [ | simpl; lia].
        apply valid_spec; simpl. lia.
      + symmetry. unfold valid_ymd, MINYEAR, MAXYEAR.
        rewrite !andb_true_iff, !Z.leb_le. lia.
    - destruct (add_month_total cur V Hy) as [nxt En].
      destruct (Hrec nxt En) as [x Ex]. rewrite En. simpl. rewrite Ex. simpl.
      destruct (add_month_spec _ _ V En) as (Vn & _).
      destruct (next_payment_date_weekday _ _ _ _ Vn Ex) as [W5 W6].
      exists x. apply weekend_rollover_id; assumption. }
  simpl. unfold in_gap, anchor_in_year. simpl.
  destruct (month cur <? month p0); [apply A; assumption | ].
  (destruct (month p0 <? month cur); simpl;
   [destruct (month cur <? month p1); simpl; [apply A; assumption | ] | ]);
  (destruct (month p1 <? month cur); simpl;
   [destruct (month cur <? month p2); simpl; [apply A; assumption | ] | ]);
  (destruct (month p2 <? month cur); simpl;
   [destruct (month cur <? month p3); simpl; [apply A; assumption | ] | ]);
  exact E.
Qed.

Lemma next_payment_date_january (fuel : nat) (cur : date) (c : list date) :
  valid cur = true -> regular_cycle c = true -> month cur = 1 ->
  exists d, next_payment_date (S fuel) cur c = Ret d.
Proof.
  intros V Hc Hm.
  destruct (regular_cycle_inv c Hc)
    as (p0 & p1 & p2 & p3 & -> & H0 & R0 & R1 & R2 & R3).
  pose proof V as V'. apply valid_spec in V'. destruct V' as (Vy & _).
  simpl. unfold anchor_in_year. simpl.
  replace (month cur <? month p0) with true
    by (symmetry; apply Z.ltb_lt; lia).
  destruct (regular_anchor_new_date (year cur) p0 Vy R0) as (x & Ex & Dx).
  rewrite Ex. simpl. apply new_date_inv in Ex. destruct Ex as [_ Vx].
  apply weekend_rollover_total; assumption.
Qed.

Lemma next_payment_date_total_aux (n : nat) :
  forall (cur : date) (c : list date),
  valid cur = true -> regular_cycle c = true -> year cur < 9999 ->
  12 - month cur < Z.of_nat n ->
  exists d, next_payment_date (S n) cur c = Ret d.
Proof.
  induction n as [ | n IH]; intros cur c V Hc Hy Hn.
  - apply valid_spec in V. lia.
  - apply next_payment_date_step; try assumption; [ | left; assumption].
    intros nxt En.
    destruct (add_month_spec _ _ V En) as (Vn & _ & [Hs | Hs] & _).
    + apply IH; try assumption; lia.
    + apply next_payment_date_january; try assumption. tauto.
Qed.

(** On a regular cycle the recursion of [next_payment_date] is at most
    thirteen calls deep. *)
Lemma next_payment_date_total (cur : date) (c : list date) :
  valid cur = true -> regular_cycle c = true -> year cur < 9999 ->
  exists d, next_payment_date 13 cur c = Ret d.
Proof.
  intros V Hc Hy. apply (next_payment_date_total_aux 12); try assumption.
  apply valid_spec in V. lia.
Qed.

End NextPaymentDateTotal.

(** ** Truncation and ceiling *)

Section Rounding.

Local Open Scope R_scope.

Lemma Int_part_IZR (n : Z) : Int_part (IZR n) = n.
Proof. symmetry. apply Int_part_spec. lra. Qed.

Lemma py_int_IZR (n : Z) : py_int (IZR n) = n.
Proof.
  unfold py_int. destruct (Rle_dec 0 (IZR n)).
  - apply Int_part_IZR.
  - rewrite <- opp_IZR, Int_part_IZR. lia.
Qed.

Lemma py_int_nonneg (x : R) : 0 <= x -> py_int x = Int_part x.
Proof.
  intros H. unfold py_int. destruct (Rle_dec 0 x); [reflexivity | lra].
Qed.

Lemma Int_part_le (x y : R) : x <= y -> (Int_part x <= Int_part y)%Z.
Proof.
  intros H. destruct (base_Int_part x) as [Hx1 Hx2].
  destruct (base_Int_part y) as [Hy1 Hy2].
  apply Z.lt_succ_r. apply lt_IZR. rewrite succ_IZR. lra.
Qed.

Lemma py_int_le (x y : R) : 0 <= x -> x <= y -> (py_int x <= py_int y)%Z.
Proof.
  intros H0 H. rewrite !py_int_nonneg by lra. apply Int_part_le. exact H.
Qed.

Lemma py_int_bounds (x : R) (n : Z) :
  0 <= x <= IZR n -> (0 <= py_int x <= n)%Z.
Proof.
  intros [H0 H1]. split.
  - rewrite <- (py_int_IZR 0). apply py_int_le; lra.
  - rewrite <- (py_int_IZR n). apply py_int_le; lra.
Qed.

Lemma py_ceil_pos (x : R) : 0 < x -> (1 <= py_ceil x)%Z.
Proof.
  intros H. unfold py_ceil. destruct (base_Int_part (- x)) as [H1 H2].
  assert (IZR (Int_part (- x)) < 0) by lra.
  apply lt_IZR in H0. lia.
Qed.

Lemma py_ceil_nonpos (x : R) : x <= 0 -> (py_ceil x <= 0)%Z.
Proof.
  intros H. unfold py_ceil. destruct (base_Int_part (- x)) as [H1 H2].
  assert (-1 < IZR (Int_part (- x))) by lra.
  apply lt_IZR in H0. lia.
Qed.

End Rounding.

(** ** Hazard curve *)

Section HazardFacts.

Local Open Scope R_scope.

Variable M : market.

Lemma skipn_cons_nth {A : Type} (l : list A) :
  forall (i : nat) (x : A) (rest : list A),
  skipn i l = x :: rest -> nth_error l i = Some x /\ skipn (S i) l = rest.
Proof.
  induction l as [ | y l IH]; intros i x rest H.
  - destruct i; discriminate.
  - destruct i as [ | i].
    + simpl in H. inversion H; subst. split; reflexivity.
    + simpl in H. apply IH in H. exact H.
Qed.

Lemma start_date_next (idx : nat) (mat_date : date) (rest : list date) :
  skipn idx (spread_maturity_dates M) = mat_date :: rest ->
  start_date M (S idx) = Ret mat_date
  /\ skipn (S idx) (spread_maturity_dates M) = rest.
Proof.
  intros H. apply skipn_cons_nth in H. destruct H as [H1 H2].
  split; [ | exact H2].
  unfold start_date, item. simpl. rewrite Nat.sub_0_r, H1. reflexivity.
Qed.

Lemma Q_h_loop_closed (end_ord : Z) (h_i : value) (prev_h : hmap) :
  forall (rest : list date) (idx : nat) (st : date) (h_t : R),
  skipn idx (spread_maturity_dates M) = rest ->
  start_date M idx = Ret st ->
  Q_h_loop M end_ord h_i prev_h idx rest h_t =
  (a <- solved_sum end_ord prev_h st rest ;;
   if all_before end_ord rest then Ret (h_t + a)
   else x <- mul_value h_i (final_delta end_ord st rest) ;;
        Ret (h_t + a + x)).
Proof.
  induction rest as [ | m rest IH]; intros idx st h_t Hs Hst.
  - simpl. f_equal. ring.
  - destruct (start_date_next idx m rest Hs) as [Hst' Hs'].
    simpl. rewrite Hst. simpl.
    destruct (toordinal m <? end_ord)%Z; simpl.
    + destruct (getitem prev_h m) as [v | e | ]; simpl; try reflexivity.
      destruct (mul_value v _) as [x | e | ]; simpl; try reflexivity.
      rewrite (IH (S idx) m (h_t + x) Hs' Hst').
      destruct (solved_sum end_ord prev_h m rest) as [y | e | ]; simpl;
        try reflexivity.
      destruct (all_before end_ord rest); simpl.
      * f_equal. ring.
      * destruct (mul_value h_i _) as [z | e | ]; simpl; try reflexivity.
        f_equal. ring.
    + destruct (mul_value h_i _) as [z | e | ]; simpl; try reflexivity.
      f_equal. ring.
Qed.

Lemma diff_loop_closed (end_ord : Z) :
  forall (rest : list date) (idx : nat) (st : date),
  skipn idx (spread_maturity_dates M) = rest ->
  start_date M idx = Ret st ->
  diff_loop M end_ord idx rest = Ret (final_delta end_ord st rest).
Proof.
  induction rest as [ | m rest IH]; intros idx st Hs Hst.
  - reflexivity.
  - destruct (start_date_next idx m rest Hs) as [Hst' Hs'].
    simpl. rewrite Z.leb_antisym.
    destruct (toordinal m <? end_ord)%Z; simpl.
    + apply IH; assumption.
    + rewrite Hst. reflexivity.
Qed.

Lemma final_delta_all_before (end_ord : Z) :
  forall (rest : list date) (st : date),
  all_before end_ord rest = true -> final_delta end_ord st rest = 0.
Proof.
  induction rest as [ | m rest IH]; intros st H; [reflexivity | ].
  simpl in H |- *. apply andb_true_iff in H. destruct H as [H1 H2].
  rewrite H1. apply IH. exact H2.
Qed.

(** [Q_h] at a float candidate rate, in closed form. *)
Lemma Q_h_closed (t h_i : R) (prev_h : hmap) :
  Q_h M t (VFloat h_i) prev_h =
  (end_ord <- plus_days (effective_date M) (py_int (t * 360)) ;;
   a <- solved_sum end_ord prev_h (effective_date M)
          (spread_maturity_dates M) ;;
   Ret (exp (- (a + h_i * final_delta end_ord (effective_date M)
                          (spread_maturity_dates M))))).
Proof.
  unfold Q_h.
  destruct (plus_days _ _) as [e | | ]; simpl; try reflexivity.
  rewrite (Q_h_loop_closed e (VFloat h_i) prev_h (spread_maturity_dates M)
             0 (effective_date M) 0 eq_refl eq_refl).
  destruct (solved_sum _ _ _ _) as [a | | ]; simpl; try reflexivity.
  destruct (all_before e (spread_maturity_dates M)) eqn:B; simpl.
  - rewrite (final_delta_all_before _ _ _ B). do 2 f_equal. ring.
  - do 2 f_equal. ring.
Qed.

Lemma plus_days_target (t : R) (e : Z) :
  plus_days (effective_date M) (py_int (t * 360)) = Ret e -> e = target M t.
Proof.
  unfold plus_days, target.
  destruct (_ && _); intros H; inversion H. reflexivity.
Qed.

(** [diff_Q_h] is [- Delta * Q_h]. *)
Lemma diff_Q_h_closed (t : R) (h_i : value) (prev_h : hmap) :
  diff_Q_h M t h_i prev_h =
  (q <- Q_h M t h_i prev_h ;; Ret (- Delta M t * q)).
Proof.
  unfold diff_Q_h.
  destruct (plus_days _ _) as [e | err | ] eqn:E; simpl.
  - rewrite (diff_loop_closed e (spread_maturity_dates M) 0
               (effective_date M) eq_refl eq_refl). simpl.
    apply plus_days_target in E. subst e. reflexivity.
  - unfold Q_h. rewrite E. reflexivity.
  - unfold Q_h. rewrite E. reflexivity.
Qed.

End HazardFacts.

Section SurvivalDerivative.

Local Open Scope R_scope.

Variable M : market.

Lemma derivable_pt_lim_ext (f g : R -> R) (x l : R) :
  (forall y, f y = g y) -> derivable_pt_lim f x l -> derivable_pt_lim g x l.
Proof.
  intros E H eps Heps. destruct (H eps Heps) as [delta Hd].
  exists delta. intros h Hh Hlt. rewrite <- !E. apply Hd; assumption.
Qed.

Lemma derivable_pt_lim_zero (x : R) : derivable_pt_lim (fun _ => 0) x 0.
Proof. apply (derivable_pt_lim_const 0 x). Qed.

(** Derivative of [x |-> exp (- (a + x * d))]. *)
Lemma derivable_pt_lim_exp_affine (a d x : R) :
  derivable_pt_lim (fun y => exp (- (a + y * d))) x
    (- d * exp (- (a + x * d))).
Proof.
  assert (L : derivable_pt_lim (fun y => - (a + y * d)) x (- (0 + 1 * d))).
  { apply (derivable_pt_lim_opp (fun y => a + y * d)).
    apply (derivable_pt_lim_plus (fun _ => a) (fun y => y * d)).
    - apply (derivable_pt_lim_const a x).
    - apply (derivable_pt_lim_scal_right (fun y => y) x 1 d).
      apply derivable_pt_lim_id. }
  pose proof (derivable_pt_lim_comp (fun y => - (a + y * d)) exp x
                (- (0 + 1 * d)) (exp (- (a + x * d))) L
                (derivable_pt_lim_exp _)) as C.
  replace (- d * exp (- (a + x * d)))
    with (exp (- (a + x * d)) * - (0 + 1 * d)) by ring.
  exact C.
Qed.

(** [survival_derivative] is the derivative of [survival] in the candidate
    rate, at every time and for every map. *)
Lemma survival_derivable (prev_h : hmap) (t h_i : R) :
  derivable_pt_lim (fun x => survival M x prev_h t) h_i
    (survival_derivative M h_i prev_h t).
Proof.
  unfold survival, survival_derivative.
  rewrite diff_Q_h_closed.
  destruct (plus_days (effective_date M) (py_int (t * 360)))
    as [e | err | ] eqn:E.
  - pose proof (plus_days_target M t e E) as Et.
    destruct (solved_sum e prev_h (effective_date M)
                (spread_maturity_dates M)) as [a | err | ] eqn:S.
    + apply derivable_pt_lim_ext
        with (f := fun x => exp (- (a + x * Delta M t))).
      * intros y. rewrite Q_h_closed, E. simpl. rewrite S. simpl.
        unfold Delta. rewrite <- Et. reflexivity.
      * rewrite Q_h_closed, E. simpl. rewrite S. simpl.
        unfold Delta. rewrite <- Et.
        apply derivable_pt_lim_exp_affine.
    + apply derivable_pt_lim_ext with (f := fun _ => 0).
      * intros y. rewrite Q_h_closed, E. simpl. rewrite S. reflexivity.
      * rewrite Q_h_closed, E. simpl. rewrite S. simpl.
        apply derivable_pt_lim_zero.
    + apply derivable_pt_lim_ext with (f := fun _ => 0).
      * intros y. rewrite Q_h_closed, E. simpl. rewrite S. reflexivity.
      * rewrite Q_h_closed, E. simpl. rewrite S. simpl.
        apply derivable_pt_lim_zero.
  - apply derivable_pt_lim_ext with (f := fun _ => 0).
    + intros y. rewrite Q_h_closed, E. reflexivity.
    + rewrite Q_h_closed, E. simpl. apply derivable_pt_lim_zero.
  - apply derivable_pt_lim_ext with (f := fun _ => 0).
    + intros y. rewrite Q_h_closed, E. reflexivity.
    + rewrite Q_h_closed, E. simpl. apply derivable_pt_lim_zero.
Qed.

Lemma last_cons {A : Type} (l : list A) :
  forall (x y : A), last (x :: l) y = last l x.
Proof.
  induction l as [ | z l IH]; intros x y; [reflexivity | ].
  change (last (x :: z :: l) y) with (last (z :: l) y).
  rewrite (IH z y), (IH z x). reflexivity.
Qed.

Lemma final_delta_stop (end_ord : Z) :
  forall (pre : list date) (st m : date) (post : list date),
  all_before end_ord pre = true -> (end_ord <= toordinal m)%Z ->
  final_delta end_ord st (pre ++ m :: post)
  = IZR (end_ord - toordinal (last pre st)) / 360.
Proof.
  induction pre as [ | p pre IH]; intros st m post B L.
  - simpl. apply Z.ltb_ge in L. rewrite L. reflexivity.
  - simpl in B. apply andb_true_iff in B. destruct B as [B1 B2].
    change ((p :: pre) ++ m :: post) with (p :: (pre ++ m :: post)).
    cbn [final_delta]. rewrite B1. rewrite (IH p m post B2 L).
    rewrite last_cons. reflexivity.
Qed.

End SurvivalDerivative.

(** Target dates on the notebook's market, [n] days after the effective
    date. *)
Lemma target_notebook (n : Z) :
  target notebook_market (IZR n / 360)%R = (735293 + n)%Z.
Proof.
  unfold target. replace (IZR n / 360 * 360)%R with (IZR n) by field.
  rewrite py_int_IZR. reflexivity.
Qed.

(** C5: [diff_Q_h(t, h_i, prev_h)] is [- Delta * Q_h(t, h_i, prev_h)], where
    [Delta] is the Actual/360 year fraction from the pillar date preceding
    the first pillar at or after the target date (the effective date when
    that pillar is the first) to the target date, and is zero when every
    pillar lies before the target date, so that only solved rates enter;
    and this value is the derivative of [Q_h] in the candidate rate. *)
Theorem diff_Q_h_is_derivative (M : market) (t h_i : R) (prev_h : hmap) :
  (0 <= t)%R ->
  diff_Q_h M t (VFloat h_i) prev_h
  = (q <- Q_h M t (VFloat h_i) prev_h ;; Ret (- Delta M t * q)%R)
  /\ (forall pre m post,
        spread_maturity_dates M = pre ++ m :: post ->
        all_before (target M t) pre = true ->
        (target M t <= toordinal m)%Z ->
        Delta M t
        = (IZR (target M t - toordinal (last pre (effective_date M)))
           / 360)%R)
  /\ (all_before (target M t) (spread_maturity_dates M) = true ->
      Delta M t = 0%R)
  /\ derivable_pt_lim (fun x => survival M x prev_h t) h_i
       (survival_derivative M h_i prev_h t)
  /\ survival_derivative M h_i prev_h t
     = (- Delta M t * survival M h_i prev_h t)%R.
Proof.
  intros _. split; [apply diff_Q_h_closed | ].
  split.
  { intros pre m post E B L. unfold Delta. rewrite E.
    apply final_delta_stop; assumption. }
  split; [apply final_delta_all_before | ].
  split; [apply survival_derivable | ].
  unfold survival_derivative, survival. rewrite diff_Q_h_closed.
  destruct (Q_h M t (VFloat h_i) prev_h); simpl; ring.
Qed.

Lemma diff_Q_h_is_derivative_witness :
  diff_Q_h notebook_market (IZR 180 / 360) (VFloat (1 / 100)) []
  = (q <- Q_h notebook_market (IZR 180 / 360) (VFloat (1 / 100)) [] ;;
     Ret (- Delta notebook_market (IZR 180 / 360) * q)%R)
  /\ Delta notebook_market (IZR 180 / 360)
     = (IZR (target notebook_market (IZR 180 / 360)
             - toordinal (effective_date notebook_market)) / 360)%R
  /\ Delta notebook_market (IZR 11000 / 360) = 0%R
  /\ derivable_pt_lim
       (fun x => survival notebook_market x [] (IZR 180 / 360)) (1 / 100)
       (survival_derivative notebook_market (1 / 100) [] (IZR 180 / 360)).
Proof.
  destruct (diff_Q_h_is_derivative notebook_market (IZR 180 / 360)
              (1 / 100) [] ltac:(lra)) as (H1 & H2 & _ & H4 & _).
  destruct (diff_Q_h_is_derivative notebook_market (IZR 11000 / 360)
              (1 / 100) [] ltac:(lra)) as (_ & _ & H3 & _).
  split; [exact H1 | ].
  split.
  - apply (H2 [] (mkdate 2014 9 22)
             (tl (spread_maturity_dates notebook_market))).
    + reflexivity.
    + reflexivity.
    + rewrite target_notebook. vm_compute. discriminate.
  - split; [ | exact H4].
    apply H3. rewrite target_notebook. reflexivity.
Defined.

Section SurvivalBounds.

Local Open Scope R_scope.

Variable M : market.

Lemma toordinal_range (d : date) :
  valid d = true -> (1 <= toordinal d <= MAXORDINAL)%Z.
Proof.
  intros V. pose proof (toordinal_in_year d V) as [H1 H2].
  apply valid_spec in V. destruct V as (Hy & _).
  pose proof (days_before_year_mono 1 (year d) ltac:(lia)) as L1.
  pose proof (days_before_year_succ (year d)) as S1.
  pose proof (days_before_year_mono (year d + 1) 10000 ltac:(lia)) as L2.
  change (days_before_year 1) with 0%Z in L1.
  change (days_before_year 10000) with 3652059%Z in L2.
  unfold MAXORDINAL. lia.
Qed.

Lemma plus_days_returns (d : date) (n : Z) :
  valid d = true -> (0 <= n)%Z -> (toordinal d + n <= MAXORDINAL)%Z ->
  plus_days d n = Ret (toordinal d + n)%Z.
Proof.
  intros V Hn Hmax. pose proof (toordinal_range d V) as [H1 _].
  unfold plus_days.
  replace (1 <=? toordinal d + n)%Z with true
    by (symmetry; apply Z.leb_le; lia).
  replace (toordinal d + n <=? MAXORDINAL)%Z with true
    by (symmetry; apply Z.leb_le; lia).
  reflexivity.
Qed.

Lemma solved_sum_returns (prev_h : hmap) (e o : Z) :
  (e <= o)%Z ->
  forall (rest : list date) (st : date),
  forallb (covered prev_h o) rest = true ->
  exists a, solved_sum e prev_h st rest = Ret a.
Proof.
  intros Le. induction rest as [ | m rest IH]; intros st C.
  - exists 0. reflexivity.
  - simpl in C. apply andb_true_iff in C. destruct C as [C1 C2].
    simpl. destruct (toordinal m <? e)%Z eqn:B; [ | exists 0; reflexivity].
    unfold covered in C1.
    replace (toordinal m <? o)%Z with true in C1
      by (symmetry; apply Z.ltb_lt; apply Z.ltb_lt in B; lia).
    destruct (getitem prev_h m) as [[ | x] | | ]; try discriminate.
    simpl. destruct (IH m C2) as [y Hy]. rewrite Hy. simpl.
    eexists; reflexivity.
Qed.

Lemma ascending_sorted_from (m : date) (l : list date) :
  ascending (toordinal m) l = true -> sorted_from m l = true.
Proof.
  destruct l as [ | m' l]; [reflexivity | ]. simpl.
  rewrite !andb_true_iff, Z.ltb_lt, Z.leb_le. intros [H1 H2].
  split; [lia | exact H2].
Qed.

Lemma solved_sum_nonneg (prev_h : hmap) (e : Z) :
  nonneg_rates prev_h ->
  forall (rest : list date) (st : date) (a : R),
  sorted_from st rest = true ->
  solved_sum e prev_h st rest = Ret a -> 0 <= a.
Proof.
  intros N. induction rest as [ | m rest IH]; intros st a S H.
  - inversion H. lra.
  - simpl in S. apply andb_true_iff in S. destruct S as [S1 S2].
    apply Z.leb_le in S1. simpl in H.
    destruct (toordinal m <? e)%Z; [ | inversion H; lra].
    inv_bind H. rename a0 into v. inv_bind H. rename a0 into x.
    inv_bind H. rename a0 into y. inversion H; subst a.
    destruct v as [ | r]; [discriminate | ]. simpl in Ha0.
    inversion Ha0; subst x.
    pose proof (N m r Ha) as Hr.
    pose proof (IH m y (ascending_sorted_from m rest S2) Ha1) as Hy.
    assert (0 <= IZR (toordinal m - toordinal st)) by (apply IZR_le; lia).
    assert (0 <= r * (IZR (toordinal m - toordinal st) / 360)).
    { apply Rmult_le_pos; [exact Hr | lra]. }
    lra.
Qed.

Lemma final_delta_nonneg (e : Z) :
  forall (rest : list date) (st : date),
  (toordinal st <= e)%Z -> 0 <= final_delta e st rest.
Proof.
  induction rest as [ | m rest IH]; intros st L; simpl; [lra | ].
  destruct (toordinal m <? e)%Z eqn:B.
  - apply IH. apply Z.ltb_lt in B. lia.
  - assert (0 <= IZR (e - toordinal st)) by (apply IZR_le; lia). lra.
Qed.

Lemma apart_same_test (e1 e2 : Z) (p : date) :
  (e1 <= e2)%Z -> apart e1 e2 p = true ->
  (toordinal p <? e1)%Z = (toordinal p <? e2)%Z.
Proof.
  intros L A. unfold apart in A. apply orb_true_iff in A.
  destruct A as [A | A].
  - apply negb_true_iff, Z.leb_gt in A.
    transitivity true; [ | symmetry]; apply Z.ltb_lt; lia.
  - apply Z.leb_le in A.
    transitivity false; [ | symmetry]; apply Z.ltb_ge; lia.
Qed.

Lemma solved_sum_same_interval (prev_h : hmap) (e1 e2 : Z) :
  (e1 <= e2)%Z ->
  forall (rest : list date) (st : date),
  forallb (apart e1 e2) rest = true ->
  solved_sum e1 prev_h st rest = solved_sum e2 prev_h st rest.
Proof.
  intros L. induction rest as [ | m rest IH]; intros st A; [reflexivity | ].
  simpl in A. apply andb_true_iff in A. destruct A as [A1 A2].
  simpl. rewrite (apart_same_test e1 e2 m L A1).
  destruct (toordinal m <? e2)%Z; [ | reflexivity].
  rewrite (IH m A2). reflexivity.
Qed.

Lemma final_delta_same_interval (e1 e2 : Z) :
  (e1 <= e2)%Z ->
  forall (rest : list date) (st : date),
  forallb (apart e1 e2) rest = true ->
  final_delta e1 st rest <= final_delta e2 st rest.
Proof.
  intros L. induction rest as [ | m rest IH]; intros st A; simpl; [lra | ].
  simpl in A. apply andb_true_iff in A. destruct A as [A1 A2].
  rewrite (apart_same_test e1 e2 m L A1).
  destruct (toordinal m <? e2)%Z; [apply IH; exact A2 | ].
  assert (IZR (e1 - toordinal st) <= IZR (e2 - toordinal st))
    by (apply IZR_le; lia).
  lra.
Qed.

Lemma target_mono (t1 t2 : R) :
  0 <= t1 <= t2 ->
  (toordinal (effective_date M) <= target M t1 <= target M t2)%Z.
Proof.
  intros [H0 H]. unfold target.
  pose proof (py_int_le (t1 * 360) (t2 * 360) ltac:(lra) ltac:(lra)).
  pose proof (py_int_le 0 (t1 * 360) ltac:(lra) ltac:(lra)) as P.
  replace 0 with (IZR 0) in P at 1 by reflexivity.
  rewrite py_int_IZR in P. lia.
Qed.

Lemma covers_le (prev_h : hmap) (o : Z) :
  covers M prev_h o = forallb (covered prev_h o) (spread_maturity_dates M).
Proof. reflexivity. Qed.

(** Value of [Q_h] when the target date is in range and the map covers the
    pillars before it. *)
Lemma Q_h_returns (prev_h : hmap) (h_i t : R) (o : Z) :
  valid (effective_date M) = true -> 0 <= t ->
  (target M t <= o)%Z -> (target M t <= MAXORDINAL)%Z ->
  covers M prev_h o = true ->
  exists a,
    solved_sum (target M t) prev_h (effective_date M)
      (spread_maturity_dates M) = Ret a
    /\ Q_h M t (VFloat h_i) prev_h
       = Ret (exp (- (a + h_i * Delta M t))).
Proof.
  intros V Ht Lo Lmax C.
  pose proof (target_mono t t ltac:(lra)) as [T0 _].
  rewrite covers_le in C.
  destruct (solved_sum_returns prev_h (target M t) o Lo
              (spread_maturity_dates M) (effective_date M) C) as [a Ha].
  exists a. split; [exact Ha | ].
  rewrite Q_h_closed.
  rewrite plus_days_returns; try assumption; [ | unfold target in *; lia].
  simpl. fold (target M t). rewrite Ha. reflexivity.
Qed.

End SurvivalBounds.

Section SurvivalClaims.

Local Open Scope R_scope.

(** C7 (amended): in exact arithmetic, with a valid effective date, pillar
    dates strictly increasing from the effective date on, non-negative
    solved rates, a non-negative candidate rate, a target date in the
    calendar's range whose earlier pillars all have a rate in the map, and
    integrated hazards of at most 700, so that the exponential does not
    underflow in double precision, [Q_h] returns the exponential of minus
    the integrated hazard, a value between [exp(-700)] and 1, hence in
    (0, 1]; and [Q_h(t2) <= Q_h(t1)] for [0 <= t1 <= t2] whenever no pillar
    date separates the two target dates. *)
Theorem Q_h_bounds_and_interval_monotone (M : market) (prev_h : hmap)
  (h_i t1 t2 : R) :
  valid (effective_date M) = true ->
  chronological M = true ->
  nonneg_rates prev_h ->
  0 <= h_i ->
  0 <= t1 <= t2 ->
  (target M t2 <= MAXORDINAL)%Z ->
  covers M prev_h (target M t2) = true ->
  integrated_hazard M h_i prev_h t1 <= 700 ->
  integrated_hazard M h_i prev_h t2 <= 700 ->
  exists q1 q2,
    Q_h M t1 (VFloat h_i) prev_h = Ret q1
    /\ Q_h M t2 (VFloat h_i) prev_h = Ret q2
    /\ q1 = exp (- integrated_hazard M h_i prev_h t1)
    /\ q2 = exp (- integrated_hazard M h_i prev_h t2)
    /\ 0 < exp (- (700))
    /\ exp (- (700)) <= q1 <= 1 /\ exp (- (700)) <= q2 <= 1
    /\ (no_pillar_between M (target M t1) (target M t2) = true -> q2 <= q1).
Proof.
  intros V S N Hh Ht Hmax C U1 U2.
  destruct (target_mono M t1 t2 Ht) as [T0 T12].
  destruct (Q_h_returns M prev_h h_i t1 (target M t2) V ltac:(lra) T12
              ltac:(lia) C) as (a1 & S1 & E1).
  destruct (Q_h_returns M prev_h h_i t2 (target M t2) V ltac:(lra)
              ltac:(lia) Hmax C) as (a2 & S2 & E2).
  unfold integrated_hazard in *. rewrite S1 in *. rewrite S2 in *.
  cbn [value_of] in *.
  exists (exp (- (a1 + h_i * Delta M t1))), (exp (- (a2 + h_i * Delta M t2))).
  split; [exact E1 | ]. split; [exact E2 | ].
  split; [reflexivity | ]. split; [reflexivity | ].
  split; [apply exp_pos | ].
  assert (A1 : 0 <= a1) by (eapply solved_sum_nonneg; eauto).
  assert (A2 : 0 <= a2) by (eapply solved_sum_nonneg; eauto).
  assert (D1 : 0 <= Delta M t1) by (apply final_delta_nonneg; exact T0).
  assert (D2 : 0 <= Delta M t2) by (apply final_delta_nonneg; lia).
  assert (P1 : 0 <= h_i * Delta M t1) by (apply Rmult_le_pos; assumption).
  assert (P2 : 0 <= h_i * Delta M t2) by (apply Rmult_le_pos; assumption).
  assert (X : forall x y, x <= y -> exp (- y) <= exp (- x)).
  { intros x y H. destruct (Req_dec x y) as [-> | Ne]; [lra | ].
    left. apply exp_increasing. lra. }
  assert (B : forall x, 0 <= x <= 700 -> exp (- (700)) <= exp (- x) <= 1).
  { intros x Hx. split; [apply X; lra | ].
    apply Rle_trans with (exp (- 0)); [apply X; lra | ].
    rewrite Ropp_0, exp_0. lra. }
  split; [apply B; lra | ]. split; [apply B; lra | ].
  intros Hsame. unfold no_pillar_between in Hsame.
  rewrite (solved_sum_same_interval prev_h _ _ T12 _ _ Hsame) in S1.
  rewrite S1 in S2. inversion S2; subst a2.
  pose proof (final_delta_same_interval _ _ T12
                (spread_maturity_dates M) (effective_date M) Hsame) as Dle.
  fold (Delta M t1) in Dle. fold (Delta M t2) in Dle.
  assert (h_i * Delta M t1 <= h_i * Delta M t2)
    by (apply Rmult_le_compat_l; assumption).
  apply X. lra.
Qed.

Lemma Q_h_bounds_and_interval_monotone_witness :
  exists q1 q2,
    Q_h notebook_market (IZR 90 / 360) (VFloat (1 / 100)) [] = Ret q1
    /\ Q_h notebook_market (IZR 180 / 360) (VFloat (1 / 100)) [] = Ret q2
    /\ exp (- (700)) <= q1 <= 1 /\ exp (- (700)) <= q2 <= 1 /\ q2 <= q1.
Proof.
  assert (H : forall n, (0 <= n <= 205)%Z ->
            integrated_hazard notebook_market (1 / 100) [] (IZR n / 360)
            = 1 / 100 * (IZR n / 360)).
  { intros n Hn. unfold integrated_hazard, Delta.
    rewrite target_notebook.
    cbn [notebook_market spread_maturity_dates effective_date solved_sum
         final_delta].
    change (toordinal (mkdate 2014 9 22)) with 735498%Z.
    change (toordinal (mkdate 2014 3 1)) with 735293%Z.
    replace (735498 <? 735293 + n)%Z with false
      by (symmetry; apply Z.ltb_ge; lia).
    cbn [value_of].
    replace (735293 + n - 735293)%Z with n by lia. lra. }
  destruct (Q_h_bounds_and_interval_monotone notebook_market []
              (1 / 100) (IZR 90 / 360) (IZR 180 / 360))
    as (q1 & q2 & E1 & E2 & _ & _ & _ & B1 & B2 & L).
  - reflexivity.
  - reflexivity.
  - intros p x H0. discriminate H0.
  - lra.
  - lra.
  - rewrite target_notebook. unfold MAXORDINAL. lia.
  - rewrite target_notebook. reflexivity.
  - rewrite (H 90%Z) by lia. lra.
  - rewrite (H 180%Z) by lia. lra.
  - exists q1, q2. repeat split; try tauto.
    apply L. rewrite !target_notebook. reflexivity.
Defined.

(** C7, as stated, fails: with the first pillar solved at rate 0.01 and the
    candidate rate 1, [Q_h] one day after the first pillar is larger than
    [Q_h] at the first pillar. *)
Lemma Q_h_not_monotone_across_pillar :
  let prev_h := [(mkdate 2014 9 22, VFloat (1 / 100))] in
  exists q1 q2,
    Q_h notebook_market (205 / 360) (VFloat 1) prev_h = Ret q1
    /\ Q_h notebook_market (206 / 360) (VFloat 1) prev_h = Ret q2
    /\ 0 <= 205 / 360 <= 206 / 360
    /\ q1 < q2.
Proof.
  intros prev_h.
  exists (exp (- (205 / 360))), (exp (- (1 / 100 * (205 / 360) + 1 / 360))).
  split; [ | split; [ | split; [lra | apply exp_increasing; lra]]].
  - rewrite Q_h_closed.
    replace (205 / 360 * 360) with (IZR 205) by lra.
    rewrite py_int_IZR. cbn. do 2 f_equal. lra.
  - rewrite Q_h_closed.
    replace (206 / 360 * 360) with (IZR 206) by lra.
    rewrite py_int_IZR. cbn. do 2 f_equal. lra.
Qed.

Lemma solved_sum_beyond (prev_h : hmap) (e1 e2 : Z) :
  forall (rest : list date) (st : date),
  all_before e1 rest = true -> all_before e2 rest = true ->
  solved_sum e1 prev_h st rest = solved_sum e2 prev_h st rest.
Proof.
  induction rest as [ | m rest IH]; intros st B1 B2; [reflexivity | ].
  simpl in B1, B2. apply andb_true_iff in B1. apply andb_true_iff in B2.
  destruct B1 as [B1 B1']. destruct B2 as [B2 B2'].
  simpl. rewrite B1, B2. rewrite (IH m B1' B2'). reflexivity.
Qed.

Lemma Q_loop_beyond (M : market) (h_values : hmap) (dat : date) (t : R) :
  forall rest : list date,
  forallb (fun p => date_ltb p dat) rest = true ->
  Q_loop M h_values dat t rest
  = (h <- last_value h_values ;; Q_h M t h h_values).
Proof.
  induction rest as [ | m rest IH]; intros B; [reflexivity | ].
  simpl in B. apply andb_true_iff in B. destruct B as [B1 B2].
  simpl. unfold date_leb. rewrite B1. simpl. apply IH. exact B2.
Qed.

(** Beyond the last pillar the query adds no hazard after the last pillar:
    the candidate rate it passes to [Q_h] is not used. *)
Lemma Q_beyond_last_pillar (M : market) (h_values : hmap) (dat : date) :
  valid (effective_date M) = true -> valid dat = true ->
  forallb valid (spread_maturity_dates M) = true ->
  date_ltb dat (effective_date M) = false ->
  forallb (fun p => date_ltb p dat) (spread_maturity_dates M) = true ->
  Q M h_values dat
  = (h <- last_value h_values ;;
     a <- solved_sum (toordinal dat) h_values (effective_date M)
            (spread_maturity_dates M) ;;
     Ret (exp (- (0 + a)))).
Proof.
  intros Ve Vd Vp Hge Hb. unfold Q. rewrite Hge.
  rewrite Q_loop_beyond by exact Hb.
  destruct (last_value h_values) as [h | | ]; simpl; try reflexivity.
  unfold Q_h, days_between.
  replace (IZR (toordinal dat - toordinal (effective_date M)) / 360 * 360)
    with (IZR (toordinal dat - toordinal (effective_date M))) by field.
  rewrite py_int_IZR. unfold plus_days.
  replace (toordinal (effective_date M)
           + (toordinal dat - toordinal (effective_date M)))%Z
    with (toordinal dat) by lia.
  pose proof (toordinal_range dat Vd) as [R1 R2].
  replace (1 <=? toordinal dat)%Z with true by (symmetry; apply Z.leb_le; lia).
  replace (toordinal dat <=? MAXORDINAL)%Z with true
    by (symmetry; apply Z.leb_le; lia).
  simpl.
  rewrite (Q_h_loop_closed M (toordinal dat) h h_values
             (spread_maturity_dates M) 0 (effective_date M) 0 eq_refl eq_refl).
  destruct (solved_sum _ _ _ _) as [a | | ]; simpl; try reflexivity.
  replace (all_before (toordinal dat) (spread_maturity_dates M)) with true;
    [reflexivity | ].
  symmetry. unfold all_before.
  rewrite forallb_forall in *. intros p Hp.
  apply Z.ltb_lt. apply date_ltb_toordinal; auto.
Qed.

(** C3: the code keeps the survival probability constant beyond the last
    pillar.  With every pillar of the notebook at the rate 0.02, the query at
    the last pillar (2044-03-21), at 2045-01-01 and at 2050-01-01 gives the
    same value, the survival probability at the last pillar; a flat
    extrapolation of the terminal rate would make it decrease. *)
Theorem Q_constant_beyond_last_pillar :
  Q notebook_market (flat_map_of (2 / 100)) (mkdate 2044 3 21)
  = Ret (exp (- (2 / 100 * (10978 / 360))))
  /\ Q notebook_market (flat_map_of (2 / 100)) (mkdate 2045 1 1)
     = Ret (exp (- (2 / 100 * (10978 / 360))))
  /\ Q notebook_market (flat_map_of (2 / 100)) (mkdate 2050 1 1)
     = Ret (exp (- (2 / 100 * (10978 / 360))))
  /\ forall h_values : hmap,
       Q notebook_market h_values (mkdate 2045 1 1)
       = Q notebook_market h_values (mkdate 2050 1 1).
Proof.
  split; [ | split; [ | split]].
  - unfold Q. cbn [date_ltb notebook_market effective_date year month day].
    cbn. rewrite Q_h_closed.
    replace (10978 / 360 * 360) with (IZR 10978) by lra.
    rewrite py_int_IZR. cbn. do 2 f_equal. lra.
  - rewrite Q_beyond_last_pillar by reflexivity. cbn. do 2 f_equal. lra.
  - rewrite Q_beyond_last_pillar by reflexivity. cbn. do 2 f_equal. lra.
  - intros h_values. rewrite !Q_beyond_last_pillar by reflexivity.
    rewrite (solved_sum_beyond h_values (toordinal (mkdate 2045 1 1))
               (toordinal (mkdate 2050 1 1))) by reflexivity.
    reflexivity.
Qed.

(** C10: for a date strictly before the effective date the query returns 0,
    which is not in (0, 1]. *)
Theorem Q_before_effective_date (M : market) (h_values : hmap) (dat : date) :
  date_ltb dat (effective_date M) = true ->
  Q M h_values dat = Ret 0 /\ ~ (0 < 0 <= 1).
Proof.
  intros H. unfold Q. rewrite H. split; [reflexivity | lra].
Qed.

Lemma Q_before_effective_date_witness :
  Q notebook_market [] contract_date = Ret 0 /\ ~ (0 < 0 <= 1).
Proof.
  apply (Q_before_effective_date notebook_market [] contract_date).
  reflexivity.
Defined.

End SurvivalClaims.

(** ** Valuation engine *)

Section LegsStructure.

Local Open Scope R_scope.

Variable M : market.

Lemma protection_loop_legs (h_i : R) (prev_h : hmap) (T : R) :
  forall (ks : list Z) (b : R),
  protection_loop M h_i prev_h T ks b
  = legs_protection (fun t => Q_h M t (VFloat h_i) prev_h) T ks b.
Proof.
  induction ks as [ | k ks IH]; intros b; [reflexivity | ].
  simpl. destruct (s k T); simpl; try reflexivity.
  destruct (s (k + 1) T); simpl; try reflexivity.
  destruct (Q_h M a _ _); simpl; try reflexivity.
  destruct (Q_h M a0 _ _); simpl; try reflexivity.
  apply IH.
Qed.

Lemma d_protection_loop_legs (h_i : R) (prev_h : hmap) (T : R) :
  forall (ks : list Z) (b : R),
  d_protection_loop M h_i prev_h T ks b
  = legs_protection (fun t => diff_Q_h M t (VFloat h_i) prev_h) T ks b.
Proof.
  induction ks as [ | k ks IH]; intros b; [reflexivity | ].
  simpl. destruct (s k T); simpl; try reflexivity.
  destruct (s (k + 1) T); simpl; try reflexivity.
  destruct (diff_Q_h M a _ _); simpl; try reflexivity.
  destruct (diff_Q_h M a0 _ _); simpl; try reflexivity.
  apply IH.
Qed.

Lemma premium_loop_legs (h_i : R) (m : date) (prev_h : hmap)
  (c : list date) :
  forall (fuel : nat) (cur nxt : date) (d : R),
  premium_loop M fuel h_i m prev_h c cur nxt d
  = legs_premium M (fun t => Q_h M t (VFloat h_i) prev_h) fuel m c cur nxt d.
Proof.
  induction fuel as [ | fuel IH]; intros cur nxt d; [reflexivity | ].
  cbn [premium_loop legs_premium].
  destruct (date_leb nxt m); [ | reflexivity].
  unfold year_fraction.
  destruct (Q_h M (IZR (days_between cur (effective_date M)) / 360) _ _);
    cbn [bind]; try reflexivity.
  destruct (Q_h M (IZR (days_between nxt (effective_date M)) / 360) _ _);
    cbn [bind]; try reflexivity.
  destruct (next_payment_date (S fuel) nxt c); cbn [bind]; try reflexivity.
  apply IH.
Qed.

Lemma d_premium_loop_legs (h_i : R) (m : date) (prev_h : hmap)
  (c : list date) :
  forall (fuel : nat) (cur nxt : date) (d : R),
  d_premium_loop M fuel h_i m prev_h c cur nxt d
  = legs_premium M (fun t => diff_Q_h M t (VFloat h_i) prev_h) fuel m c
      cur nxt d.
Proof.
  induction fuel as [ | fuel IH]; intros cur nxt d; [reflexivity | ].
  cbn [d_premium_loop legs_premium].
  destruct (date_leb nxt m); [ | reflexivity].
  unfold year_fraction.
  destruct (diff_Q_h M (IZR (days_between cur (effective_date M)) / 360) _ _);
    cbn [bind]; try reflexivity.
  destruct (diff_Q_h M (IZR (days_between nxt (effective_date M)) / 360) _ _);
    cbn [bind]; try reflexivity.
  destruct (next_payment_date (S fuel) nxt c); cbn [bind]; try reflexivity.
  apply IH.
Qed.

(** [standard_cds_mtm_value] is the evaluator of the two legs at the survival
    term [Q_h]. *)
Lemma standard_cds_mtm_value_legs_value (fuel : nat) (h_i : R) (m : date)
  (prev_h : hmap) (c : list date) (rec : R) :
  standard_cds_mtm_value M fuel h_i m prev_h c rec
  = legs_value M (fun t => Q_h M t (VFloat h_i) prev_h) fuel m c rec.
Proof.
  unfold standard_cds_mtm_value, legs_value, year_fraction.
  rewrite protection_loop_legs.
  destruct (legs_protection _ _ _ _); simpl; try reflexivity.
  destruct (index_from _ _ _); simpl; try reflexivity.
  destruct (item _ _); simpl; try reflexivity.
  destruct (next_payment_date _ _ _); simpl; try reflexivity.
  rewrite premium_loop_legs. reflexivity.
Qed.

(** [d_standard_cds_mtm_value] is the same evaluator at the survival term
    [diff_Q_h]. *)
Lemma d_standard_cds_mtm_value_legs_value (fuel : nat) (h_i : R) (m : date)
  (prev_h : hmap) (c : list date) (rec : R) :
  d_standard_cds_mtm_value M fuel h_i m prev_h c rec
  = legs_value M (fun t => diff_Q_h M t (VFloat h_i) prev_h) fuel m c rec.
Proof.
  unfold d_standard_cds_mtm_value, legs_value, year_fraction.
  rewrite d_protection_loop_legs.
  destruct (legs_protection _ _ _ _); simpl; try reflexivity.
  destruct (index_from _ _ _); simpl; try reflexivity.
  destruct (item _ _); simpl; try reflexivity.
  destruct (next_payment_date _ _ _); simpl; try reflexivity.
  rewrite d_premium_loop_legs. reflexivity.
Qed.

End LegsStructure.

Section LegsSums.

Local Open Scope R_scope.

Variable M : market.

Lemma range_In (n k : Z) : In k (range n) -> (0 <= k < n)%Z.
Proof.
  unfold range. rewrite in_map_iff. intros (j & E & H).
  apply in_seq in H. lia.
Qed.

Lemma range_nonpos (n : Z) : (n <= 0)%Z -> range n = [].
Proof.
  intros H. unfold range. replace (Z.to_nat n) with 0%nat by lia. reflexivity.
Qed.

Lemma subinterval_bounds (k n : Z) (T : R) :
  0 < T -> (0 <= k <= n)%Z -> (1 <= n)%Z ->
  0 <= IZR k * T / IZR n <= T.
Proof.
  intros HT Hk Hn.
  assert (0 < IZR n) by (apply IZR_lt; lia).
  assert (0 <= IZR k) by (apply IZR_le; lia).
  assert (IZR k <= IZR n) by (apply IZR_le; lia).
  split.
  - apply Rmult_le_pos; [apply Rmult_le_pos; lra | ].
    left. apply Rinv_0_lt_compat. assumption.
  - apply Rmult_le_reg_r with (IZR n); [assumption | ].
    unfold Rdiv. rewrite Rmult_assoc, Rinv_l by lra. nra.
Qed.



Lemma date_leb_year (a b : date) : date_leb a b = true -> (year a <= year b)%Z.
Proof.
  unfold date_leb, date_ltb. rewrite negb_true_iff. intros H.
  apply orb_false_iff in H. destruct H as [H _]. apply Z.ltb_ge in H. exact H.
Qed.

Lemma next_pay_spec (c : list date) (cur : date) :
  valid cur = true -> regular_cycle c = true -> (year cur < 9999)%Z ->
  next_payment_date 13 cur c = Ret (next_pay c cur)
  /\ valid (next_pay c cur) = true
  /\ (toordinal cur < toordinal (next_pay c cur))%Z.
Proof.
  intros V Hc Hy. destruct (next_payment_date_total cur c V Hc Hy) as [d Hd].
  unfold next_pay. rewrite Hd. split; [reflexivity | ].
  apply (next_payment_date_later 13 cur c d V Hd).
Qed.



End LegsSums.

Section ValuationClaims.

Local Open Scope R_scope.



End ValuationClaims.

Section ValuationDerivative.

Local Open Scope R_scope.

Example coupon_periods_first_pillar :
  coupon_periods (horizon notebook_market (mkdate 2014 9 22))
    standard_cds_payment_dates (mkdate 2014 9 22)
    (effective_date notebook_market)
  = [(mkdate 2014 3 1, mkdate 2014 3 20);
     (mkdate 2014 3 20, mkdate 2014 6 20);
     (mkdate 2014 6 20, mkdate 2014 9 22)].
Proof. vm_compute. reflexivity. Qed.






End ValuationDerivative.

Section Termination.

Local Open Scope Z_scope.

Lemma getitem_not_fuel (m : hmap) (k : date) : getitem m k <> OutOfFuel.
Proof.
  induction m as [ | [k' v] m IH]; simpl; [discriminate | ].
  destruct (date_eqb k' k); [discriminate | exact IH].
Qed.

Lemma solved_sum_not_fuel (e : Z) (prev_h : hmap) :
  forall (rest : list date) (st : date),
  solved_sum e prev_h st rest <> OutOfFuel.
Proof.
  induction rest as [ | m rest IH]; intros st; simpl; [discriminate | ].
  destruct (toordinal m <? e); [ | discriminate].
  pose proof (getitem_not_fuel prev_h m).
  destruct (getitem prev_h m) as [[ | x] | | ]; simpl;
    try discriminate; try contradiction.
  pose proof (IH m).
  destruct (solved_sum e prev_h m rest); simpl;
    try discriminate; try contradiction.
Qed.

Lemma Q_h_not_fuel (M : market) (t h_i : R) (prev_h : hmap) :
  Q_h M t (VFloat h_i) prev_h <> OutOfFuel.
Proof.
  rewrite Q_h_closed. unfold plus_days.
  destruct (_ && _); simpl; [ | discriminate].
  pose proof (solved_sum_not_fuel
                (toordinal (effective_date M) + py_int (t * 360)) prev_h
                (spread_maturity_dates M) (effective_date M)).
  destruct (solved_sum _ _ _ _); simpl; try discriminate; try contradiction.
Qed.

Lemma legs_protection_not_fuel (surv : R -> res R) (T : R) :
  (forall x, surv x <> OutOfFuel) ->
  forall (ks : list Z) (b : R), legs_protection surv T ks b <> OutOfFuel.
Proof.
  intros Hs. induction ks as [ | k ks IH]; intros b; simpl; [discriminate | ].
  unfold s. destruct (K T =? 0); simpl; [discriminate | ].
  pose proof (Hs (IZR k * T / IZR (K T))%R).
  destruct (surv (IZR k * T / IZR (K T))%R); simpl;
    try discriminate; try contradiction.
  pose proof (Hs (IZR (k + 1) * T / IZR (K T))%R).
  destruct (surv (IZR (k + 1) * T / IZR (K T))%R); simpl;
    try discriminate; try contradiction.
  apply IH.
Qed.

Lemma legs_premium_not_fuel (M : market) (surv : R -> res R) (m : date)
  (c : list date) :
  valid m = true -> year m < 9999 -> regular_cycle c = true ->
  (forall x, surv x <> OutOfFuel) ->
  forall (n fuel : nat) (cur : date) (d : R),
  (13 + n <= fuel)%nat -> valid cur = true -> year cur < 9999 ->
  toordinal m - toordinal cur <= Z.of_nat n ->
  legs_premium M surv fuel m c cur (next_pay c cur) d <> OutOfFuel.
Proof.
  intros Vm Hym Hc Hs.
  induction n as [ | n IH]; intros fuel cur d Hf Vc Hyc Hn;
    destruct (next_pay_spec c cur Vc Hc Hyc) as (En & Vn & Ln);
    (destruct fuel as [ | fuel]; [lia | ]); cbn [legs_premium];
    destruct (date_leb (next_pay c cur) m) eqn:L; try discriminate.
  - apply date_leb_iff in L; try assumption. lia.
  - pose proof (date_leb_year _ _ L) as Ly.
    apply date_leb_iff in L; try assumption.
    pose proof (Hs (year_fraction M cur)).
    destruct (surv (year_fraction M cur)); cbn [bind];
      try discriminate; try contradiction.
    pose proof (Hs (year_fraction M (next_pay c cur))).
    destruct (surv (year_fraction M (next_pay c cur))); cbn [bind];
      try discriminate; try contradiction.
    destruct (next_pay_spec c (next_pay c cur) Vn Hc ltac:(lia))
      as (En' & Vn' & Ln').
    rewrite (next_payment_date_fuel_mono 13 _ _ _ En' (S fuel)) by lia.
    cbn [bind]. apply IH; try assumption; lia.
Qed.

Lemma legs_value_not_fuel (M : market) (surv : R -> res R) (fuel : nat)
  (m : date) (c : list date) (rec : R) :
  valid (effective_date M) = true -> valid m = true ->
  year (effective_date M) < 9999 -> year m < 9999 ->
  regular_cycle c = true ->
  (forall x, surv x <> OutOfFuel) ->
  (13 + horizon M m <= fuel)%nat ->
  legs_value M surv fuel m c rec <> OutOfFuel.
Proof.
  intros Ve Vm Hye Hym Hc Hs Hf. unfold legs_value.
  pose proof (legs_protection_not_fuel surv (year_fraction M m) Hs
                (range (K (year_fraction M m))) 0%R).
  destruct (legs_protection _ _ _ _); cbn [bind];
    try discriminate; try contradiction.
  destruct (index_from _ _ _) eqn:I; cbn [bind]; try discriminate.
  { destruct (item _ _) eqn:J; cbn [bind]; try discriminate.
    - destruct (next_pay_spec c (effective_date M) Ve Hc Hye)
        as (En & Vn & Ln).
      rewrite (next_payment_date_fuel_mono 13 _ _ _ En fuel) by lia.
      cbn [bind].
      pose proof (legs_premium_not_fuel M surv m c Vm Hym Hc Hs
                    (horizon M m) fuel (effective_date M) 0%R Hf Ve Hye) as P.
      destruct (legs_premium _ _ _ _ _ _ _ _); cbn [bind];
        try discriminate.
      apply P. unfold horizon, days_between. lia.
    - unfold item in J. destruct (nth_error _ _); discriminate. }
  exfalso. revert I. generalize 0%nat.
  induction (spread_maturity_dates M) as [ | y l IH]; intros k; simpl;
    [discriminate | ].
  destruct (date_eqb y m); [discriminate | apply IH].
Qed.

(** C9 (amended): on a cycle of four anchors whose first anchor month is
    after January and whose anchor days are at most 28, and for a valid input
    date before year 9999, [next_payment_date] returns, by a recursion at
    most thirteen calls deep, a valid date strictly later than its input; and
    for effective and maturity dates before year 9999 the premium-leg loop of
    [standard_cds_mtm_value] stops within as many iterations as there are
    days from the effective date to the maturity date. *)
Theorem next_payment_date_later_and_loop_terminates (M : market)
  (payment_dates : list date) :
  regular_cycle payment_dates = true ->
  (forall current_date,
     valid current_date = true -> year current_date < 9999 ->
     exists d,
       next_payment_date 13 current_date payment_dates = Ret d
       /\ valid d = true /\ date_ltb current_date d = true)
  /\ (forall fuel h_i maturity_date prev_h rec,
        valid (effective_date M) = true -> valid maturity_date = true ->
        year (effective_date M) < 9999 -> year maturity_date < 9999 ->
        (13 + horizon M maturity_date <= fuel)%nat ->
        standard_cds_mtm_value M fuel h_i maturity_date prev_h payment_dates
          rec <> OutOfFuel).
Proof.
  intros Hc. split.
  - intros cur V Hy.
    destruct (next_payment_date_total cur payment_dates V Hc Hy) as [d Hd].
    destruct (next_payment_date_later 13 cur payment_dates d V Hd) as [Vd L].
    exists d. split; [exact Hd | ]. split; [exact Vd | ].
    apply date_ltb_iff; assumption.
  - intros fuel h_i m prev_h rec Ve Vm Hye Hym Hf.
    rewrite standard_cds_mtm_value_legs_value.
    apply legs_value_not_fuel; try assumption.
    intros x. apply Q_h_not_fuel.
Qed.

Lemma next_payment_date_later_and_loop_terminates_witness :
  (exists d,
     next_payment_date 13 (mkdate 2014 9 22) standard_cds_payment_dates
     = Ret d
     /\ valid d = true /\ date_ltb (mkdate 2014 9 22) d = true)
  /\ standard_cds_mtm_value notebook_market 218 (1 / 100)
       (mkdate 2014 9 22) [] standard_cds_payment_dates (45 / 100)
     <> OutOfFuel.
Proof.
  destruct (next_payment_date_later_and_loop_terminates notebook_market
              standard_cds_payment_dates eq_refl) as [H1 H2].
  split.
  - apply (H1 (mkdate 2014 9 22)); [reflexivity | simpl; lia].
  - apply (H2 218%nat (1 / 100)%R (mkdate 2014 9 22) [] (45 / 100)%R).
    + reflexivity.
    + reflexivity.
    + simpl. lia.
    + simpl. lia.
    + vm_compute. lia.
Defined.

(** C9, as stated, fails: on a cycle of four anchors in adjacent months the
    recursion of [next_payment_date] from 2014-01-20 never returns a date;
    and on the quarterly cycle anchored on the last day of each quarter the
    input 2014-06-30 makes it build the date 31 June, which raises
    [ValueError]. *)
Lemma next_payment_date_no_result :
  ~ (exists fuel d,
       next_payment_date fuel (mkdate 2014 1 20) adjacent_months_cycle
       = Ret d)
  /\ next_payment_date 13 (mkdate 2014 6 30) end_of_quarter_cycle
     = Raise ValueError.
Proof.
  split; [ | reflexivity].
  intros (fuel & d & H).
  assert (G : forall fuel cur,
            day cur = 20 -> 1 <= month cur ->
            forall d, next_payment_date fuel cur adjacent_months_cycle
                      <> Ret d).
  { clear. induction fuel as [ | fuel IH]; intros cur Hd Hm d;
      [discriminate | ].
    cbn [next_payment_date adjacent_months_cycle item nth_error bind in_gap
         month day].
    replace (month cur <? 1) with false by (symmetry; apply Z.ltb_ge; lia).
    assert (E : forall (a b : Z) (x y : res date),
              b = a + 1 ->
              (g <- (if a <? month cur
                     then Ret (month cur <? b) else Ret false) ;;
               if g then x else y) = y).
    { intros a b x y ->. destruct (a <? month cur) eqn:A; [ | reflexivity].
      cbn [bind]. apply Z.ltb_lt in A.
      replace (month cur <? a + 1) with false
        by (symmetry; apply Z.ltb_ge; lia).
      reflexivity. }
    rewrite !E by reflexivity.
    replace (day cur <? 15) with false by (symmetry; apply Z.ltb_ge; lia).
    destruct (add_month cur) as [nxt | e | ] eqn:A; cbn [bind];
      try discriminate.
    assert (day nxt = 20 /\ 1 <= month nxt) as [Dn Mn].
    { unfold add_month in A. apply new_date_inv in A. destruct A as [-> V].
      apply valid_spec in V. cbn [year month day] in V.
      destruct V as (_ & Vm & _).
      match type of Vm with
      | 1 <= ?m <= 12 =>
        match goal with
        | |- context [days_in_month ?y m] =>
          pose proof (days_in_month_bounds y m Vm)
        end
      end.
      cbn [year month day]. lia. }
    pose proof (IH nxt Dn Mn) as N.
    destruct (next_payment_date fuel nxt adjacent_months_cycle) as [x | e | ];
      cbn [bind]; try discriminate.
    exfalso. apply (N x). reflexivity. }
  apply (G fuel (mkdate 2014 1 20) eq_refl ltac:(simpl; lia) d H).
Qed.

(** In the last days of year 9999 the step to the next month leaves the
    calendar. *)
Example next_payment_date_end_of_calendar :
  next_payment_date 13 (mkdate 9999 12 25) standard_cds_payment_dates
  = Raise ValueError.
Proof. reflexivity. Qed.

End Termination.

(** ** Root finder *)

Section NewtonFacts.

Local Open Scope R_scope.

Variables f d_f : R -> date -> hmap -> res R.
Variable maturity_date : date.
Variable prev_h : hmap.
Variable eps : R.

Local Abbreviation loop := (newton_loop f d_f maturity_date prev_h eps).

Lemma newton_loop_unfold (fuel : nat) (x val : R) :
  loop (S fuel) x val =
  if Rgt_dec (Rabs val) eps then
    match d_f x maturity_date prev_h with
    | Ret diff =>
      if Rgt_dec (Rabs diff) derivative_floor then
        match f (x - val / diff) maturity_date prev_h with
        | Ret val' =>
          (diff :: fst (loop fuel (x - val / diff) val'),
           snd (loop fuel (x - val / diff) val'))
        | Raise e => ([diff], Raise e)
        | OutOfFuel => ([diff], OutOfFuel)
        end
      else ([], Ret VNone)
    | Raise e => ([], Raise e)
    | OutOfFuel => ([], OutOfFuel)
    end
  else ([], Ret (VFloat x)).
Proof.
  cbn [newton_loop].
  destruct (Rgt_dec (Rabs val) eps); [ | reflexivity].
  destruct (d_f x maturity_date prev_h); try reflexivity.
  destruct (Rgt_dec (Rabs a) derivative_floor); [ | reflexivity].
  destruct (f (x - val / a) maturity_date prev_h); try reflexivity.
  destruct (newton_loop f d_f maturity_date prev_h eps fuel (x - val / a) a0).
  reflexivity.
Qed.

Lemma newton_loop_float (fuel : nat) :
  forall x val x',
  f x maturity_date prev_h = Ret val ->
  snd (loop fuel x val) = Ret (VFloat x') ->
  exists val', f x' maturity_date prev_h = Ret val' /\ Rabs val' <= eps.
Proof.
  induction fuel as [ | fuel IH]; intros x val x' Hf H; [discriminate | ].
  rewrite newton_loop_unfold in H.
  destruct (Rgt_dec (Rabs val) eps) as [G | G].
  - destruct (d_f x maturity_date prev_h) as [diff | e | ];
      try discriminate.
    destruct (Rgt_dec (Rabs diff) derivative_floor); [ | discriminate].
    destruct (f (x - val / diff) maturity_date prev_h) as [val' | e | ] eqn:F;
      try discriminate.
    simpl in H. eapply IH; eauto.
  - simpl in H. inversion H; subst x'. exists val. split; [exact Hf | lra].
Qed.

Lemma newton_loop_divisors (fuel : nat) :
  forall x val,
  Forall (fun diff => Rabs diff > derivative_floor) (fst (loop fuel x val)).
Proof.
  induction fuel as [ | fuel IH]; intros x val; [constructor | ].
  rewrite newton_loop_unfold.
  destruct (Rgt_dec (Rabs val) eps); [ | constructor].
  destruct (d_f x maturity_date prev_h) as [diff | e | ]; try constructor.
  destruct (Rgt_dec (Rabs diff) derivative_floor) as [G | G];
    [ | constructor].
  destruct (f (x - val / diff) maturity_date prev_h) as [val' | e | ];
    simpl; repeat constructor; try assumption.
  apply IH.
Qed.

Variable x0 : R.

Local Abbreviation reached := (iterate f d_f maturity_date prev_h eps x0).

Lemma newton_loop_none (fuel : nat) :
  forall x val,
  reached x val ->
  snd (loop fuel x val) = Ret VNone ->
  exists x' val' diff,
    reached x' val' /\ Rabs val' > eps
    /\ d_f x' maturity_date prev_h = Ret diff
    /\ Rabs diff <= derivative_floor.
Proof.
  induction fuel as [ | fuel IH]; intros x val It H; [discriminate | ].
  rewrite newton_loop_unfold in H.
  destruct (Rgt_dec (Rabs val) eps) as [G | G]; [ | discriminate].
  destruct (d_f x maturity_date prev_h) as [diff | e | ] eqn:D;
    try discriminate.
  destruct (Rgt_dec (Rabs diff) derivative_floor) as [G' | G'].
  - destruct (f (x - val / diff) maturity_date prev_h) as [val' | e | ] eqn:F;
      try discriminate.
    simpl in H. apply (IH _ _ (iterate_next _ _ _ _ _ _ _ _ _ _ It G D G' F) H).
  - exists x, val, diff. repeat split; try assumption. lra.
Qed.

Lemma reached_from_start (x val : R) :
  reached x val ->
  forall fuel out,
  snd (loop fuel x val) = Ret out ->
  exists fuel0,
    newton_raphson_method f d_f maturity_date prev_h eps fuel0 x0 = Ret out.
Proof.
  induction 1 as [val F | x val diff val' It IH G D G' F];
    intros fuel out H.
  - exists fuel. unfold newton_raphson_method, newton_trace. rewrite F.
    exact H.
  - apply (IH (S fuel) out). rewrite newton_loop_unfold.
    destruct (Rgt_dec (Rabs val) eps); [ | contradiction].
    rewrite D. destruct (Rgt_dec (Rabs diff) derivative_floor);
      [ | contradiction].
    rewrite F. exact H.
Qed.

Lemma newton_loop_stalls (x val diff : R) :
  Rabs val > eps -> d_f x maturity_date prev_h = Ret diff ->
  Rabs diff <= derivative_floor ->
  forall fuel, loop (S fuel) x val = ([], Ret VNone).
Proof.
  intros G D G' fuel. rewrite newton_loop_unfold.
  destruct (Rgt_dec (Rabs val) eps); [ | contradiction].
  rewrite D. destruct (Rgt_dec (Rabs diff) derivative_floor); [lra | ].
  reflexivity.
Qed.

End NewtonFacts.

Section NanAwareFacts.

Local Open Scope R_scope.

Import NanAware.

Variables f d_f : R -> date -> hmap -> res fnum.
Variable maturity_date : date.
Variable prev_h : hmap.
Variable eps : R.

Local Abbreviation nloop :=
  (NanAware.newton_loop f d_f maturity_date prev_h eps).

Lemma nan_newton_loop_unfold (fuel : nat) (x : R) (val : fnum) :
  nloop (S fuel) x val =
  match val with
  | Num v =>
    if Rgt_dec (Rabs v) eps then
      match d_f x maturity_date prev_h with
      | Ret (Num diff) =>
        if Rgt_dec (Rabs diff) derivative_floor then
          match f (x - v / diff) maturity_date prev_h with
          | Ret val' =>
            (diff :: fst (nloop fuel (x - v / diff) val'),
             snd (nloop fuel (x - v / diff) val'))
          | Raise e => ([diff], Raise e)
          | OutOfFuel => ([diff], OutOfFuel)
          end
        else ([], Ret VNone)
      | Ret NaN => ([], Ret VNone)
      | Raise e => ([], Raise e)
      | OutOfFuel => ([], OutOfFuel)
      end
    else ([], Ret (VFloat x))
  | NaN => ([], Ret (VFloat x))
  end.
Proof.
  cbn [NanAware.newton_loop]. destruct val as [v | ]; [ | reflexivity].
  destruct (Rgt_dec (Rabs v) eps); [ | reflexivity].
  destruct (d_f x maturity_date prev_h) as [[diff | ] | | ];
    try reflexivity.
  destruct (Rgt_dec (Rabs diff) derivative_floor); [ | reflexivity].
  destruct (f (x - v / diff) maturity_date prev_h) as [val' | | ];
    try reflexivity.
  destruct (NanAware.newton_loop f d_f maturity_date prev_h eps fuel
              (x - v / diff) val').
  reflexivity.
Qed.

Lemma nan_newton_loop_float (fuel : nat) :
  forall x val x',
  f x maturity_date prev_h = Ret val ->
  snd (nloop fuel x val) = Ret (VFloat x') ->
  f x' maturity_date prev_h = Ret NaN
  \/ exists v', f x' maturity_date prev_h = Ret (Num v') /\ Rabs v' <= eps.
Proof.
  induction fuel as [ | fuel IH]; intros x val x' Hf H; [discriminate | ].
  rewrite nan_newton_loop_unfold in H.
  destruct val as [v | ].
  - destruct (Rgt_dec (Rabs v) eps) as [G | G].
    + destruct (d_f x maturity_date prev_h) as [[diff | ] | | ];
        try discriminate.
      destruct (Rgt_dec (Rabs diff) derivative_floor); [ | discriminate].
      destruct (f (x - v / diff) maturity_date prev_h) as [val' | | ] eqn:F;
        try discriminate.
      simpl in H. apply (IH _ _ _ F H).
    + simpl in H. inversion H; subst x'. right. exists v.
      split; [exact Hf | lra].
  - simpl in H. inversion H; subst x'. left. exact Hf.
Qed.

Lemma nan_newton_loop_divisors (fuel : nat) :
  forall x val,
  Forall (fun diff => Rabs diff > derivative_floor) (fst (nloop fuel x val)).
Proof.
  induction fuel as [ | fuel IH]; intros x val; [constructor | ].
  rewrite nan_newton_loop_unfold. destruct val as [v | ]; [ | constructor].
  destruct (Rgt_dec (Rabs v) eps); [ | constructor].
  destruct (d_f x maturity_date prev_h) as [[diff | ] | | ];
    try constructor.
  destruct (Rgt_dec (Rabs diff) derivative_floor) as [G | G];
    [ | constructor].
  destruct (f (x - v / diff) maturity_date prev_h) as [val' | | ];
    simpl; repeat constructor; try assumption.
  apply IH.
Qed.

Variable x0 : R.

Local Abbreviation nreached :=
  (NanAware.iterate f d_f maturity_date prev_h eps x0).

Lemma nan_newton_loop_none (fuel : nat) :
  forall x val,
  nreached x val ->
  snd (nloop fuel x val) = Ret VNone ->
  exists x' v',
    nreached x' (Num v') /\ Rabs v' > eps
    /\ (d_f x' maturity_date prev_h = Ret NaN
        \/ exists diff,
             d_f x' maturity_date prev_h = Ret (Num diff)
             /\ Rabs diff <= derivative_floor).
Proof.
  induction fuel as [ | fuel IH]; intros x val It H; [discriminate | ].
  rewrite nan_newton_loop_unfold in H.
  destruct val as [v | ]; [ | discriminate].
  destruct (Rgt_dec (Rabs v) eps) as [G | G]; [ | discriminate].
  destruct (d_f x maturity_date prev_h) as [[diff | ] | | ] eqn:D;
    try discriminate.
  - destruct (Rgt_dec (Rabs diff) derivative_floor) as [G' | G'].
    + destruct (f (x - v / diff) maturity_date prev_h) as [val' | | ] eqn:F;
        try discriminate.
      simpl in H.
      apply (IH _ _ (NanAware.iterate_next f d_f maturity_date prev_h eps x0 _ _ _ _ It G D G' F) H).
    + exists x, v. split; [exact It | ]. split; [exact G | ].
      right. exists diff. split; [exact D | lra].
  - exists x, v. split; [exact It | ]. split; [exact G | ].
    left. exact D.
Qed.

Lemma nan_reached_from_start (x : R) (val : fnum) :
  nreached x val ->
  forall fuel out,
  snd (nloop fuel x val) = Ret out ->
  exists fuel0,
    NanAware.newton_raphson_method f d_f maturity_date prev_h eps fuel0 x0
    = Ret out.
Proof.
  induction 1 as [val F | x v diff val' It IH G D G' F];
    intros fuel out H.
  - exists fuel. unfold NanAware.newton_raphson_method, NanAware.newton_trace.
    rewrite F. exact H.
  - apply (IH (S fuel) out). rewrite nan_newton_loop_unfold.
    destruct (Rgt_dec (Rabs v) eps); [ | contradiction].
    rewrite D. destruct (Rgt_dec (Rabs diff) derivative_floor);
      [ | contradiction].
    rewrite F. exact H.
Qed.

Lemma nan_newton_loop_stalls (x v : R) :
  Rabs v > eps ->
  (d_f x maturity_date prev_h = Ret NaN
   \/ exists diff,
        d_f x maturity_date prev_h = Ret (Num diff)
        /\ Rabs diff <= derivative_floor) ->
  forall fuel, nloop (S fuel) x (Num v) = ([], Ret VNone).
Proof.
  intros G D fuel. rewrite nan_newton_loop_unfold.
  destruct (Rgt_dec (Rabs v) eps); [ | contradiction].
  destruct D as [D | (diff & D & G')]; rewrite D; [reflexivity | ].
  destruct (Rgt_dec (Rabs diff) derivative_floor); [lra | reflexivity].
Qed.

Lemma nan_newton_loop_reached (fuel : nat) :
  forall x val x',
  nreached x val ->
  snd (nloop fuel x val) = Ret (VFloat x') ->
  exists val', nreached x' val'.
Proof.
  induction fuel as [ | fuel IH]; intros x val x' It H; [discriminate | ].
  rewrite nan_newton_loop_unfold in H.
  destruct val as [v | ].
  - destruct (Rgt_dec (Rabs v) eps) as [G | G].
    + destruct (d_f x maturity_date prev_h) as [[diff | ] | | ] eqn:D;
        try discriminate.
      destruct (Rgt_dec (Rabs diff) derivative_floor) as [G' | G'];
        [ | discriminate].
      destruct (f (x - v / diff) maturity_date prev_h) as [val' | | ] eqn:F;
        try discriminate.
      simpl in H.
      apply (IH _ _ _ (NanAware.iterate_next f d_f maturity_date prev_h eps x0 _ _ _ _ It G D G' F) H).
    + simpl in H. inversion H; subst x'. exists (Num v). exact It.
  - simpl in H. inversion H; subst x'. exists NaN. exact It.
Qed.

Lemma nan_newton_loop_raise (fuel : nat) :
  forall x val e,
  nreached x val ->
  snd (nloop fuel x val) = Raise e ->
  exists x' v',
    nreached x' (Num v') /\ Rabs v' > eps
    /\ (d_f x' maturity_date prev_h = Raise e
        \/ exists diff,
             d_f x' maturity_date prev_h = Ret (Num diff)
             /\ Rabs diff > derivative_floor
             /\ f (x' - v' / diff) maturity_date prev_h = Raise e).
Proof.
  induction fuel as [ | fuel IH]; intros x val e It H; [discriminate | ].
  rewrite nan_newton_loop_unfold in H.
  destruct val as [v | ]; [ | discriminate].
  destruct (Rgt_dec (Rabs v) eps) as [G | G]; [ | discriminate].
  destruct (d_f x maturity_date prev_h) as [[diff | ] | e' | ] eqn:D;
    try discriminate.
  - destruct (Rgt_dec (Rabs diff) derivative_floor) as [G' | G'];
      [ | discriminate].
    destruct (f (x - v / diff) maturity_date prev_h) as [val' | e' | ]
      eqn:F; try discriminate.
    + simpl in H.
      apply (IH _ _ _ (NanAware.iterate_next f d_f maturity_date prev_h eps x0 _ _ _ _ It G D G' F) H).
    + simpl in H. inversion H; subst e'.
      exists x, v. split; [exact It | ]. split; [exact G | ].
      right. exists diff. repeat split; assumption.
  - simpl in H. inversion H; subst e'.
    exists x, v. split; [exact It | ]. split; [exact G | ].
    left. exact D.
Qed.

End NanAwareFacts.

Lemma derivative_floor_value : derivative_floor = (/ 2 ^ 26)%R.
Proof.
  unfold derivative_floor, float_eps. apply sqrt_lem_1.
  - left. apply Rinv_0_lt_compat. apply pow_lt. lra.
  - left. apply Rinv_0_lt_compat. apply pow_lt. lra.
  - field.
Qed.

(** On functions whose results are numbers, the loop is the root finder of
    the calibration model. *)
Lemma nan_newton_loop_on_numbers (f0 d_f0 : R -> date -> hmap -> res R)
  (m : date) (prev_h : hmap) (eps : R) (fuel : nat) :
  forall x val,
  NanAware.newton_loop (NanAware.lift f0) (NanAware.lift d_f0) m prev_h eps
    fuel x (NanAware.Num val)
  = newton_loop f0 d_f0 m prev_h eps fuel x val.
Proof.
  induction fuel as [ | fuel IH]; intros x val; [reflexivity | ].
  rewrite nan_newton_loop_unfold, newton_loop_unfold.
  destruct (Rgt_dec (Rabs val) eps); [ | reflexivity].
  unfold NanAware.lift at 1.
  destruct (d_f0 x m prev_h) as [diff | | ]; try reflexivity.
  destruct (Rgt_dec (Rabs diff) derivative_floor); [ | reflexivity].
  unfold NanAware.lift at 1.
  destruct (f0 (x - val / diff)%R m prev_h) as [val' | | ]; try reflexivity.
  rewrite IH. reflexivity.
Qed.

Lemma nan_newton_raphson_method_on_numbers
  (f0 d_f0 : R -> date -> hmap -> res R) (m : date) (prev_h : hmap)
  (eps : R) (fuel : nat) (x0 : R) :
  NanAware.newton_raphson_method (NanAware.lift f0) (NanAware.lift d_f0) m
    prev_h eps fuel x0
  = newton_raphson_method f0 d_f0 m prev_h eps fuel x0.
Proof.
  unfold NanAware.newton_raphson_method, NanAware.newton_trace,
    newton_raphson_method, newton_trace.
  unfold NanAware.lift at 1.
  destruct (f0 x0 m prev_h) as [val | | ]; try reflexivity.
  rewrite nan_newton_loop_on_numbers. reflexivity.
Qed.

Section NewtonClaims.

Local Open Scope R_scope.

(** C4 (amended): with the results of [f] and [d_f] taken as floats that may
    be NaN, and the step [x - val / diff] computed exactly,
    [newton_raphson_method] returns a number [x] only if [|f(x)| <= eps] or
    [f(x)] is NaN; it returns [None] only when the loop reaches an iterate
    [x] with [|f(x)| > eps] at which [|d_f(x)|] is at or below the floor or
    [d_f(x)] is NaN, and it does return [None] when it reaches an iterate
    with [|f(x)| > eps] and [|d_f(x)|] at or below the floor; every division
    it performs is by a derivative above the floor; and the floor, the
    square root of the machine epsilon [2^-52], is [2^-26]. *)
Theorem newton_raphson_method_spec
  (f d_f : R -> date -> hmap -> res NanAware.fnum) (maturity_date : date)
  (prev_h : hmap) (x0 eps : R) :
  (forall fuel x,
     NanAware.newton_raphson_method f d_f maturity_date prev_h eps fuel x0
     = Ret (VFloat x) ->
     f x maturity_date prev_h = Ret NanAware.NaN
     \/ exists val,
          f x maturity_date prev_h = Ret (NanAware.Num val)
          /\ Rabs val <= eps)
  /\ ((exists fuel,
         NanAware.newton_raphson_method f d_f maturity_date prev_h eps fuel
           x0 = Ret VNone)
      -> exists x val,
           NanAware.iterate f d_f maturity_date prev_h eps x0 x
             (NanAware.Num val)
           /\ Rabs val > eps
           /\ (d_f x maturity_date prev_h = Ret NanAware.NaN
               \/ exists diff,
                    d_f x maturity_date prev_h = Ret (NanAware.Num diff)
                    /\ Rabs diff <= derivative_floor))
  /\ ((exists x val diff,
         NanAware.iterate f d_f maturity_date prev_h eps x0 x
           (NanAware.Num val)
         /\ Rabs val > eps
         /\ d_f x maturity_date prev_h = Ret (NanAware.Num diff)
         /\ Rabs diff <= derivative_floor)
      -> exists fuel,
           NanAware.newton_raphson_method f d_f maturity_date prev_h eps
             fuel x0 = Ret VNone)
  /\ (forall fuel,
        Forall (fun diff => Rabs diff > derivative_floor)
          (fst (NanAware.newton_trace f d_f maturity_date prev_h eps fuel
                  x0)))
  /\ derivative_floor = sqrt (/ 2 ^ 52)
  /\ derivative_floor = / 2 ^ 26.
Proof.
  split; [ | split; [ | split; [ | split; [ | split]]]].
  - intros fuel x H.
    unfold NanAware.newton_raphson_method, NanAware.newton_trace in H.
    destruct (f x0 maturity_date prev_h) as [val | e | ] eqn:F;
      try discriminate.
    apply (nan_newton_loop_float f d_f maturity_date prev_h eps fuel x0 val
             x F H).
  - intros [fuel H].
    unfold NanAware.newton_raphson_method, NanAware.newton_trace in H.
    destruct (f x0 maturity_date prev_h) as [val | e | ] eqn:F;
      try discriminate.
    apply (nan_newton_loop_none f d_f maturity_date prev_h eps x0 fuel x0
             val (NanAware.iterate_first f d_f maturity_date prev_h eps x0
                    val F) H).
  - intros (x & val & diff & It & G & D & G').
    apply (nan_reached_from_start f d_f maturity_date prev_h eps x0 x
             (NanAware.Num val) It 1%nat VNone).
    rewrite (nan_newton_loop_stalls f d_f maturity_date prev_h eps x val G).
    + reflexivity.
    + right. exists diff. split; assumption.
  - intros fuel. unfold NanAware.newton_trace.
    destruct (f x0 maturity_date prev_h); try constructor.
    apply nan_newton_loop_divisors.
  - reflexivity.
  - apply derivative_floor_value.
Qed.

Lemma derivative_floor_bounds : 0 <= derivative_floor < 1.
Proof.
  unfold derivative_floor, float_eps. split; [apply sqrt_pos | ].
  rewrite <- sqrt_1. apply sqrt_lt_1_alt.
  assert (1 < 2 ^ 52) by (apply Rlt_pow_R1; [lra | lia]).
  split.
  - left. apply Rinv_0_lt_compat. lra.
  - rewrite <- Rinv_1. apply Rinv_lt_contravar; lra.
Qed.

Lemma newton_identity_returns (m : date) (prev_h : hmap) :
  newton_raphson_method identity_value identity_derivative m prev_h
    (1 / 1000000) 2 (1 / 100)
  = Ret (VFloat (1 / 100 - 1 / 100 / 1)).
Proof.
  pose proof derivative_floor_bounds as B.
  unfold newton_raphson_method, newton_trace, identity_value.
  rewrite newton_loop_unfold.
  destruct (Rgt_dec (Rabs (1 / 100)) (1 / 1000000)) as [G | G];
    [ | exfalso; apply G; rewrite Rabs_pos_eq; lra].
  unfold identity_derivative at 1.
  destruct (Rgt_dec (Rabs 1) derivative_floor) as [G' | G'];
    [ | exfalso; apply G'; rewrite Rabs_pos_eq; lra].
  cbn [snd]. rewrite newton_loop_unfold.
  destruct (Rgt_dec (Rabs (1 / 100 - 1 / 100 / 1)) (1 / 1000000)) as [N | N];
    [ | reflexivity].
  exfalso. replace (1 / 100 - 1 / 100 / 1) with 0 in N by field.
  rewrite Rabs_R0 in N. lra.
Qed.

Lemma newton_raphson_method_spec_witness :
  (NanAware.lift identity_value (1 / 100 - 1 / 100 / 1) contract_date []
   = Ret NanAware.NaN
   \/ exists val,
        NanAware.lift identity_value (1 / 100 - 1 / 100 / 1) contract_date []
        = Ret (NanAware.Num val)
        /\ Rabs val <= 1 / 1000000)
  /\ (exists fuel,
        NanAware.newton_raphson_method
          (fun _ _ _ => Ret (NanAware.Num 1))
          (fun _ _ _ => Ret (NanAware.Num (/ 2 ^ 27)))
          contract_date [] (1 / 1000000) fuel (1 / 100) = Ret VNone)
  /\ derivative_floor = / 2 ^ 26.
Proof.
  split; [ | split].
  - apply (proj1 (newton_raphson_method_spec
                    (NanAware.lift identity_value)
                    (NanAware.lift identity_derivative) contract_date []
                    (1 / 100) (1 / 1000000)) 2%nat).
    rewrite nan_newton_raphson_method_on_numbers.
    apply newton_identity_returns.
  - apply (proj1 (proj2 (proj2 (newton_raphson_method_spec
                    (fun _ _ _ => Ret (NanAware.Num 1))
                    (fun _ _ _ => Ret (NanAware.Num (/ 2 ^ 27)))
                    contract_date [] (1 / 100) (1 / 1000000))))).
    exists (1 / 100), 1, (/ 2 ^ 27). split; [ | split; [ | split]].
    + apply NanAware.iterate_first. reflexivity.
    + rewrite Rabs_pos_eq; lra.
    + reflexivity.
    + rewrite derivative_floor_value.
      assert (P : 0 < 2 ^ 26) by (apply pow_lt; lra).
      rewrite Rabs_pos_eq.
      * apply Rinv_le_contravar; [exact P | ].
        change (2 ^ 27) with (2 * 2 ^ 26). lra.
      * left. apply Rinv_0_lt_compat. apply pow_lt. lra.
  - apply (proj2 (proj2 (proj2 (proj2 (proj2 (newton_raphson_method_spec
                    (fun _ _ _ => Ret (NanAware.Num 1))
                    (fun _ _ _ => Ret (NanAware.Num (/ 2 ^ 27)))
                    contract_date [] (1 / 100) (1 / 1000000))))))).
Defined.

(** C4, as stated, fails: when [f] returns NaN at the initial guess, the
    test [abs(val) > eps] is false, the loop is not entered and the initial
    guess 0.01 is returned, although [f(0.01)] is not a number within the
    tolerance. *)
Lemma newton_raphson_method_returns_on_nan :
  NanAware.newton_raphson_method (fun _ _ _ => Ret NanAware.NaN)
    (fun _ _ _ => Ret (NanAware.Num 1)) contract_date [] (1 / 1000000) 1
    (1 / 100)
  = Ret (VFloat (1 / 100))
  /\ ~ (exists val,
          (fun (_ : R) (_ : date) (_ : hmap) => Ret NanAware.NaN) (1 / 100)
            contract_date []
          = Ret (NanAware.Num val)
          /\ Rabs val <= 1 / 1000000).
Proof.
  split; [reflexivity | ].
  intros (val & H & _). discriminate H.
Qed.

End NewtonClaims.

(** ** Calibration driver *)

Section CalibrationClaims.

Local Open Scope R_scope.

Lemma getitem_setitem (m : hmap) (k : date) (v : value) :
  getitem (setitem m k v) k = Ret v.
Proof.
  induction m as [ | [k' v'] m IH]; simpl.
  - rewrite date_eqb_refl. reflexivity.
  - destruct (date_eqb k' k) eqn:E; simpl; rewrite E; [reflexivity | exact IH].
Qed.

Lemma setitem_new_key (m : hmap) (k : date) (v : value) :
  ~ In k (map fst m) -> map fst (setitem m k v) = map fst m ++ [k].
Proof.
  induction m as [ | [k' v'] m IH]; simpl; intros N; [reflexivity | ].
  destruct (date_eqb k' k) eqn:E.
  - apply date_eqb_eq in E. subst k'. exfalso. apply N. left. reflexivity.
  - simpl. f_equal. apply IH. intros H. apply N. right. exact H.
Qed.

(** The keys of the map after the loop: the keys before it, followed by the
    pillars the loop went through. *)
Lemma calibrate_keys (f d_f : R -> date -> hmap -> res R) (fuel : nat) :
  forall (mat_dates : list date) (h_values h_values' : hmap) (st : res unit),
  NoDup (map fst h_values ++ mat_dates) ->
  calibrate f d_f fuel mat_dates h_values = (h_values', st) ->
  exists done rest,
    mat_dates = done ++ rest
    /\ map fst h_values' = map fst h_values ++ done
    /\ (st = Ret tt -> rest = []).
Proof.
  induction mat_dates as [ | m rest IH]; intros hv hv' st ND H.
  - simpl in H. inversion H; subst. exists [], [].
    split; [reflexivity | split; [rewrite app_nil_r | ]; reflexivity].
  - cbn [calibrate] in H.
    destruct (newton_raphson_method f d_f m hv (1 / 1000000) fuel (1 / 100))
      as [h | e | ].
    + assert (Nm : ~ In m (map fst hv)).
      { intros I. apply NoDup_remove_2 in ND. apply ND.
        apply in_or_app. left. exact I. }
      pose proof (setitem_new_key hv m h Nm) as K.
      assert (ND' : NoDup (map fst (setitem hv m h) ++ rest)).
      { rewrite K, <- app_assoc. exact ND. }
      destruct (IH _ _ _ ND' H) as (done & rest' & E1 & E2 & E3).
      exists (m :: done), rest'. split; [simpl; congruence | ].
      split; [ | exact E3].
      rewrite E2, K, <- app_assoc. reflexivity.
    + inversion H; subst. exists [], (m :: rest).
      split; [reflexivity
             | split; [rewrite app_nil_r; reflexivity | discriminate]].
    + inversion H; subst. exists [], (m :: rest).
      split; [reflexivity
             | split; [rewrite app_nil_r; reflexivity | discriminate]].
Qed.

(** C2 (amended): when the root finder returns [None] for a pillar, the
    calibration loop stores [None] under that pillar's date and goes on with
    the next pillar; the map gains one entry per pillar the loop goes
    through, solved or not, in the order of the pillar list. *)
Theorem calibrate_stores_failure_and_continues
  (f d_f : R -> date -> hmap -> res R) (fuel : nat) (mat_date : date)
  (rest : list date) (h_values : hmap) :
  newton_raphson_method f d_f mat_date h_values (1 / 1000000) fuel (1 / 100)
  = Ret VNone ->
  calibrate f d_f fuel (mat_date :: rest) h_values
  = calibrate f d_f fuel rest (setitem h_values mat_date VNone)
  /\ getitem (setitem h_values mat_date VNone) mat_date = Ret VNone
  /\ (forall h_values' st,
        NoDup (mat_date :: rest) ->
        calibrate f d_f fuel (mat_date :: rest) [] = (h_values', st) ->
        exists done rest',
          mat_date :: rest = done ++ rest'
          /\ map fst h_values' = done
          /\ (st = Ret tt -> rest' = [])).
Proof.
  intros H. split; [ | split].
  - cbn [calibrate]. rewrite H. reflexivity.
  - apply getitem_setitem.
  - intros hv' st ND C.
    apply (calibrate_keys f d_f fuel (mat_date :: rest) [] hv' st ND C).
Qed.

End CalibrationClaims.

(** ** The valuation on a map that holds [None] *)

Section AfterFailure.

Local Open Scope R_scope.

Variable M : market.

Lemma legs_protection_raises (surv : R -> res R) (T : R) (e : exn) :
  0 < T ->
  (forall x, 0 <= x <= T -> (exists q, surv x = Ret q) \/ surv x = Raise e) ->
  surv (IZR (K T - 1 + 1) * T / IZR (K T)) = Raise e ->
  forall (ks : list Z) (b : R),
  (forall k, In k ks -> (0 <= k < K T)%Z) -> In (K T - 1)%Z ks ->
  legs_protection surv T ks b = Raise e.
Proof.
  intros HT Hs Hlast.
  assert (HK : (1 <= K T)%Z) by (apply py_ceil_pos; lra).
  induction ks as [ | k ks IH]; intros b Hk Hin; [contradiction | ].
  assert (Hk0 : (0 <= k < K T)%Z) by (apply Hk; left; reflexivity).
  cbn [legs_protection]. unfold s.
  replace (K T =? 0)%Z with false by (symmetry; apply Z.eqb_neq; lia).
  cbn [bind].
  destruct (Hs (IZR k * T / IZR (K T))) as [[q Eq] | Eq];
    [apply subinterval_bounds; try assumption; lia | | rewrite Eq; reflexivity].
  rewrite Eq. cbn [bind].
  destruct (Hs (IZR (k + 1) * T / IZR (K T))) as [[q1 Eq1] | Eq1];
    [apply subinterval_bounds; try assumption; lia | | rewrite Eq1; reflexivity].
  rewrite Eq1. cbn [bind].
  apply IH; [intros k' Hk'; apply Hk; right; exact Hk' | ].
  destruct Hin as [E | Hin]; [ | exact Hin].
  subst k. rewrite Hlast in Eq1. discriminate.
Qed.

Lemma range_last (n : Z) : (1 <= n)%Z -> In (n - 1)%Z (range n).
Proof.
  intros H. unfold range. apply in_map_iff. exists (Z.to_nat (n - 1)).
  split; [lia | ]. apply in_seq. lia.
Qed.

(** With [None] stored for the first pillar, the valuation of the second
    pillar raises [TypeError]: [Q_h] multiplies the stored value by the
    length of the first interval as soon as the target date is after the
    first pillar. *)
Lemma standard_cds_mtm_value_after_failure (fuel : nat) (h_i : R)
  (p1 p2 : date) (rest : list date) (prev_h : hmap) (c : list date)
  (rec : R) :
  spread_maturity_dates M = p1 :: p2 :: rest ->
  valid (effective_date M) = true -> valid p2 = true ->
  (toordinal (effective_date M) <= toordinal p1 < toordinal p2)%Z ->
  getitem prev_h p1 = Ret VNone ->
  standard_cds_mtm_value M fuel h_i p2 prev_h c rec = Raise TypeError.
Proof.
  intros Hp Ve V2 Ho Hn.
  rewrite standard_cds_mtm_value_legs_value. unfold legs_value.
  pose proof (toordinal_range p2 V2) as [_ R2].
  assert (HT : 0 < year_fraction M p2).
  { unfold year_fraction, days_between.
    assert (0 < IZR (toordinal p2 - toordinal (effective_date M)))
      by (apply IZR_lt; lia). lra. }
  assert (Q : forall x, 0 <= x <= year_fraction M p2 ->
            Q_h M x (VFloat h_i) prev_h
            = if (toordinal p1 <? target M x)%Z then Raise TypeError
              else Ret (exp (- (0 + h_i * Delta M x)))).
  { intros x [H0 H1]. rewrite Q_h_closed.
    assert (T : (0 <= py_int (x * 360)
                 <= toordinal p2 - toordinal (effective_date M))%Z).
    { apply py_int_bounds. unfold year_fraction, days_between in H1. lra. }
    rewrite plus_days_returns by (try assumption; lia).
    cbn [bind]. fold (target M x). unfold Delta. rewrite Hp.
    cbn [solved_sum final_delta].
    destruct (toordinal p1 <? target M x)%Z; [ | reflexivity].
    rewrite Hn. reflexivity. }
  assert (HK : (1 <= K (year_fraction M p2))%Z) by (apply py_ceil_pos; lra).
  rewrite (legs_protection_raises _ (year_fraction M p2) TypeError HT);
    [reflexivity | | | apply range_In | apply range_last; exact HK].
  - intros x Hx. rewrite (Q x Hx).
    destruct (toordinal p1 <? target M x)%Z;
      [right; reflexivity | left; eexists; reflexivity].
  - replace (K (year_fraction M p2) - 1 + 1)%Z with (K (year_fraction M p2))
      by lia.
    rewrite Q by (apply subinterval_bounds; try assumption; lia).
    replace (target M _) with (toordinal p2).
    + replace (toordinal p1 <? toordinal p2)%Z with true
        by (symmetry; apply Z.ltb_lt; lia).
      reflexivity.
    + unfold target.
      match goal with
      | |- context [py_int ?e] =>
        replace e with (IZR (toordinal p2 - toordinal (effective_date M)))
      end.
      * rewrite py_int_IZR. lia.
      * unfold year_fraction, days_between in *. field.
        apply not_0_IZR. lia.
Qed.

(** After a stalled first pillar, the notebook's calibration loop stops at
    the second pillar with that [TypeError], the [None] still in the map. *)
Lemma calibrate_after_failure (fuel : nat) (p1 p2 : date)
  (rest : list date) (c : list date) (rec : R) :
  spread_maturity_dates M = p1 :: p2 :: rest ->
  valid (effective_date M) = true -> valid p2 = true ->
  (toordinal (effective_date M) <= toordinal p1 < toordinal p2)%Z ->
  calibrate
    (fun h d p => standard_cds_mtm_value M fuel h d p c rec)
    (fun h d p => d_standard_cds_mtm_value M fuel h d p c rec)
    fuel (p2 :: rest) [(p1, VNone)]
  = ([(p1, VNone)], Raise TypeError).
Proof.
  intros Hp Ve V2 Ho. cbn [calibrate].
  unfold newton_raphson_method, newton_trace.
  rewrite (standard_cds_mtm_value_after_failure fuel (1 / 100) p1 p2 rest
             [(p1, VNone)] c rec Hp Ve V2 Ho).
  - reflexivity.
  - simpl. rewrite date_eqb_refl. reflexivity.
Qed.

End AfterFailure.

Example calibrate_after_failure_notebook :
  calibrate
    (fun h d p =>
       standard_cds_mtm_value notebook_market 600 h d p
         standard_cds_payment_dates (45 / 100)%R)
    (fun h d p =>
       d_standard_cds_mtm_value notebook_market 600 h d p
         standard_cds_payment_dates (45 / 100)%R)
    600 (tl (spread_maturity_dates notebook_market))
    [(mkdate 2014 9 22, VNone)]
  = ([(mkdate 2014 9 22, VNone)], Raise TypeError).
Proof.
  apply (calibrate_after_failure notebook_market 600 (mkdate 2014 9 22)
           (mkdate 2015 3 20)); try reflexivity.
  vm_compute. split; [discriminate | reflexivity].
Qed.

(** ** Payment dates on the notebook's cycles *)
Section OnAnchor.

Local Open Scope Z_scope.

Lemma tomorrow_same_month (d d' : date) :
  valid d = true -> day d <= 27 -> tomorrow d = Ret d' ->
  year d' = year d /\ month d' = month d /\ day d' = day d + 1.
Proof.
  intros V H E. apply valid_spec in V. destruct V as (_ & Vm & _).
  pose proof (days_in_month_bounds (year d) (month d) Vm).
  unfold tomorrow in E.
  replace (day d <? days_in_month (year d) (month d)) with true in E
    by (symmetry; apply Z.ltb_lt; lia).
  inversion E. simpl. repeat split.
Qed.

Lemma weekend_rollover_same_month (w w' : date) :
  valid w = true -> day w <= 26 -> weekend_rollover w = Ret w' ->
  year w' = year w /\ month w' = month w.
Proof.
  intros V H E. unfold weekend_rollover in E.
  destruct (weekday w =? 5).
  - inv_bind E. destruct (tomorrow_same_month _ _ V ltac:(lia) Ha)
      as (Y1 & M1 & D1).
    destruct (tomorrow_spec _ _ V Ha) as [V1 _].
    destruct (tomorrow_same_month _ _ V1 ltac:(lia) E) as (Y2 & M2 & D2).
    split; congruence.
  - destruct (weekday w =? 6).
    + destruct (tomorrow_same_month _ _ V ltac:(lia) E) as (Y1 & M1 & D1).
      split; assumption.
    + inversion E. split; reflexivity.
Qed.

Lemma anchor_rolled_on_anchor (c : list date) (p : date) (y : Z)
  (pd d : date) :
  In p c -> day p <= 26 ->
  new_date y (month p) (day p) = Ret pd -> weekend_rollover pd = Ret d ->
  on_anchor c d = true.
Proof.
  intros I D N W. apply new_date_inv in N. destruct N as [-> V].
  destruct (weekend_rollover_same_month _ _ V D W) as [Y _]. simpl in Y.
  unfold on_anchor. apply existsb_exists. exists p. split; [exact I | ].
  rewrite Y, W. apply date_eqb_eq. reflexivity.
Qed.

Lemma in_gap_eval (cur : date) (c : list date) (i : nat) (lo hi : date) :
  item c i = Ret lo -> item c (S i) = Ret hi ->
  in_gap cur c i = Ret (between_anchors lo hi (month cur)).
Proof.
  intros H1 H2. unfold in_gap, between_anchors. rewrite H1. simpl.
  destruct (month lo <? month cur); simpl; [rewrite H2 | ]; reflexivity.
Qed.

(** On a regular cycle with anchor days at most 26 whose last-branch months
    are anchor months, every result of [next_payment_date] is an anchor of
    the cycle, weekend rolled. *)
Lemma next_payment_date_on_anchor (fuel : nat) :
  forall (cur : date) (c : list date) (d : date),
  regular_cycle c = true -> (forall p, In p c -> day p <= 26) ->
  last_branch_months_are_anchors c = true ->
  valid cur = true -> next_payment_date fuel cur c = Ret d ->
  on_anchor c d = true.
Proof.
  induction fuel as [ | fuel IH]; intros cur c d Hc Hd Hl V H;
    [discriminate | ].
  destruct (regular_cycle_inv c Hc)
    as (p0 & p1 & p2 & p3 & -> & H0 & R0 & R1 & R2 & R3).
  cbn [next_payment_date] in H.
  rewrite (in_gap_eval cur [p0; p1; p2; p3] 0 p0 p1 eq_refl eq_refl) in H.
  rewrite (in_gap_eval cur [p0; p1; p2; p3] 1 p1 p2 eq_refl eq_refl) in H.
  rewrite (in_gap_eval cur [p0; p1; p2; p3] 2 p2 p3 eq_refl eq_refl) in H.
  unfold anchor_in_year in H. cbn [item nth_error bind] in H.
  inv_bind H. rename a into pd.
  destruct (month cur <? month p0) eqn:C0.
  { apply (anchor_rolled_on_anchor [p0; p1; p2; p3] p0 (year cur) pd d);
      [simpl; tauto | apply Hd; simpl; tauto | exact Ha | exact H]. }
  destruct (between_anchors p0 p1 (month cur)) eqn:C1.
  { apply (anchor_rolled_on_anchor [p0; p1; p2; p3] p1 (year cur) pd d);
      [simpl; tauto | apply Hd; simpl; tauto | exact Ha | exact H]. }
  destruct (between_anchors p1 p2 (month cur)) eqn:C2.
  { apply (anchor_rolled_on_anchor [p0; p1; p2; p3] p2 (year cur) pd d);
      [simpl; tauto | apply Hd; simpl; tauto | exact Ha | exact H]. }
  destruct (between_anchors p2 p3 (month cur)) eqn:C3.
  { apply (anchor_rolled_on_anchor [p0; p1; p2; p3] p3 (year cur) pd d);
      [simpl; tauto | apply Hd; simpl; tauto | exact Ha | exact H]. }
  destruct (day cur <? day p0) eqn:Cd.
  - assert (exists p, In p [p0; p1; p2; p3]
                      /\ month p = month cur /\ day p = day p0)
      as (p & Ip & Mp & Dp).
    { unfold last_branch_months_are_anchors in Hl.
      rewrite forallb_forall in Hl.
      assert (Im : In (month cur) [1; 2; 3; 4; 5; 6; 7; 8; 9; 10; 11; 12]).
      { apply valid_spec in V. destruct V as (_ & Vm & _).
        destruct cur as [y m dd]. simpl in *. month_cases m; simpl; tauto. }
      specialize (Hl _ Im). rewrite C0, C1, C2, C3 in Hl. cbn [orb] in Hl.
      apply existsb_exists in Hl. destruct Hl as (p & Ip & Hp).
      apply andb_true_iff in Hp. destruct Hp as [Hp1 Hp2].
      apply Z.eqb_eq in Hp1. apply Z.eqb_eq in Hp2.
      exists p. repeat split; assumption. }
    rewrite <- Mp, <- Dp in Ha.
    apply (anchor_rolled_on_anchor [p0; p1; p2; p3] p (year cur) pd d);
      [exact Ip | apply Hd; exact Ip | exact Ha | exact H].
  - inv_bind Ha. rename a into nxt.
    destruct (add_month_spec _ _ V Ha0) as (Vn & _).
    pose proof (IH _ _ _ Hc Hd Hl Vn Ha) as On.
    destruct (next_payment_date_weekday _ _ _ _ Vn Ha) as [W5 W6].
    rewrite (weekend_rollover_id pd W5 W6) in H. inversion H; subst d.
    exact On.
Qed.

(** On the standard cycle every input date before year 9999 gets a payment
    date that is an anchor of the cycle, weekend rolled. *)
Lemma next_payment_date_standard_on_anchor (cur : date) :
  valid cur = true -> year cur < 9999 ->
  exists d,
    next_payment_date 13 cur standard_cds_payment_dates = Ret d
    /\ on_anchor standard_cds_payment_dates d = true.
Proof.
  intros V Hy.
  destruct (next_payment_date_total cur standard_cds_payment_dates V
              eq_refl Hy) as [d Hd].
  exists d. split; [exact Hd | ].
  apply (next_payment_date_on_anchor 13 cur standard_cds_payment_dates d);
    try reflexivity; try assumption.
  intros p Hp. simpl in Hp.
  repeat (destruct Hp as [<- | Hp]; [simpl; lia | ]). contradiction.
Qed.

Example last_branch_months_nonstandard :
  last_branch_months_are_anchors nonstandard_cds_payment_dates = false.
Proof. reflexivity. Qed.

End OnAnchor.


Section PaymentDateClaims.

Local Open Scope Z_scope.

(** The pillar dates of the notebook are the quoted maturities, weekend
    rolled. *)
Lemma spread_maturity_dates_rolled :
  map weekend_rollover spread_maturity_dates_before_adjustment
  = map Ret (spread_maturity_dates notebook_market).
Proof. vm_compute. reflexivity. Qed.

(** The effective date is the day after the contract date. *)
Lemma effective_date_notebook :
  tomorrow contract_date = Ret (effective_date notebook_market).
Proof. reflexivity. Qed.

(** C8: on the non-standard cycle (15 Feb, 15 May, 15 Aug, 15 Nov) the input
    2014-12-01 falls in the last branch of [next_payment_date], written for
    dates in a payment month, and the result is 2014-12-15, which is no
    anchor of the cycle; the earliest anchor after the input is 2015-02-15,
    rolled to Monday 2015-02-16, which the code returns from 2014-12-15.  On
    the standard cycle the input 2014-02-28 gives 2014-03-20. *)
Theorem next_payment_date_december_not_anchor :
  next_payment_date 13 (mkdate 2014 12 1) nonstandard_cds_payment_dates
  = Ret (mkdate 2014 12 15)
  /\ on_anchor nonstandard_cds_payment_dates (mkdate 2014 12 15) = false
  /\ next_payment_date 13 (mkdate 2014 12 15) nonstandard_cds_payment_dates
     = Ret (mkdate 2015 2 16)
  /\ on_anchor nonstandard_cds_payment_dates (mkdate 2015 2 16) = true
  /\ next_payment_date 13 (mkdate 2014 2 28) standard_cds_payment_dates
     = Ret (mkdate 2014 3 20).
Proof. repeat split; vm_compute; reflexivity. Qed.

End PaymentDateClaims.

(** * Further properties *)

(** ** Weekend roll *)

Section WeekendRoll.

Local Open Scope Z_scope.

Lemma weekday_range (d : date) : 0 <= weekday d <= 6.
Proof. unfold weekday. Z.div_mod_to_equations. lia. Qed.

Lemma tomorrow_returns (d : date) :
  valid d = true -> weekday d <> 4 -> exists d', tomorrow d = Ret d'.
Proof.
  intros V W. pose proof V as V'. apply valid_spec in V'.
  destruct V' as (Hy & Hm & Hd). unfold tomorrow, MAXYEAR.
  destruct (day d <? days_in_month (year d) (month d)) eqn:C1;
    [eexists; reflexivity | ].
  destruct (month d <? 12) eqn:C2; [eexists; reflexivity | ].
  destruct (year d <? 9999) eqn:C3; [eexists; reflexivity | ].
  unbool. exfalso. apply W.
  destruct d as [y m dd]. simpl in *.
  assert (y = 9999) by lia. assert (m = 12) by lia. subst y m.
  change (days_in_month 9999 12) with 31 in *.
  assert (dd = 31) by lia. subst dd. reflexivity.
Qed.

(** X1: on every valid date [weekend_rollover] returns a valid date: the
    Monday two days after a Saturday, the Monday one day after a Sunday, the
    date itself otherwise; the result is never a Saturday or a Sunday. *)
Theorem weekend_rollover_monday (w_date : date) :
  valid w_date = true ->
  exists d,
    weekend_rollover w_date = Ret d
    /\ valid d = true
    /\ toordinal d
       = toordinal w_date
         + (if weekday w_date =? 5 then 2
            else if weekday w_date =? 6 then 1 else 0)
    /\ weekday d
       = (if (weekday w_date =? 5) || (weekday w_date =? 6) then 0
          else weekday w_date)
    /\ weekday d <= 4.
Proof.
  intros V. pose proof (weekday_range w_date) as R.
  assert (T : exists d, weekend_rollover w_date = Ret d).
  { unfold weekend_rollover.
    destruct (weekday w_date =? 5) eqn:C5; unbool.
    - destruct (tomorrow_returns w_date V ltac:(lia)) as [d1 E1].
      rewrite E1. simpl.
      destruct (tomorrow_spec _ _ V E1) as [V1 O1].
      apply tomorrow_returns; [exact V1 | ].
      unfold weekday in *. rewrite O1. Z.div_mod_to_equations. lia.
    - destruct (weekday w_date =? 6) eqn:C6; unbool.
      + apply tomorrow_returns; [exact V | lia].
      + eexists; reflexivity. }
  destruct T as [d E]. exists d. split; [exact E | ].
  destruct (weekend_rollover_spec _ _ V E) as [Vd _].
  split; [exact Vd | ].
  unfold weekend_rollover in E.
  destruct (weekday w_date =? 5) eqn:C5; unbool.
  - inv_bind E. destruct (tomorrow_spec _ _ V Ha) as [V1 O1].
    destruct (tomorrow_spec _ _ V1 E) as [V2 O2].
    cbn [orb]. unfold weekday in *. rewrite O2, O1.
    repeat split; try lia; Z.div_mod_to_equations; lia.
  - destruct (weekday w_date =? 6) eqn:C6; unbool.
    + destruct (tomorrow_spec _ _ V E) as [V1 O1].
      cbn [orb]. unfold weekday in *. rewrite O1.
      repeat split; try lia; Z.div_mod_to_equations; lia.
    + inversion E; subst d. cbn [orb]. repeat split; lia.
Qed.

Lemma weekend_rollover_monday_witness :
  exists d,
    weekend_rollover (mkdate 2014 9 20) = Ret d
    /\ valid d = true
    /\ toordinal d
       = toordinal (mkdate 2014 9 20)
         + (if weekday (mkdate 2014 9 20) =? 5 then 2
            else if weekday (mkdate 2014 9 20) =? 6 then 1 else 0)
    /\ weekday d
       = (if (weekday (mkdate 2014 9 20) =? 5)
             || (weekday (mkdate 2014 9 20) =? 6) then 0
          else weekday (mkdate 2014 9 20))
    /\ weekday d <= 4.
Proof.
  apply (weekend_rollover_monday (mkdate 2014 9 20)). reflexivity.
Defined.

(** X2: rolling a rolled date changes nothing. *)
Theorem weekend_rollover_idempotent (w_date d : date) :
  valid w_date = true -> weekend_rollover w_date = Ret d ->
  weekend_rollover d = Ret d.
Proof.
  intros V E. destruct (weekend_rollover_weekday _ _ V E) as [W5 W6].
  apply weekend_rollover_id; assumption.
Qed.

Lemma weekend_rollover_idempotent_witness :
  weekend_rollover (mkdate 2014 9 22) = Ret (mkdate 2014 9 22).
Proof.
  apply (weekend_rollover_idempotent (mkdate 2014 9 20) (mkdate 2014 9 22));
    reflexivity.
Defined.

End WeekendRoll.

(** ** Payment dates *)

Section PaymentDates.

Local Open Scope Z_scope.

(** X3: for any list of anchors, a date returned by [next_payment_date] is
    a valid date strictly later than the input and is never a Saturday or a
    Sunday. *)
Theorem next_payment_date_later_weekday (fuel : nat) (current_date : date)
  (payment_dates : list date) (d : date) :
  valid current_date = true ->
  next_payment_date fuel current_date payment_dates = Ret d ->
  valid d = true /\ date_ltb current_date d = true
  /\ 0 < days_between d current_date /\ weekday d <= 4.
Proof.
  intros V H.
  destruct (next_payment_date_later _ _ _ _ V H) as [Vd L].
  destruct (next_payment_date_weekday _ _ _ _ V H) as [W5 W6].
  pose proof (weekday_range d).
  split; [exact Vd | ]. split; [apply date_ltb_iff; assumption | ].
  unfold days_between. lia.
Qed.

Lemma next_payment_date_later_weekday_witness :
  valid (mkdate 2014 12 22) = true
  /\ date_ltb (mkdate 2014 9 22) (mkdate 2014 12 22) = true
  /\ 0 < days_between (mkdate 2014 12 22) (mkdate 2014 9 22)
  /\ weekday (mkdate 2014 12 22) <= 4.
Proof.
  apply (next_payment_date_later_weekday 13 (mkdate 2014 9 22)
           standard_cds_payment_dates (mkdate 2014 12 22));
    reflexivity.
Defined.

Lemma date_ltb_spec (a b : date) :
  date_ltb a b = true <->
  year a < year b
  \/ (year a = year b
      /\ (month a < month b \/ (month a = month b /\ day a < day b))).
Proof.
  unfold date_ltb.
  rewrite orb_true_iff, andb_true_iff, orb_true_iff, andb_true_iff.
  rewrite !Z.ltb_lt, !Z.eqb_eq. tauto.
Qed.

Lemma date_leb_spec (a b : date) :
  date_leb a b = true <->
  ~ (year b < year a
     \/ (year b = year a
         /\ (month b < month a \/ (month b = month a /\ day b < day a)))).
Proof.
  unfold date_leb. rewrite negb_true_iff, <- date_ltb_spec.
  destruct (date_ltb b a).
  - split; [discriminate | intros N; exfalso; apply N; reflexivity].
  - split; [intros _ N; discriminate N | reflexivity].
Qed.

Lemma spaced_cycle_inv (c : list date) :
  spaced_cycle c = true ->
  exists p0 p1 p2 p3,
    c = [p0; p1; p2; p3]
    /\ 1 < month p0 /\ month p0 + 1 < month p1 /\ month p1 + 1 < month p2
    /\ month p2 + 1 < month p3 /\ month p3 <= 12
    /\ 1 <= day p0 <= 26
    /\ day p1 = day p0 /\ day p2 = day p0 /\ day p3 = day p0.
Proof.
  destruct c as [ | p0 [ | p1 [ | p2 [ | p3 [ | ? ?]]]]]; try discriminate.
  unfold spaced_cycle. intros H. unbool.
  exists p0, p1, p2, p3. repeat split; assumption.
Qed.

Lemma spaced_cycle_regular (c : list date) :
  spaced_cycle c = true -> regular_cycle c = true.
Proof.
  intros H. destruct (spaced_cycle_inv c H)
    as (p0 & p1 & p2 & p3 & -> & H0 & H1 & H2 & H3 & H4 & Hd & D1 & D2 & D3).
  unfold regular_cycle, regular_anchor. simpl.
  rewrite !andb_true_iff, Z.ltb_lt, !Z.leb_le. lia.
Qed.

Lemma anchor_date_inv (p0 p1 p2 p3 x : date) :
  day p1 = day p0 -> day p2 = day p0 -> day p3 = day p0 ->
  anchor_date [p0; p1; p2; p3] x = true ->
  (month x = month p0 \/ month x = month p1 \/ month x = month p2
   \/ month x = month p3) /\ day x = day p0.
Proof.
  intros D1 D2 D3 H. unfold anchor_date in H. simpl in H.
  rewrite !orb_true_iff, !andb_true_iff, !Z.eqb_eq in H. lia.
Qed.

Lemma anchor_date_intro (c : list date) (p : date) (y : Z) :
  In p c -> anchor_date c (mkdate y (month p) (day p)) = true.
Proof.
  intros I. unfold anchor_date. apply existsb_exists. exists p.
  split; [exact I | ]. simpl. rewrite !Z.eqb_refl. reflexivity.
Qed.

(** The raw anchor behind a returned payment date, for a spaced cycle. *)
Lemma next_payment_date_earliest_aux (c : list date) (fuel : nat) :
  spaced_cycle c = true ->
  forall (cur d : date),
  in_cycle_range c cur = true -> valid cur = true ->
  next_payment_date fuel cur c = Ret d ->
  exists a,
    valid a = true /\ anchor_date c a = true /\ date_ltb cur a = true
    /\ weekend_rollover a = Ret d
    /\ (forall x, anchor_date c x = true -> date_ltb cur x = true ->
          date_leb a x = true).
Proof.
  intros Hc. destruct (spaced_cycle_inv c Hc)
    as (p0 & p1 & p2 & p3 & -> & H0 & H1 & H2 & H3 & H4 & Hd & D1 & D2 & D3).
  induction fuel as [ | fuel IH]; intros cur d Hr V H; [discriminate | ].
  unfold in_cycle_range in Hr. apply orb_true_iff in Hr.
  rewrite Z.leb_le, Z.leb_le in Hr.
  cbn [next_payment_date] in H.
  rewrite (in_gap_eval cur [p0; p1; p2; p3] 0 p0 p1 eq_refl eq_refl) in H.
  rewrite (in_gap_eval cur [p0; p1; p2; p3] 1 p1 p2 eq_refl eq_refl) in H.
  rewrite (in_gap_eval cur [p0; p1; p2; p3] 2 p2 p3 eq_refl eq_refl) in H.
  unfold anchor_in_year, between_anchors in H.
  cbn [item nth_error bind] in H.
  inv_bind H. rename a into pd.
  assert (Direct : forall p,
            In p [p0; p1; p2; p3] ->
            new_date (year cur) (month p) (day p) = Ret pd ->
            month cur < month p
            \/ (month cur = month p /\ day cur < day p) ->
            (forall x, (month x = month p0 \/ month x = month p1
                        \/ month x = month p2 \/ month x = month p3) ->
                       day x = day p0 ->
                       year x = year cur ->
                       month cur < month x
                       \/ (month cur = month x /\ day cur < day x) ->
                       month p <= month x) ->
            exists a,
              valid a = true /\ anchor_date [p0; p1; p2; p3] a = true
              /\ date_ltb cur a = true /\ weekend_rollover a = Ret d
              /\ (forall x, anchor_date [p0; p1; p2; p3] x = true ->
                    date_ltb cur x = true -> date_leb a x = true)).
  { intros p Ip N L E. apply new_date_inv in N. destruct N as [-> Va].
    exists (mkdate (year cur) (month p) (day p)).
    split; [exact Va | ]. split; [apply anchor_date_intro; exact Ip | ].
    split; [apply date_ltb_spec; simpl; lia | ]. split; [exact H | ].
    intros x Ax Lx. apply (anchor_date_inv p0 p1 p2 p3 x D1 D2 D3) in Ax.
    destruct Ax as [Mx Dx]. apply date_ltb_spec in Lx.
    apply date_leb_spec. simpl.
    assert (Dp : day p = day p0).
    { simpl in Ip. destruct Ip as [<- | [<- | [<- | [<- | []]]]]; lia. }
    destruct (Z.eq_dec (year x) (year cur)) as [Ey | Ney].
    - pose proof (E x Mx Dx Ey ltac:(lia)). lia.
    - lia. }
  destruct (month cur <? month p0) eqn:C0; unbool.
  { apply (Direct p0); [simpl; tauto | exact Ha | lia | intros; lia]. }
  destruct ((month p0 <? month cur) && (month cur <? month p1)) eqn:C1;
    unbool.
  { apply (Direct p1); [simpl; tauto | exact Ha | lia | intros; lia]. }
  destruct ((month p1 <? month cur) && (month cur <? month p2)) eqn:C2;
    unbool.
  { apply (Direct p2); [simpl; tauto | exact Ha | lia | intros; lia]. }
  destruct ((month p2 <? month cur) && (month cur <? month p3)) eqn:C3;
    unbool.
  { apply (Direct p3); [simpl; tauto | exact Ha | lia | intros; lia]. }
  destruct (day cur <? day p0) eqn:Cd; unbool.
  - assert (exists p, In p [p0; p1; p2; p3] /\ month p = month cur
                      /\ day p = day p0) as (p & Ip & Mp & Dp).
    { assert (month cur = month p0 \/ month cur = month p1
              \/ month cur = month p2 \/ month cur = month p3) as M by lia.
      destruct M as [M | [M | [M | M]]];
        [exists p0 | exists p1 | exists p2 | exists p3];
        (split; [simpl; tauto | split; [symmetry; exact M | lia]]). }
    rewrite <- Mp, <- Dp in Ha.
    apply (Direct p); [exact Ip | exact Ha | lia | intros; lia].
  - inv_bind Ha. rename a into nxt.
    destruct (add_month_spec _ _ V Ha0) as (Vn & Ln & Sn & Dn).
    destruct (next_payment_date_weekday _ _ _ _ Vn Ha) as [W5 W6].
    rewrite (weekend_rollover_id pd W5 W6) in H. inversion H; subst d.
    assert (Rn : in_cycle_range [p0; p1; p2; p3] nxt = true).
    { unfold in_cycle_range. apply orb_true_iff. right. apply Z.leb_le. lia. }
    destruct (IH nxt pd Rn Vn Ha) as (a & Va & Aa & La & Ra & Ea).
    exists a. split; [exact Va | ]. split; [exact Aa | ].
    apply date_ltb_spec in Ln. apply date_ltb_spec in La.
    split; [apply date_ltb_spec; lia | ]. split; [exact Ra | ].
    intros x Ax Lx. apply Ea; [exact Ax | ].
    apply (anchor_date_inv p0 p1 p2 p3 x D1 D2 D3) in Ax.
    destruct Ax as [Mx Dx]. apply date_ltb_spec in Lx.
    apply date_ltb_spec. lia.
Qed.

(** X4: on a spaced cycle (the standard and the non-standard cycle are
    such), for a valid input date before year 9999 that is not in a month
    after the last anchor month before the anchor day, [next_payment_date]
    returns the weekend roll of the earliest anchor date strictly after the
    input. *)
Theorem next_payment_date_earliest_anchor (payment_dates : list date)
  (current_date : date) :
  spaced_cycle payment_dates = true ->
  in_cycle_range payment_dates current_date = true ->
  valid current_date = true -> year current_date < 9999 ->
  exists a d,
    next_payment_date 13 current_date payment_dates = Ret d
    /\ weekend_rollover a = Ret d
    /\ valid a = true /\ anchor_date payment_dates a = true
    /\ date_ltb current_date a = true
    /\ (forall x, anchor_date payment_dates x = true ->
          date_ltb current_date x = true -> date_leb a x = true).
Proof.
  intros Hc Hr V Hy.
  destruct (next_payment_date_total current_date payment_dates V
              (spaced_cycle_regular _ Hc) Hy) as [d Hd].
  destruct (next_payment_date_earliest_aux payment_dates 13 Hc
              current_date d Hr V Hd) as (a & Va & Aa & La & Ra & Ea).
  exists a, d. repeat split; assumption.
Qed.

Lemma next_payment_date_earliest_anchor_witness :
  exists a d,
    next_payment_date 13 (mkdate 2014 11 17) nonstandard_cds_payment_dates
    = Ret d
    /\ weekend_rollover a = Ret d
    /\ valid a = true /\ anchor_date nonstandard_cds_payment_dates a = true
    /\ date_ltb (mkdate 2014 11 17) a = true
    /\ (forall x, anchor_date nonstandard_cds_payment_dates x = true ->
          date_ltb (mkdate 2014 11 17) x = true -> date_leb a x = true).
Proof.
  apply (next_payment_date_earliest_anchor nonstandard_cds_payment_dates
           (mkdate 2014 11 17)).
  - reflexivity.
  - reflexivity.
  - reflexivity.
  - simpl. lia.
Defined.

(** X5: on a spaced cycle, an input in a month after the last anchor month
    and before the anchor day gets the anchor day of its own month, weekend
    rolled, which is no anchor date of the cycle. *)
Theorem next_payment_date_after_last_anchor_month (p0 p1 p2 p3 : date)
  (fuel : nat) (current_date : date) :
  spaced_cycle [p0; p1; p2; p3] = true ->
  valid current_date = true ->
  month p3 < month current_date -> day current_date < day p0 ->
  exists d,
    next_payment_date (S fuel) current_date [p0; p1; p2; p3] = Ret d
    /\ weekend_rollover
         (mkdate (year current_date) (month current_date) (day p0)) = Ret d
    /\ anchor_date [p0; p1; p2; p3]
         (mkdate (year current_date) (month current_date) (day p0)) = false.
Proof.
  intros Hc V Hm Hday.
  destruct (spaced_cycle_inv _ Hc)
    as (q0 & q1 & q2 & q3 & E & H0 & H1 & H2 & H3 & H4 & Hd & D1 & D2 & D3).
  inversion E; subst q0 q1 q2 q3; clear E.
  pose proof V as V'. apply valid_spec in V'. destruct V' as (Vy & Vm & Vd).
  pose proof (days_in_month_bounds (year current_date) (month current_date)
                Vm) as B.
  assert (Va : valid (mkdate (year current_date) (month current_date)
                        (day p0)) = true)
    by (apply valid_spec; simpl; lia).
  destruct (weekend_rollover_total _ Va ltac:(simpl; lia)) as [d Ed].
  exists d. split; [ | split; [exact Ed | ]].
  - cbn [next_payment_date].
    rewrite (in_gap_eval current_date [p0; p1; p2; p3] 0 p0 p1 eq_refl
               eq_refl).
    rewrite (in_gap_eval current_date [p0; p1; p2; p3] 1 p1 p2 eq_refl
               eq_refl).
    rewrite (in_gap_eval current_date [p0; p1; p2; p3] 2 p2 p3 eq_refl
               eq_refl).
    unfold between_anchors. cbn [item nth_error bind].
    replace (month current_date <? month p0) with false
      by (symmetry; apply Z.ltb_ge; lia).
    replace (month current_date <? month p1) with false
      by (symmetry; apply Z.ltb_ge; lia).
    replace (month current_date <? month p2) with false
      by (symmetry; apply Z.ltb_ge; lia).
    replace (month current_date <? month p3) with false
      by (symmetry; apply Z.ltb_ge; lia).
    rewrite !andb_false_r. cbn [bind].
    replace (day current_date <? day p0) with true
      by (symmetry; apply Z.ltb_lt; lia).
    unfold new_date. unfold valid in Va. simpl in Va. rewrite Va.
    cbn [bind]. exact Ed.
  - unfold anchor_date. simpl.
    replace (month p0 =? month current_date) with false
      by (symmetry; apply Z.eqb_neq; lia).
    replace (month p1 =? month current_date) with false
      by (symmetry; apply Z.eqb_neq; lia).
    replace (month p2 =? month current_date) with false
      by (symmetry; apply Z.eqb_neq; lia).
    replace (month p3 =? month current_date) with false
      by (symmetry; apply Z.eqb_neq; lia).
    reflexivity.
Qed.

Lemma next_payment_date_after_last_anchor_month_witness :
  exists d,
    next_payment_date 1 (mkdate 2015 12 5) nonstandard_cds_payment_dates
    = Ret d
    /\ weekend_rollover (mkdate 2015 12 15) = Ret d
    /\ anchor_date nonstandard_cds_payment_dates (mkdate 2015 12 15) = false.
Proof.
  apply (next_payment_date_after_last_anchor_month (mkdate 2014 2 15)
           (mkdate 2014 5 15) (mkdate 2014 8 15) (mkdate 2014 11 15) 0
           (mkdate 2015 12 5)).
  - reflexivity.
  - reflexivity.
  - simpl. lia.
  - simpl. lia.
Defined.

End PaymentDates.

(** ** Subintervals of the protection leg *)

Section Subintervals.

Local Open Scope R_scope.

Lemma K_bounds (T : R) : 12 * T <= IZR (K T) < 12 * T + 1.
Proof.
  unfold K, py_ceil. destruct (base_Int_part (- (12 * T))) as [H1 H2].
  rewrite opp_IZR. lra.
Qed.

(** X6: [K(T)] is the ceiling of [12 T]; [s(k, T)] raises
    [ZeroDivisionError] exactly when [-1/12 < T <= 0]; for [T > 0] the
    points [s(0, T), ..., s(K, T)] go from 0 to [T] in steps of [T / K],
    which are positive and at most one twelfth of a year. *)
Theorem s_partition (T : R) :
  12 * T <= IZR (K T) < 12 * T + 1
  /\ (forall k, s k T = Raise ZeroDivisionError <-> - (1 / 12) < T <= 0)
  /\ (0 < T ->
      (1 <= K T)%Z
      /\ (exists x, s 0 T = Ret x /\ x = 0)
      /\ (exists x, s (K T) T = Ret x /\ x = T)
      /\ (forall k, exists x y,
            s k T = Ret x /\ s (k + 1) T = Ret y
            /\ y - x = T / IZR (K T) /\ 0 < y - x <= 1 / 12)).
Proof.
  pose proof (K_bounds T) as B. split; [exact B | ]. split.
  - intros k. unfold s. destruct (K T =? 0)%Z eqn:E.
    + apply Z.eqb_eq in E. rewrite E in B.
      split; [intros _; lra | reflexivity].
    + apply Z.eqb_neq in E. split; [discriminate | ].
      intros H. exfalso. apply E.
      assert (-1 < IZR (K T) < 1) by lra.
      destruct H0 as [L U]. apply lt_IZR in L. apply lt_IZR in U. lia.
  - intros HT.
    assert (HK : (1 <= K T)%Z) by (apply py_ceil_pos; lra).
    assert (P : 0 < IZR (K T)) by (apply IZR_lt; lia).
    assert (N : (K T =? 0)%Z = false) by (apply Z.eqb_neq; lia).
    split; [exact HK | ]. unfold s. rewrite N.
    split; [eexists; split; [reflexivity | field; lra] | ].
    split; [eexists; split; [reflexivity | field; lra] | ].
    intros k. do 2 eexists. split; [reflexivity | ].
    split; [reflexivity | ].
    assert (E : IZR (k + 1) * T / IZR (K T) - IZR k * T / IZR (K T)
                = T / IZR (K T)) by (rewrite plus_IZR; field; lra).
    split; [exact E | ]. rewrite E. split.
    + apply Rdiv_lt_0_compat; assumption.
    + apply Rmult_le_reg_r with (IZR (K T)); [exact P | ].
      unfold Rdiv. rewrite Rmult_assoc, Rinv_l by lra. lra.
Qed.

Lemma s_partition_witness :
  (1 <= K (205 / 360))%Z
  /\ (exists x, s 0 (205 / 360) = Ret x /\ x = 0)
  /\ (exists x, s (K (205 / 360)) (205 / 360) = Ret x /\ x = 205 / 360)
  /\ (forall k, exists x y,
        s k (205 / 360) = Ret x /\ s (k + 1) (205 / 360) = Ret y
        /\ y - x = 205 / 360 / IZR (K (205 / 360))
        /\ 0 < y - x <= 1 / 12).
Proof.
  apply (proj2 (proj2 (s_partition (205 / 360)))). lra.
Defined.

End Subintervals.

(** ** Survival function *)

Section SurvivalEdges.

Local Open Scope R_scope.

Variable M : market.

Lemma py_int_nonneg_le (x : R) : 0 <= x -> (0 <= py_int x)%Z.
Proof.
  intros H. pose proof (py_int_le 0 x ltac:(lra) H) as P.
  replace 0 with (IZR 0) in P at 1 by reflexivity.
  rewrite py_int_IZR in P. exact P.
Qed.



End SurvivalEdges.


Section SurvivalErrors.

Local Open Scope R_scope.

Variable M : market.

Lemma solved_sum_raises (e : Z) (prev_h : hmap) (m : date) (post : list date)
  (err : exn) :
  (toordinal m < e)%Z ->
  (forall x, (v <- getitem prev_h m ;; mul_value v x) = Raise err) ->
  forall (pre : list date) (st : date),
  all_before e pre = true -> forallb (covered prev_h e) pre = true ->
  solved_sum e prev_h st (pre ++ m :: post) = Raise err.
Proof.
  intros Lm Hm. induction pre as [ | p pre IH]; intros st B C.
  - cbn [app solved_sum].
    replace (toordinal m <? e)%Z with true by (symmetry; apply Z.ltb_lt; lia).
    specialize (Hm (IZR (toordinal m - toordinal st) / 360)).
    destruct (getitem prev_h m) as [v | x | ]; cbn [bind] in *.
    + destruct (mul_value v _); try discriminate. exact Hm.
    + exact Hm.
    + discriminate.
  - simpl in B, C. apply andb_true_iff in B. apply andb_true_iff in C.
    destruct B as [B1 B2]. destruct C as [C1 C2].
    change ((p :: pre) ++ m :: post) with (p :: (pre ++ m :: post)).
    cbn [solved_sum]. rewrite B1. unfold covered in C1. rewrite B1 in C1.
    destruct (getitem prev_h p) as [[ | x] | | ]; try discriminate.
    cbn [bind mul_value]. rewrite (IH p B2 C2). reflexivity.
Qed.

(** X8: [Q_h] raises [OverflowError] when the target date is after
    9999-12-31; otherwise, when the first pillar before the target date that
    has no float in the map is missing from it, [Q_h] raises [KeyError], and
    when it holds [None], [TypeError]. *)
Theorem Q_h_errors (t : R) (h_i : value) (prev_h : hmap) :
  valid (effective_date M) = true -> 0 <= t ->
  ((MAXORDINAL < target M t)%Z ->
   Q_h M t h_i prev_h = Raise OverflowError)
  /\ (forall pre m post,
        (target M t <= MAXORDINAL)%Z ->
        spread_maturity_dates M = pre ++ m :: post ->
        all_before (target M t) pre = true ->
        forallb (covered prev_h (target M t)) pre = true ->
        (toordinal m < target M t)%Z ->
        (getitem prev_h m = Raise KeyError ->
         Q_h M t h_i prev_h = Raise KeyError)
        /\ (getitem prev_h m = Ret VNone ->
            Q_h M t h_i prev_h = Raise TypeError)).
Proof.
  intros Ve Ht. split.
  - intros H. unfold Q_h, plus_days. fold (target M t).
    replace (target M t <=? MAXORDINAL)%Z with false
      by (symmetry; apply Z.leb_gt; exact H).
    rewrite andb_false_r. reflexivity.
  - intros pre m post Hmax Hp B C Lm.
    pose proof (py_int_nonneg_le (t * 360) ltac:(lra)) as P.
    assert (E : forall err,
              (forall x, (v <- getitem prev_h m ;; mul_value v x)
                         = Raise err) ->
              Q_h M t h_i prev_h = Raise err).
    { intros err Hm. unfold Q_h.
      rewrite plus_days_returns
        by (try assumption; unfold target in Hmax; lia).
      cbn [bind]. fold (target M t).
      rewrite (Q_h_loop_closed M (target M t) h_i prev_h
                 (spread_maturity_dates M) 0 (effective_date M) 0
                 eq_refl eq_refl).
      rewrite Hp.
      rewrite (solved_sum_raises (target M t) prev_h m post err Lm Hm pre
                 (effective_date M) B C).
      reflexivity. }
    split; intros G; apply E; intros x; rewrite G; reflexivity.
Qed.

Lemma solved_sum_frame (e : Z) (prev1 prev2 : hmap) :
  forall (rest : list date) (st : date),
  (forall p, In p rest -> (toordinal p < e)%Z ->
             getitem prev1 p = getitem prev2 p) ->
  solved_sum e prev1 st rest = solved_sum e prev2 st rest.
Proof.
  induction rest as [ | m rest IH]; intros st H; [reflexivity | ].
  cbn [solved_sum]. destruct (toordinal m <? e)%Z eqn:B; [ | reflexivity].
  rewrite (H m (or_introl eq_refl)) by (apply Z.ltb_lt; exact B).
  rewrite (IH m) by (intros p Hp; apply H; right; exact Hp).
  reflexivity.
Qed.

Lemma Q_h_frame (t : R) (h_i : value) (prev1 prev2 : hmap) :
  (forall p, In p (spread_maturity_dates M) ->
             (toordinal p < target M t)%Z ->
             getitem prev1 p = getitem prev2 p) ->
  Q_h M t h_i prev1 = Q_h M t h_i prev2
  /\ diff_Q_h M t h_i prev1 = diff_Q_h M t h_i prev2.
Proof.
  intros H.
  assert (E : Q_h M t h_i prev1 = Q_h M t h_i prev2).
  { unfold Q_h.
    destruct (plus_days (effective_date M) (py_int (t * 360)))
      as [e | err | ] eqn:P; try reflexivity.
    apply plus_days_target in P. subst e. cbn [bind].
    rewrite !(Q_h_loop_closed M (target M t) h_i _
                (spread_maturity_dates M) 0 (effective_date M) 0
                eq_refl eq_refl).
    rewrite (solved_sum_frame (target M t) prev1 prev2 _ _ H).
    reflexivity. }
  split; [exact E | ]. rewrite !diff_Q_h_closed, E. reflexivity.
Qed.

(** X9: [Q_h] and [diff_Q_h] read the map only at pillars strictly before
    the target date: two maps that agree there give the same result. *)
Theorem Q_h_reads_earlier_pillars (t : R) (h_i : value)
  (prev1 prev2 : hmap) :
  (forall p, In p (spread_maturity_dates M) ->
             (toordinal p < target M t)%Z ->
             getitem prev1 p = getitem prev2 p) ->
  Q_h M t h_i prev1 = Q_h M t h_i prev2
  /\ diff_Q_h M t h_i prev1 = diff_Q_h M t h_i prev2.
Proof.
  exact (Q_h_frame t h_i prev1 prev2).
Qed.

End SurvivalErrors.

Lemma Q_h_errors_witness :
  Q_h notebook_market (IZR 4000000 / 360) (VFloat (1 / 100)) []
  = Raise OverflowError
  /\ Q_h notebook_market (IZR 300 / 360) (VFloat (1 / 100)) []
     = Raise KeyError
  /\ Q_h notebook_market (IZR 300 / 360) (VFloat (1 / 100))
       [(mkdate 2014 9 22, VNone)]
     = Raise TypeError.
Proof.
  split; [ | split].
  - apply (proj1 (Q_h_errors notebook_market (IZR 4000000 / 360)
                    (VFloat (1 / 100)) [] eq_refl ltac:(lra))).
    rewrite target_notebook. reflexivity.
  - apply (proj1 (proj2 (Q_h_errors notebook_market (IZR 300 / 360)
                    (VFloat (1 / 100)) [] eq_refl ltac:(lra))
             [] (mkdate 2014 9 22)
             (tl (spread_maturity_dates notebook_market))
             ltac:(rewrite target_notebook; vm_compute; discriminate)
             eq_refl eq_refl eq_refl
             ltac:(rewrite target_notebook; reflexivity))).
    reflexivity.
  - apply (proj2 (proj2 (Q_h_errors notebook_market (IZR 300 / 360)
                    (VFloat (1 / 100)) [(mkdate 2014 9 22, VNone)]
                    eq_refl ltac:(lra))
             [] (mkdate 2014 9 22)
             (tl (spread_maturity_dates notebook_market))
             ltac:(rewrite target_notebook; vm_compute; discriminate)
             eq_refl eq_refl eq_refl
             ltac:(rewrite target_notebook; reflexivity))).
    reflexivity.
Defined.

Lemma Q_h_reads_earlier_pillars_witness :
  Q_h notebook_market (IZR 90 / 360) (VFloat (1 / 100)) []
  = Q_h notebook_market (IZR 90 / 360) (VFloat (1 / 100))
      [(mkdate 2014 9 22, VFloat 2)]
  /\ diff_Q_h notebook_market (IZR 90 / 360) (VFloat (1 / 100)) []
     = diff_Q_h notebook_market (IZR 90 / 360) (VFloat (1 / 100))
         [(mkdate 2014 9 22, VFloat 2)].
Proof.
  apply (Q_h_reads_earlier_pillars notebook_market (IZR 90 / 360)
           (VFloat (1 / 100)) [] [(mkdate 2014 9 22, VFloat 2)]).
  intros p Hp. rewrite target_notebook. simpl in Hp.
  repeat (destruct Hp as [<- | Hp]; [vm_compute; discriminate | ]).
  contradiction.
Defined.

(** ** Exceptions of the valuation *)

Section ValuationExceptions.

Local Open Scope R_scope.

Variable M : market.

Lemma getitem_raises (m : hmap) (k : date) (e : exn) :
  getitem m k = Raise e -> e = KeyError.
Proof.
  induction m as [ | [k' v] m IH]; simpl; intros H.
  - inversion H. reflexivity.
  - destruct (date_eqb k' k); [discriminate | exact (IH H)].
Qed.

Lemma solved_sum_raises_only (e : Z) (prev_h : hmap) (err : exn) :
  forall (rest : list date) (st : date),
  solved_sum e prev_h st rest = Raise err ->
  err = KeyError \/ err = TypeError.
Proof.
  induction rest as [ | m rest IH]; intros st H; [discriminate | ].
  cbn [solved_sum] in H. destruct (toordinal m <? e)%Z; [ | discriminate].
  destruct (getitem prev_h m) as [[ | x] | e' | ] eqn:G; cbn [bind] in H;
    try discriminate.
  - inversion H. right. reflexivity.
  - cbn [mul_value bind] in H.
    destruct (solved_sum e prev_h m rest) eqn:S; cbn [bind] in H;
      try discriminate.
    inversion H; subst. apply (IH m S).
  - apply getitem_raises in G. inversion H; subst. left. reflexivity.
Qed.

Lemma Q_h_raises_only (t h_i : R) (prev_h : hmap) (err : exn) :
  Q_h M t (VFloat h_i) prev_h = Raise err ->
  err = KeyError \/ err = TypeError \/ err = OverflowError.
Proof.
  rewrite Q_h_closed. unfold plus_days.
  destruct (_ && _); cbn [bind]; intros H.
  - destruct (solved_sum _ _ _ _) eqn:S; cbn [bind] in H; try discriminate.
    inversion H; subst. apply solved_sum_raises_only in S. tauto.
  - inversion H. tauto.
Qed.

Lemma diff_Q_h_raises_only (t h_i : R) (prev_h : hmap) (err : exn) :
  diff_Q_h M t (VFloat h_i) prev_h = Raise err ->
  err = KeyError \/ err = TypeError \/ err = OverflowError.
Proof.
  rewrite diff_Q_h_closed.
  destruct (Q_h M t (VFloat h_i) prev_h) eqn:Q; cbn [bind]; intros H;
    try discriminate.
  inversion H; subst. apply (Q_h_raises_only _ _ _ _ Q).
Qed.

Lemma item_raises {A : Type} (l : list A) (i : nat) (err : exn) :
  item l i = Raise err -> err = IndexError.
Proof.
  unfold item. destruct (nth_error l i); intros H; inversion H. reflexivity.
Qed.

Lemma new_date_raises (y m d : Z) (err : exn) :
  new_date y m d = Raise err -> err = ValueError.
Proof.
  unfold new_date. destruct (valid_ymd y m d); intros H; inversion H.
  reflexivity.
Qed.

Lemma tomorrow_raises (d : date) (err : exn) :
  tomorrow d = Raise err -> err = OverflowError.
Proof.
  unfold tomorrow.
  destruct (day d <? _)%Z; [discriminate | ].
  destruct (month d <? 12)%Z; [discriminate | ].
  destruct (year d <? MAXYEAR)%Z; [discriminate | ].
  intros H. inversion H. reflexivity.
Qed.

Lemma weekend_rollover_raises (w : date) (err : exn) :
  weekend_rollover w = Raise err -> err = OverflowError.
Proof.
  unfold weekend_rollover.
  destruct (weekday w =? 5)%Z.
  - destruct (tomorrow w) eqn:T; cbn [bind]; intros H; try discriminate.
    + apply (tomorrow_raises _ _ H).
    + inversion H; subst. apply (tomorrow_raises _ _ T).
  - destruct (weekday w =? 6)%Z; [apply tomorrow_raises | discriminate].
Qed.

Lemma in_gap_raises (cur : date) (c : list date) (i : nat) (err : exn) :
  in_gap cur c i = Raise err -> err = IndexError.
Proof.
  unfold in_gap. destruct (item c i) eqn:I; cbn [bind]; intros H;
    try discriminate.
  - destruct (month a <? month cur)%Z; [ | discriminate].
    destruct (item c (S i)) eqn:J; cbn [bind] in H; try discriminate.
    inversion H; subst. apply (item_raises _ _ _ J).
  - inversion H; subst. apply (item_raises _ _ _ I).
Qed.

Lemma anchor_in_year_raises (cur : date) (c : list date) (i : nat)
  (err : exn) :
  anchor_in_year cur c i = Raise err -> calendar_error err.
Proof.
  unfold anchor_in_year, calendar_error.
  destruct (item c i) eqn:I; cbn [bind]; intros H; try discriminate.
  - apply new_date_raises in H. tauto.
  - inversion H; subst. apply item_raises in I. tauto.
Qed.

Lemma next_payment_date_raises (fuel : nat) :
  forall (cur : date) (c : list date) (err : exn),
  next_payment_date fuel cur c = Raise err -> calendar_error err.
Proof.
  induction fuel as [ | fuel IH]; intros cur c err H; [discriminate | ].
  cbn [next_payment_date] in H.
  destruct (item c 0) as [p0 | e0 | ] eqn:I0; cbn [bind] in H;
    try discriminate;
    [ | inversion H; subst; apply item_raises in I0; left; exact I0].
  match type of H with
  | bind ?body _ = _ => destruct body as [pd | e1 | ] eqn:B
  end; cbn [bind] in H; try discriminate.
  { apply weekend_rollover_raises in H. right. right. exact H. }
  inversion H; subst e1. clear H.
  destruct (month cur <? month p0)%Z;
    [apply (anchor_in_year_raises _ _ _ _ B) | ].
  destruct (in_gap cur c 0) as [[ | ] | e | ] eqn:G1; cbn [bind] in B;
    try discriminate;
    [apply (anchor_in_year_raises _ _ _ _ B) | |
     inversion B; subst; apply in_gap_raises in G1; left; exact G1].
  destruct (in_gap cur c 1) as [[ | ] | e | ] eqn:G2; cbn [bind] in B;
    try discriminate;
    [apply (anchor_in_year_raises _ _ _ _ B) | |
     inversion B; subst; apply in_gap_raises in G2; left; exact G2].
  destruct (in_gap cur c 2) as [[ | ] | e | ] eqn:G3; cbn [bind] in B;
    try discriminate;
    [apply (anchor_in_year_raises _ _ _ _ B) | |
     inversion B; subst; apply in_gap_raises in G3; left; exact G3].
  destruct (day cur <? day p0)%Z.
  { apply new_date_raises in B. right. left. exact B. }
  destruct (add_month cur) as [nxt | e | ] eqn:A; cbn [bind] in B;
    try discriminate.
  - apply (IH _ _ _ B).
  - inversion B; subst. unfold add_month in A. apply new_date_raises in A.
    right. left. exact A.
Qed.

Lemma legs_protection_range_raises (surv : R -> res R) (T : R) (err : exn) :
  (forall x e, surv x = Raise e -> valuation_error e) ->
  forall (ks : list Z) (b : R),
  (ks = [] \/ K T <> 0%Z) ->
  legs_protection surv T ks b = Raise err -> valuation_error err.
Proof.
  intros Hs. induction ks as [ | k ks IH]; intros b Hk H; [discriminate | ].
  destruct Hk as [Hk | Hk]; [discriminate | ].
  cbn [legs_protection] in H. unfold s in H.
  replace (K T =? 0)%Z with false in H by (symmetry; apply Z.eqb_neq; exact Hk).
  cbn [bind] in H.
  destruct (surv (IZR k * T / IZR (K T))) eqn:S1; cbn [bind] in H;
    try discriminate; [ | inversion H; subst; apply (Hs _ _ S1)].
  destruct (surv (IZR (k + 1) * T / IZR (K T))) eqn:S2; cbn [bind] in H;
    try discriminate; [ | inversion H; subst; apply (Hs _ _ S2)].
  apply (IH _ (or_intror Hk) H).
Qed.

Lemma range_empty_or_K (T : R) : range (K T) = [] \/ K T <> 0%Z.
Proof.
  destruct (Z.eq_dec (K T) 0) as [E | N]; [left | right; exact N].
  rewrite E. reflexivity.
Qed.

Lemma legs_premium_raises (surv : R -> res R) (m : date) (c : list date)
  (err : exn) :
  (forall x e, surv x = Raise e -> valuation_error e) ->
  forall (fuel : nat) (cur nxt : date) (d : R),
  legs_premium M surv fuel m c cur nxt d = Raise err ->
  valuation_error err.
Proof.
  intros Hs. induction fuel as [ | fuel IH]; intros cur nxt d H;
    [discriminate | ].
  cbn [legs_premium] in H. destruct (date_leb nxt m); [ | discriminate].
  destruct (surv (year_fraction M cur)) eqn:S1; cbn [bind] in H;
    try discriminate; [ | inversion H; subst; apply (Hs _ _ S1)].
  destruct (surv (year_fraction M nxt)) eqn:S2; cbn [bind] in H;
    try discriminate; [ | inversion H; subst; apply (Hs _ _ S2)].
  destruct (next_payment_date (S fuel) nxt c) eqn:N; cbn [bind] in H;
    try discriminate.
  - apply (IH _ _ _ H).
  - inversion H; subst. apply next_payment_date_raises in N.
    unfold calendar_error, valuation_error in *. tauto.
Qed.

Lemma index_from_raises (l : list date) (x : date) (err : exn) :
  forall i, index_from l x i = Raise err -> err = ValueError.
Proof.
  induction l as [ | y l IH]; intros i H; simpl in H.
  - inversion H. reflexivity.
  - destruct (date_eqb y x); [discriminate | apply (IH _ H)].
Qed.

Lemma legs_value_raises (surv : R -> res R) (fuel : nat) (m : date)
  (c : list date) (rec : R) (err : exn) :
  (forall x e, surv x = Raise e -> valuation_error e) ->
  legs_value M surv fuel m c rec = Raise err -> valuation_error err.
Proof.
  intros Hs H. unfold legs_value in H.
  destruct (legs_protection _ _ _ _) eqn:P; cbn [bind] in H;
    try discriminate;
    [ | inversion H; subst;
        apply (legs_protection_range_raises surv _ _ Hs _ _
                 (range_empty_or_K _) P)].
  destruct (index_from _ _ _) eqn:I; cbn [bind] in H; try discriminate;
    [ | inversion H; subst; apply index_from_raises in I;
        unfold valuation_error; tauto].
  destruct (item _ _) eqn:J; cbn [bind] in H; try discriminate;
    [ | inversion H; subst; apply item_raises in J;
        unfold valuation_error; tauto].
  destruct (next_payment_date _ _ _) eqn:N; cbn [bind] in H;
    try discriminate;
    [ | inversion H; subst; apply next_payment_date_raises in N;
        unfold calendar_error, valuation_error in *; tauto].
  destruct (legs_premium _ _ _ _ _ _ _ _) eqn:L; cbn [bind] in H;
    try discriminate.
  inversion H; subst. apply (legs_premium_raises surv _ _ _ Hs _ _ _ _ L).
Qed.

Lemma diff_Q_h_not_fuel (t h_i : R) (prev_h : hmap) :
  diff_Q_h M t (VFloat h_i) prev_h <> OutOfFuel.
Proof.
  rewrite diff_Q_h_closed. pose proof (Q_h_not_fuel M t h_i prev_h) as N.
  destruct (Q_h M t (VFloat h_i) prev_h); cbn [bind]; try discriminate.
  contradiction.
Qed.

(** X10: in exact arithmetic (floating-point errors are outside the model),
    on a regular cycle of payment dates and dates before year 9999, where
    the recursion of [next_payment_date] and the premium loop end,
    [standard_cds_mtm_value] and [d_standard_cds_mtm_value] return or raise
    one of [KeyError], [TypeError], [OverflowError], [ValueError] and
    [IndexError]; in particular the division by [K(T)] in [s] never raises
    [ZeroDivisionError] there, since [s] is only called for [k] in
    [range(K(T))]. *)
Theorem standard_cds_mtm_value_exceptions (fuel : nat) (h_i : R)
  (maturity_date : date) (prev_h : hmap) (payment_dates : list date)
  (rec : R) :
  valid (effective_date M) = true -> valid maturity_date = true ->
  (year (effective_date M) < 9999)%Z -> (year maturity_date < 9999)%Z ->
  regular_cycle payment_dates = true ->
  (13 + horizon M maturity_date <= fuel)%nat ->
  standard_cds_mtm_value M fuel h_i maturity_date prev_h payment_dates rec
  <> OutOfFuel
  /\ d_standard_cds_mtm_value M fuel h_i maturity_date prev_h payment_dates
       rec <> OutOfFuel
  /\ (forall err,
        standard_cds_mtm_value M fuel h_i maturity_date prev_h payment_dates
          rec = Raise err
        \/ d_standard_cds_mtm_value M fuel h_i maturity_date prev_h
             payment_dates rec = Raise err ->
        valuation_error err /\ err <> ZeroDivisionError).
Proof.
  intros Ve Vm Hye Hym Hc Hf.
  split; [ | split].
  - rewrite standard_cds_mtm_value_legs_value.
    apply legs_value_not_fuel; try assumption.
    intros x. apply Q_h_not_fuel.
  - rewrite d_standard_cds_mtm_value_legs_value.
    apply legs_value_not_fuel; try assumption.
    intros x. apply diff_Q_h_not_fuel.
  - intros err.
    assert (N : valuation_error err -> err <> ZeroDivisionError).
    { unfold valuation_error. intros [-> | [-> | [-> | [-> | ->]]]];
        discriminate. }
    intros [H | H].
    + rewrite standard_cds_mtm_value_legs_value in H.
      apply legs_value_raises in H; [split; [exact H | exact (N H)] | ].
      intros x e Q. apply Q_h_raises_only in Q.
      unfold valuation_error. tauto.
    + rewrite d_standard_cds_mtm_value_legs_value in H.
      apply legs_value_raises in H; [split; [exact H | exact (N H)] | ].
      intros x e Q. apply diff_Q_h_raises_only in Q.
      unfold valuation_error. tauto.
Qed.

End ValuationExceptions.

Lemma standard_cds_mtm_value_exceptions_witness :
  standard_cds_mtm_value notebook_market 600 (1 / 100)%R (mkdate 2015 3 20)
    [(mkdate 2014 9 22, VNone)] standard_cds_payment_dates (45 / 100)%R
  <> OutOfFuel
  /\ valuation_error TypeError /\ TypeError <> ZeroDivisionError.
Proof.
  destruct (standard_cds_mtm_value_exceptions notebook_market 600
              (1 / 100)%R (mkdate 2015 3 20) [(mkdate 2014 9 22, VNone)]
              standard_cds_payment_dates (45 / 100)%R)
    as (H1 & _ & H3).
  - reflexivity.
  - reflexivity.
  - simpl. lia.
  - simpl. lia.
  - reflexivity.
  - vm_compute. lia.
  - split; [exact H1 | ]. apply (H3 TypeError). left.
    apply (standard_cds_mtm_value_after_failure notebook_market 600
             (1 / 100)%R (mkdate 2014 9 22) (mkdate 2015 3 20)
             (tl (tl (spread_maturity_dates notebook_market))));
      try reflexivity.
    vm_compute. split; [discriminate | reflexivity].
Defined.

(** ** What the valuation reads, and where it fails *)

Section ValuationFrame.

Local Open Scope R_scope.

Variable M : market.

Lemma target_year_fraction (dt : date) :
  target M (year_fraction M dt) = toordinal dt.
Proof.
  unfold target, year_fraction, days_between.
  replace (IZR (toordinal dt - toordinal (effective_date M)) / 360 * 360)
    with (IZR (toordinal dt - toordinal (effective_date M))) by field.
  rewrite py_int_IZR. lia.
Qed.

Lemma target_subinterval (m : date) (k : Z) :
  0 < year_fraction M m -> (0 <= k <= K (year_fraction M m))%Z ->
  (target M (IZR k * year_fraction M m / IZR (K (year_fraction M m)))
   <= toordinal m)%Z.
Proof.
  intros HT Hk.
  assert (HK : (1 <= K (year_fraction M m))%Z) by (apply py_ceil_pos; lra).
  pose proof (subinterval_bounds k _ _ HT Hk HK) as [B0 B1].
  remember (IZR k * year_fraction M m / IZR (K (year_fraction M m))) as x.
  assert (P : (0 <= py_int (x * 360)
               <= toordinal m - toordinal (effective_date M))%Z).
  { apply py_int_bounds. unfold year_fraction, days_between in B1. lra. }
  unfold target. lia.
Qed.


Lemma legs_protection_ext (surv1 surv2 : R -> res R) (T : R) :
  forall (ks : list Z) (b : R),
  (forall k, In k ks -> K T <> 0%Z ->
     surv1 (IZR k * T / IZR (K T)) = surv2 (IZR k * T / IZR (K T))
     /\ surv1 (IZR (k + 1) * T / IZR (K T))
        = surv2 (IZR (k + 1) * T / IZR (K T))) ->
  legs_protection surv1 T ks b = legs_protection surv2 T ks b.
Proof.
  induction ks as [ | k ks IH]; intros b H; [reflexivity | ].
  cbn [legs_protection]. unfold s.
  destruct (K T =? 0)%Z eqn:E; [reflexivity | ].
  apply Z.eqb_neq in E.
  destruct (H k (or_introl eq_refl) E) as [E1 E2].
  cbn [bind]. rewrite E1, E2.
  destruct (surv2 (IZR k * T / IZR (K T))); cbn [bind]; try reflexivity.
  destruct (surv2 (IZR (k + 1) * T / IZR (K T))); cbn [bind];
    try reflexivity.
  apply IH. intros k' Hk'. apply H. right. exact Hk'.
Qed.

Lemma legs_premium_ext (surv1 surv2 : R -> res R) (m : date)
  (c : list date) :
  valid m = true ->
  (forall dt, valid dt = true -> (toordinal dt <= toordinal m)%Z ->
     surv1 (year_fraction M dt) = surv2 (year_fraction M dt)) ->
  forall (fuel : nat) (cur nxt : date) (d : R),
  valid cur = true -> valid nxt = true ->
  (toordinal cur < toordinal nxt)%Z ->
  legs_premium M surv1 fuel m c cur nxt d
  = legs_premium M surv2 fuel m c cur nxt d.
Proof.
  intros Vm H. induction fuel as [ | fuel IH]; intros cur nxt d Vc Vn L;
    [reflexivity | ].
  cbn [legs_premium]. destruct (date_leb nxt m) eqn:B; [ | reflexivity].
  apply (date_leb_iff nxt m Vn Vm) in B.
  rewrite (H cur Vc ltac:(lia)), (H nxt Vn B).
  destruct (surv2 (year_fraction M cur)); cbn [bind]; try reflexivity.
  destruct (surv2 (year_fraction M nxt)); cbn [bind]; try reflexivity.
  destruct (next_payment_date (S fuel) nxt c) as [n' | e | ] eqn:N;
    cbn [bind]; try reflexivity.
  destruct (next_payment_date_later _ _ _ _ Vn N) as [Vn' L'].
  apply IH; assumption.
Qed.

Lemma legs_value_ext (surv1 surv2 : R -> res R) (fuel : nat) (m : date)
  (c : list date) (rec : R) :
  valid (effective_date M) = true -> valid m = true ->
  (forall x, (target M x <= toordinal m)%Z -> surv1 x = surv2 x) ->
  legs_value M surv1 fuel m c rec = legs_value M surv2 fuel m c rec.
Proof.
  intros Ve Vm H. unfold legs_value.
  rewrite (legs_protection_ext surv1 surv2).
  2:{ intros k Hk HK. apply range_In in Hk.
      destruct (Rlt_dec 0 (year_fraction M m)) as [HT | HT].
      - split; apply H; apply target_subinterval; try assumption; lia.
      - exfalso.
        assert (K (year_fraction M m) <= 0)%Z
          by (apply py_ceil_nonpos; lra).
        lia. }
  destruct (legs_protection surv2 _ _ _); cbn [bind]; try reflexivity.
  destruct (index_from _ _ _); cbn [bind]; try reflexivity.
  destruct (item _ _); cbn [bind]; try reflexivity.
  destruct (next_payment_date _ _ _) as [nxt | | ] eqn:N; cbn [bind];
    try reflexivity.
  destruct (next_payment_date_later _ _ _ _ Ve N) as [Vn L].
  rewrite (legs_premium_ext surv1 surv2 m c Vm); try assumption;
    [reflexivity | ].
  intros dt Vd Hd. apply H. rewrite target_year_fraction. exact Hd.
Qed.

Lemma standard_cds_mtm_value_frame (fuel : nat) (h_i : R)
  (maturity_date : date) (prev1 prev2 : hmap) (payment_dates : list date)
  (rec : R) :
  valid (effective_date M) = true -> valid maturity_date = true ->
  (forall p, In p (spread_maturity_dates M) ->
             (toordinal p < toordinal maturity_date)%Z ->
             getitem prev1 p = getitem prev2 p) ->
  standard_cds_mtm_value M fuel h_i maturity_date prev1 payment_dates rec
  = standard_cds_mtm_value M fuel h_i maturity_date prev2 payment_dates rec
  /\ d_standard_cds_mtm_value M fuel h_i maturity_date prev1 payment_dates
       rec
     = d_standard_cds_mtm_value M fuel h_i maturity_date prev2 payment_dates
         rec.
Proof.
  intros Ve Vm H.
  assert (F : forall x, (target M x <= toordinal maturity_date)%Z ->
              Q_h M x (VFloat h_i) prev1 = Q_h M x (VFloat h_i) prev2
              /\ diff_Q_h M x (VFloat h_i) prev1
                 = diff_Q_h M x (VFloat h_i) prev2).
  { intros x Hx. apply Q_h_frame. intros p Hp L. apply H; [exact Hp | lia]. }
  rewrite !standard_cds_mtm_value_legs_value,
    !d_standard_cds_mtm_value_legs_value.
  split; apply legs_value_ext; try assumption; intros x Hx.
  - exact (proj1 (F x Hx)).
  - exact (proj2 (F x Hx)).
Qed.

(** X11: the valuation of a pillar and its derivative read the map only at
    pillars strictly before the maturity date: two maps that agree there
    give the same results, whatever they hold at the maturity date and
    after. *)
Theorem standard_cds_mtm_value_reads_earlier_pillars (fuel : nat) (h_i : R)
  (maturity_date : date) (prev1 prev2 : hmap) (payment_dates : list date)
  (rec : R) :
  valid (effective_date M) = true -> valid maturity_date = true ->
  (forall p, In p (spread_maturity_dates M) ->
             (toordinal p < toordinal maturity_date)%Z ->
             getitem prev1 p = getitem prev2 p) ->
  standard_cds_mtm_value M fuel h_i maturity_date prev1 payment_dates rec
  = standard_cds_mtm_value M fuel h_i maturity_date prev2 payment_dates rec
  /\ d_standard_cds_mtm_value M fuel h_i maturity_date prev1 payment_dates
       rec
     = d_standard_cds_mtm_value M fuel h_i maturity_date prev2 payment_dates
         rec.
Proof.
  exact (standard_cds_mtm_value_frame fuel h_i maturity_date prev1 prev2
           payment_dates rec).
Qed.








Lemma newton_raphson_method_at_root (f d_f : R -> date -> hmap -> res R)
  (m : date) (prev_h : hmap) (eps : R) (fuel : nat) (x val : R) :
  f x m prev_h = Ret val -> Rabs val <= eps ->
  newton_raphson_method f d_f m prev_h eps (S fuel) x = Ret (VFloat x).
Proof.
  intros Hf Hv. unfold newton_raphson_method, newton_trace. rewrite Hf.
  cbn [newton_loop]. destruct (Rgt_dec (Rabs val) eps) as [G | G];
    [lra | reflexivity].
Qed.

Lemma standard_cds_mtm_value_degenerate (fuel : nat) (h_i : R)
  (maturity_date : date) (prev_h : hmap) (payment_dates : list date)
  (rec : R) (i : nat) (sp : R) (nxt : date) :
  valid (effective_date M) = true -> valid maturity_date = true ->
  (toordinal maturity_date <= toordinal (effective_date M))%Z ->
  index_from (spread_maturity_dates M) maturity_date 0 = Ret i ->
  item (map snd (spread_data M)) i = Ret sp ->
  next_payment_date (S fuel) (effective_date M) payment_dates = Ret nxt ->
  standard_cds_mtm_value M (S fuel) h_i maturity_date prev_h payment_dates
    rec = Ret 0
  /\ d_standard_cds_mtm_value M (S fuel) h_i maturity_date prev_h
       payment_dates rec = Ret 0.
Proof.
  intros Ve Vm L I J N.
  destruct (next_payment_date_later _ _ _ _ Ve N) as [Vn Ln].
  assert (HT : year_fraction M maturity_date <= 0).
  { unfold year_fraction, days_between.
    assert (IZR (toordinal maturity_date - toordinal (effective_date M))
            <= 0) by (apply IZR_le; lia).
    lra. }
  assert (HK : range (K (year_fraction M maturity_date)) = []).
  { apply range_nonpos. apply py_ceil_nonpos. lra. }
  assert (B : date_leb nxt maturity_date = false).
  { destruct (date_leb nxt maturity_date) eqn:D; [ | reflexivity].
    apply (date_leb_iff nxt maturity_date Vn Vm) in D. lia. }
  assert (V : forall surv,
            legs_value M surv (S fuel) maturity_date payment_dates rec
            = Ret 0).
  { intros surv. unfold legs_value. rewrite HK. cbn [legs_protection bind].
    rewrite I. cbn [bind]. rewrite J. cbn [bind]. rewrite N. cbn [bind].
    cbn [legs_premium]. rewrite B. cbn [bind]. f_equal. lra. }
  rewrite standard_cds_mtm_value_legs_value,
    d_standard_cds_mtm_value_legs_value.
  split; apply V.
Qed.

(** X14: for a pillar on or before the effective date, the valuation and its
    derivative are 0 for every candidate rate and every map: both legs are
    empty sums.  The root finder then returns its initial guess 0.01 for
    that pillar, whatever the spread. *)
Theorem standard_cds_mtm_value_at_effective_date (fuel : nat) (h_i : R)
  (maturity_date : date) (prev_h : hmap) (payment_dates : list date)
  (rec : R) (i : nat) (sp : R) (nxt : date) :
  valid (effective_date M) = true -> valid maturity_date = true ->
  (toordinal maturity_date <= toordinal (effective_date M))%Z ->
  index_from (spread_maturity_dates M) maturity_date 0 = Ret i ->
  item (map snd (spread_data M)) i = Ret sp ->
  next_payment_date (S fuel) (effective_date M) payment_dates = Ret nxt ->
  standard_cds_mtm_value M (S fuel) h_i maturity_date prev_h payment_dates
    rec = Ret 0
  /\ d_standard_cds_mtm_value M (S fuel) h_i maturity_date prev_h
       payment_dates rec = Ret 0
  /\ newton_raphson_method
       (fun h d p =>
          standard_cds_mtm_value M (S fuel) h d p payment_dates rec)
       (fun h d p =>
          d_standard_cds_mtm_value M (S fuel) h d p payment_dates rec)
       maturity_date prev_h (1 / 1000000) (S fuel) (1 / 100)
     = Ret (VFloat (1 / 100)).
Proof.
  intros Ve Vm L I J N.
  pose proof (fun h =>
                standard_cds_mtm_value_degenerate fuel h maturity_date
                  prev_h payment_dates rec i sp nxt Ve Vm L I J N) as D.
  split; [exact (proj1 (D h_i)) | ].
  split; [exact (proj2 (D h_i)) | ].
  apply (newton_raphson_method_at_root _ _ _ _ _ _ _ 0
           (proj1 (D (1 / 100)))).
  rewrite Rabs_R0. lra.
Qed.

End ValuationFrame.

Lemma standard_cds_mtm_value_reads_earlier_pillars_witness :
  standard_cds_mtm_value notebook_market 600 (1 / 100)%R (mkdate 2014 9 22)
    [] standard_cds_payment_dates (45 / 100)%R
  = standard_cds_mtm_value notebook_market 600 (1 / 100)%R
      (mkdate 2014 9 22) [(mkdate 2014 9 22, VFloat 2)]
      standard_cds_payment_dates (45 / 100)%R
  /\ d_standard_cds_mtm_value notebook_market 600 (1 / 100)%R
       (mkdate 2014 9 22) [] standard_cds_payment_dates (45 / 100)%R
     = d_standard_cds_mtm_value notebook_market 600 (1 / 100)%R
         (mkdate 2014 9 22) [(mkdate 2014 9 22, VFloat 2)]
         standard_cds_payment_dates (45 / 100)%R.
Proof.
  apply (standard_cds_mtm_value_reads_earlier_pillars notebook_market 600
           (1 / 100)%R (mkdate 2014 9 22) []
           [(mkdate 2014 9 22, VFloat 2)] standard_cds_payment_dates
           (45 / 100)%R eq_refl eq_refl).
  intros p Hp. simpl in Hp.
  repeat (destruct Hp as [<- | Hp]; [vm_compute; discriminate | ]).
  contradiction.
Defined.



Lemma standard_cds_mtm_value_at_effective_date_witness :
  standard_cds_mtm_value single_pillar_market 14 (3 / 100)%R
    (mkdate 2014 9 22) [] standard_cds_payment_dates (45 / 100)%R
  = Ret 0%R
  /\ d_standard_cds_mtm_value single_pillar_market 14 (3 / 100)%R
       (mkdate 2014 9 22) [] standard_cds_payment_dates (45 / 100)%R
     = Ret 0%R
  /\ newton_raphson_method
       (fun h d p =>
          standard_cds_mtm_value single_pillar_market 14 h d p
            standard_cds_payment_dates (45 / 100)%R)
       (fun h d p =>
          d_standard_cds_mtm_value single_pillar_market 14 h d p
            standard_cds_payment_dates (45 / 100)%R)
       (mkdate 2014 9 22) [] (1 / 1000000)%R 14 (1 / 100)%R
     = Ret (VFloat (1 / 100)%R).
Proof.
  apply (standard_cds_mtm_value_at_effective_date single_pillar_market 13
           (3 / 100)%R (mkdate 2014 9 22) [] standard_cds_payment_dates
           (45 / 100)%R 0%nat (10307 / 100)%R (mkdate 2014 12 22)
           eq_refl eq_refl).
  - vm_compute. discriminate.
  - reflexivity.
  - reflexivity.
  - reflexivity.
Defined.

(** ** The root finder and the calibration loop *)

Section NewtonResults.

Local Open Scope R_scope.

Variables f d_f : R -> date -> hmap -> res NanAware.fnum.
Variable maturity_date : date.
Variable prev_h : hmap.
Variable eps : R.
Variable x0 : R.

Local Abbreviation nreached :=
  (NanAware.iterate f d_f maturity_date prev_h eps x0).

Lemma nan_iterate_value (x : R) (val : NanAware.fnum) :
  nreached x val -> f x maturity_date prev_h = Ret val.
Proof.
  intros It. destruct It as [val F | x v diff val' _ _ _ _ F]; exact F.
Qed.

(** X15: with the results of [f] and [d_f] taken as floats that may be NaN
    and the step [x - val / diff] computed exactly (an overflow in the
    step, which [np.seterr] may turn into [FloatingPointError], is outside
    the model), a number returned by [newton_raphson_method] is an iterate
    of the Newton step from the initial guess at which [|f(x)| <= eps] or
    [f(x)] is NaN; and an exception comes from [f] at the initial guess, or
    from [d_f] at an iterate [x] with [|f(x)| > eps], or from [f] at the
    next point after a division by a derivative above the floor. *)
Theorem newton_raphson_method_results (fuel : nat) :
  (forall x,
     NanAware.newton_raphson_method f d_f maturity_date prev_h eps fuel x0
     = Ret (VFloat x) ->
     exists val,
       nreached x val
       /\ (val = NanAware.NaN
           \/ exists v, val = NanAware.Num v /\ Rabs v <= eps))
  /\ (forall e,
        NanAware.newton_raphson_method f d_f maturity_date prev_h eps fuel
          x0 = Raise e ->
        f x0 maturity_date prev_h = Raise e
        \/ exists x v,
             nreached x (NanAware.Num v) /\ Rabs v > eps
             /\ (d_f x maturity_date prev_h = Raise e
                 \/ exists diff,
                      d_f x maturity_date prev_h
                      = Ret (NanAware.Num diff)
                      /\ Rabs diff > derivative_floor
                      /\ f (x - v / diff) maturity_date prev_h
                         = Raise e)).
Proof.
  split.
  - intros x H.
    unfold NanAware.newton_raphson_method, NanAware.newton_trace in H.
    destruct (f x0 maturity_date prev_h) as [val | e | ] eqn:F;
      try discriminate.
    pose proof (NanAware.iterate_first f d_f maturity_date prev_h eps x0
                  val F) as It.
    destruct (nan_newton_loop_reached f d_f maturity_date prev_h eps x0
                fuel x0 val x It H) as [val' It'].
    exists val'. split; [exact It' | ].
    pose proof (nan_iterate_value x val' It') as V.
    destruct (nan_newton_loop_float f d_f maturity_date prev_h eps fuel x0
                val x F H) as [N | (v & N & B)];
      rewrite V in N; inversion N; subst val'.
    + left. reflexivity.
    + right. exists v. split; [reflexivity | exact B].
  - intros e H.
    unfold NanAware.newton_raphson_method, NanAware.newton_trace in H.
    destruct (f x0 maturity_date prev_h) as [val | e' | ] eqn:F;
      try discriminate.
    + right.
      apply (nan_newton_loop_raise f d_f maturity_date prev_h eps x0 fuel
               x0 val e
               (NanAware.iterate_first f d_f maturity_date prev_h eps x0
                  val F) H).
    + left. simpl in H. inversion H. reflexivity.
Qed.

End NewtonResults.

Section NewtonAffine.

Local Open Scope R_scope.

(** X16: in exact arithmetic, on an affine function [a * x + b] with its
    derivative [a], [|a|] above the derivative floor, the root finder
    returns the exact root [-b / a] after one Newton step when the initial
    guess is not within the tolerance, and the initial guess itself when it
    is. *)
Theorem newton_raphson_method_affine (a b : R) (maturity_date : date)
  (prev_h : hmap) (eps : R) (fuel : nat) (x0 : R) :
  Rabs a > derivative_floor -> 0 <= eps ->
  newton_raphson_method (fun x _ _ => Ret (a * x + b)) (fun _ _ _ => Ret a)
    maturity_date prev_h eps (S (S fuel)) x0
  = Ret (VFloat (if Rgt_dec (Rabs (a * x0 + b)) eps
                 then x0 - (a * x0 + b) / a else x0))
  /\ (Rabs (a * x0 + b) > eps ->
      a * (x0 - (a * x0 + b) / a) + b = 0).
Proof.
  intros Ha He.
  assert (Na : a <> 0).
  { intros E. subst a. rewrite Rabs_R0 in Ha.
    pose proof derivative_floor_bounds. lra. }
  assert (Z : a * (x0 - (a * x0 + b) / a) + b = 0) by (field; exact Na).
  split; [ | intros _; exact Z].
  unfold newton_raphson_method, newton_trace.
  rewrite newton_loop_unfold.
  destruct (Rgt_dec (Rabs (a * x0 + b)) eps) as [G | G]; [ | reflexivity].
  destruct (Rgt_dec (Rabs a) derivative_floor) as [G' | G']; [ | lra].
  cbn [fst snd]. rewrite Z. destruct fuel as [ | fuel].
  - cbn [newton_loop snd].
    destruct (Rgt_dec (Rabs 0) eps) as [G0 | G0]; [ | reflexivity].
    rewrite Rabs_R0 in G0. lra.
  - rewrite newton_loop_unfold.
    destruct (Rgt_dec (Rabs 0) eps) as [G0 | G0]; [ | reflexivity].
    rewrite Rabs_R0 in G0. lra.
Qed.

End NewtonAffine.

Section CalibrationTrace.

Local Open Scope R_scope.

Variables f d_f : R -> date -> hmap -> res R.

Lemma setitem_new (m : hmap) (k : date) (v : value) :
  ~ In k (map fst m) -> setitem m k v = m ++ [(k, v)].
Proof.
  induction m as [ | [k' v'] m IH]; intros H; [reflexivity | ].
  simpl in *. destruct (date_eqb k' k) eqn:E.
  - apply date_eqb_eq in E. tauto.
  - rewrite IH by tauto. reflexivity.
Qed.

Lemma calibrate_trace (fuel : nat) :
  forall (mat_dates : list date) (h_values h_values' : hmap) (st : res unit),
  NoDup (map fst h_values ++ mat_dates) ->
  calibrate f d_f fuel mat_dates h_values = (h_values', st) ->
  exists added,
    h_values' = h_values ++ added
    /\ map fst added = firstn (length added) mat_dates
    /\ (st = Ret tt -> length added = length mat_dates)
    /\ (forall j m v,
          nth_error added j = Some (m, v) ->
          newton_raphson_method f d_f m (h_values ++ firstn j added)
            (1 / 1000000) fuel (1 / 100) = Ret v).
Proof.
  induction mat_dates as [ | m rest IH]; intros hv hv' st ND C.
  - inversion C; subst. exists []. rewrite app_nil_r.
    repeat split; try reflexivity.
    intros j m v H. destruct j; discriminate.
  - cbn [calibrate] in C.
    destruct (newton_raphson_method f d_f m hv (1 / 1000000) fuel (1 / 100))
      as [h | e | ] eqn:N.
    + assert (Hm : ~ In m (map fst hv)).
      { intros I. apply NoDup_remove_2 in ND. apply ND.
        apply in_or_app. left. exact I. }
      rewrite (setitem_new hv m h Hm) in C.
      destruct (IH (hv ++ [(m, h)]) hv' st) as (added & E & Ks & Full & Nw);
        [ | exact C | ].
      { rewrite map_app. simpl. rewrite <- app_assoc. exact ND. }
      exists ((m, h) :: added). split; [ | split; [ | split]].
      * rewrite E, <- app_assoc. reflexivity.
      * simpl. rewrite Ks. reflexivity.
      * intros S. simpl. rewrite (Full S). reflexivity.
      * intros j m' v H. destruct j as [ | j].
        -- simpl in H. inversion H; subst. simpl. rewrite app_nil_r.
           exact N.
        -- simpl in H. simpl firstn.
           replace (hv ++ (m, h) :: firstn j added)
             with ((hv ++ [(m, h)]) ++ firstn j added)
             by (rewrite <- app_assoc; reflexivity).
           apply (Nw j m' v H).
    + inversion C; subst. exists []. rewrite app_nil_r.
      split; [reflexivity | ]. split; [reflexivity | ].
      split; [discriminate | ].
      intros j m' v H. destruct j; discriminate.
    + inversion C; subst. exists []. rewrite app_nil_r.
      split; [reflexivity | ]. split; [reflexivity | ].
      split; [discriminate | ].
      intros j m' v H. destruct j; discriminate.
Qed.

Lemma newton_raphson_method_float (m : date) (prev_h : hmap) (eps : R)
  (fuel : nat) (x0 x : R) :
  newton_raphson_method f d_f m prev_h eps fuel x0 = Ret (VFloat x) ->
  exists val, f x m prev_h = Ret val /\ Rabs val <= eps.
Proof.
  intros H. unfold newton_raphson_method, newton_trace in H.
  destruct (f x0 m prev_h) as [val | e | ] eqn:F; try discriminate.
  apply (newton_loop_float f d_f m prev_h eps fuel x0 val x F H).
Qed.

(** X17: the calibration loop only appends to the map it is started with:
    it adds one entry per pillar it goes through, in the order of the pillar
    list, never changing an earlier entry; the value stored for a pillar is
    what the root finder returned on the entries before it, and a stored
    number [h] has [|f(h)| <= 1e-6] for the map as it was then. *)
Theorem calibrate_appends_roots (fuel : nat) (mat_dates : list date)
  (h_values h_values' : hmap) (st : res unit) :
  NoDup (map fst h_values ++ mat_dates) ->
  calibrate f d_f fuel mat_dates h_values = (h_values', st) ->
  exists added,
    h_values' = h_values ++ added
    /\ map fst added = firstn (length added) mat_dates
    /\ (st = Ret tt -> length added = length mat_dates)
    /\ (forall j m h,
          nth_error added j = Some (m, VFloat h) ->
          exists val,
            f h m (h_values ++ firstn j added) = Ret val
            /\ Rabs val <= 1 / 1000000).
Proof.
  intros ND C.
  destruct (calibrate_trace fuel mat_dates h_values h_values' st ND C)
    as (added & E & Ks & Full & Nw).
  exists added. repeat split; try assumption.
  intros j m h H.
  apply (newton_raphson_method_float m _ _ fuel (1 / 100) h (Nw j m _ H)).
Qed.

End CalibrationTrace.

Lemma newton_raphson_method_affine_witness :
  newton_raphson_method (fun x _ _ => Ret (2 * x + -1)%R)
    (fun _ _ _ => Ret 2%R) (mkdate 2014 9 22) [] (1 / 1000000)%R 2
    (1 / 100)%R
  = Ret (VFloat (if Rgt_dec (Rabs (2 * (1 / 100) + -1)) (1 / 1000000)
                 then (1 / 100 - (2 * (1 / 100) + -1) / 2)%R
                 else (1 / 100)%R))
  /\ ((Rabs (2 * (1 / 100) + -1) > 1 / 1000000)%R ->
      (2 * (1 / 100 - (2 * (1 / 100) + -1) / 2) + -1 = 0)%R).
Proof.
  apply (newton_raphson_method_affine 2 (-1) (mkdate 2014 9 22) []
           (1 / 1000000) 0 (1 / 100)).
  - pose proof derivative_floor_bounds. rewrite Rabs_right; lra.
  - lra.
Defined.

Lemma newton_raphson_method_results_witness :
  exists val,
    NanAware.iterate (NanAware.lift identity_value)
      (NanAware.lift identity_derivative) (mkdate 2014 9 22) []
      (1 / 1000000)%R (1 / 100)%R (1 / 100 - 1 / 100 / 1)%R val
    /\ (val = NanAware.NaN
        \/ exists v, val = NanAware.Num v /\ (Rabs v <= 1 / 1000000)%R).
Proof.
  apply (proj1 (newton_raphson_method_results
                  (NanAware.lift identity_value)
                  (NanAware.lift identity_derivative) (mkdate 2014 9 22) []
                  (1 / 1000000)%R (1 / 100)%R 2)).
  rewrite nan_newton_raphson_method_on_numbers.
  apply newton_identity_returns.
Defined.


(** ** The calibration cell reprices the pillars it solved *)

Section CellRoundTrip.

Local Open Scope R_scope.

Lemma ascending_lower (l : list date) :
  forall o, ascending o l = true ->
  forall p, In p l -> (o < toordinal p)%Z.
Proof.
  induction l as [ | m l IH]; intros o A p Hp; [contradiction | ].
  simpl in A. apply andb_true_iff in A. destruct A as [A1 A2].
  apply Z.ltb_lt in A1. destruct Hp as [E | Hp]; [subst p; exact A1 | ].
  pose proof (IH _ A2 p Hp). lia.
Qed.

Lemma ascending_NoDup (l : list date) :
  forall o, ascending o l = true -> NoDup l.
Proof.
  induction l as [ | m l IH]; intros o A; [constructor | ].
  simpl in A. apply andb_true_iff in A. destruct A as [A1 A2].
  constructor; [ | apply (IH _ A2)].
  intros I. pose proof (ascending_lower l _ A2 m I). lia.
Qed.

Lemma ascending_firstn (l : list date) :
  forall n o, ascending o l = true -> ascending o (firstn n l) = true.
Proof.
  induction l as [ | m l IH]; intros n o A; [destruct n; reflexivity | ].
  destruct n as [ | n]; [reflexivity | ].
  simpl in *. apply andb_true_iff in A. destruct A as [A1 A2].
  rewrite A1. apply (IH n _ A2).
Qed.

Lemma getitem_below (l : hmap) (o : Z) (p : date) :
  ascending o (map fst l) = true -> (toordinal p <= o)%Z ->
  getitem l p = Raise KeyError.
Proof.
  revert o. induction l as [ | [k v] l IH]; intros o A L; [reflexivity | ].
  simpl in *. apply andb_true_iff in A. destruct A as [A1 A2].
  apply Z.ltb_lt in A1.
  destruct (date_eqb k p) eqn:E.
  - apply date_eqb_eq in E. subst k. lia.
  - apply (IH _ A2). lia.
Qed.

Lemma getitem_firstn_ascending (l : hmap) :
  forall o j m v p,
  ascending o (map fst l) = true ->
  nth_error l j = Some (m, v) -> (toordinal p < toordinal m)%Z ->
  getitem (firstn j l) p = getitem l p.
Proof.
  induction l as [ | [k w] l IH]; intros o j m v p A N L;
    [destruct j; discriminate | ].
  destruct j as [ | j].
  - simpl in N. inversion N; subst. cbn [firstn].
    change (getitem [] p) with (@Raise value KeyError).
    symmetry. apply (getitem_below _ (toordinal m - 1)); [ | lia].
    simpl in *. apply andb_true_iff in A. destruct A as [_ A2].
    rewrite A2. replace (toordinal m - 1 <? toordinal m)%Z with true
      by (symmetry; apply Z.ltb_lt; lia).
    reflexivity.
  - simpl in N. cbn [firstn getitem].
    destruct (date_eqb k p); [reflexivity | ].
    simpl in A. apply andb_true_iff in A. destruct A as [_ A2].
    apply (IH _ j m v p A2 N L).
Qed.

Lemma getitem_nth (l : hmap) (m : date) (v : value) :
  getitem l m = Ret v -> exists j, nth_error l j = Some (m, v).
Proof.
  induction l as [ | [k w] l IH]; intros H; [discriminate | ].
  simpl in H. destruct (date_eqb k m) eqn:E.
  - apply date_eqb_eq in E. inversion H; subst. exists 0%nat. reflexivity.
  - destruct (IH H) as [j Hj]. exists (S j). exact Hj.
Qed.

Lemma chronological_ascending (M : market) :
  chronological M = true ->
  exists o, ascending o (spread_maturity_dates M) = true.
Proof.
  unfold chronological. destruct (spread_maturity_dates M) as [ | m l].
  - intros _. exists 0%Z. reflexivity.
  - intros H. apply andb_true_iff in H. destruct H as [_ H].
    exists (toordinal m - 1)%Z. simpl. rewrite H.
    replace (toordinal m - 1 <? toordinal m)%Z with true
      by (symmetry; apply Z.ltb_lt; lia).
    reflexivity.
Qed.

Lemma In_firstn {A : Type} (l : list A) :
  forall n x, In x (firstn n l) -> In x l.
Proof.
  induction l as [ | a l IH]; intros n x H; [destruct n; exact H | ].
  destruct n as [ | n]; [contradiction | ].
  simpl in H. destruct H as [E | H]; [left; exact E | right].
  apply (IH n x H).
Qed.

(** X18: on valid dates with pillar dates strictly increasing from the
    effective date on, every number [h] the notebook's calibration cell
    leaves in the map for a pillar makes the valuation of that pillar, on
    the final map, at most 1e-6 in absolute value: later entries do not
    disturb the pillars solved before them. *)
Theorem h_values_cell_reprices (M : market) (fuel : nat) (h_values : hmap)
  (st : res unit) (m : date) (h : R) :
  valid (effective_date M) = true ->
  forallb valid (spread_maturity_dates M) = true ->
  chronological M = true ->
  h_values_cell M fuel = (h_values, st) ->
  getitem h_values m = Ret (VFloat h) ->
  exists val,
    standard_cds_mtm_value M fuel h m h_values standard_cds_payment_dates
      (45 / 100) = Ret val
    /\ Rabs val <= 1 / 1000000.
Proof.
  intros Ve Vp Ch C G.
  destruct (chronological_ascending M Ch) as [o A].
  unfold h_values_cell in C.
  destruct (calibrate_trace _ _ fuel (spread_maturity_dates M) [] h_values
              st (ascending_NoDup _ _ A) C) as (added & E & Ks & _ & Nw).
  simpl in E. subst added.
  destruct (getitem_nth _ _ _ G) as [j Hj].
  pose proof (Nw j m _ Hj) as N. simpl in N.
  apply newton_raphson_method_float in N. destruct N as (val & F & B).
  exists val. split; [ | exact B].
  rewrite <- F. symmetry.
  assert (Im : In m (spread_maturity_dates M)).
  { apply (In_firstn _ (length h_values)). rewrite <- Ks.
    apply nth_error_In in Hj. apply (in_map fst) in Hj. exact Hj. }
  assert (Vm : valid m = true).
  { rewrite forallb_forall in Vp. apply (Vp m Im). }
  apply (standard_cds_mtm_value_frame M fuel h m (firstn j h_values)
           h_values standard_cds_payment_dates (45 / 100) Ve Vm).
  intros p _ L.
  apply (getitem_firstn_ascending h_values o j m (VFloat h) p); try assumption.
  rewrite Ks. apply ascending_firstn. exact A.
Qed.

End CellRoundTrip.


(** ** The calibrated curve *)

Section QueryCurve.

Local Open Scope R_scope.

Variable M : market.










End QueryCurve.







Section QueryErrors.

Local Open Scope R_scope.

Variable M : market.

Lemma Q_loop_skips (h_values : hmap) (dat : date) (t : R) :
  forall pre rest : list date,
  forallb (fun p => date_ltb p dat) pre = true ->
  forallb valid pre = true -> valid dat = true ->
  Q_loop M h_values dat t (pre ++ rest) = Q_loop M h_values dat t rest.
Proof.
  intros pre rest B V Vd. induction pre as [ | p pre IH]; [reflexivity | ].
  simpl in B, V. apply andb_true_iff in B. destruct B as [B1 B2].
  apply andb_true_iff in V. destruct V as [V1 V2].
  change ((p :: pre) ++ rest) with (p :: (pre ++ rest)). cbn [Q_loop].
  apply (date_ltb_iff p dat V1 Vd) in B1.
  replace (date_leb dat p) with false; [apply (IH B2 V2) | ].
  symmetry. destruct (date_leb dat p) eqn:D; [ | reflexivity].
  apply (date_leb_iff dat p Vd V1) in D. lia.
Qed.

Lemma solved_sum_stop (e : Z) (prev_h : hmap) (m : date) (post : list date) :
  (e <= toordinal m)%Z ->
  forall (pre : list date) (st : date),
  forallb (has_float prev_h) pre = true ->
  exists a, solved_sum e prev_h st (pre ++ m :: post) = Ret a.
Proof.
  intros L. induction pre as [ | p pre IH]; intros st F.
  - cbn [app solved_sum].
    replace (toordinal m <? e)%Z with false
      by (symmetry; apply Z.ltb_ge; lia).
    eexists. reflexivity.
  - simpl in F. apply andb_true_iff in F. destruct F as [F1 F2].
    change ((p :: pre) ++ m :: post) with (p :: (pre ++ m :: post)).
    cbn [solved_sum].
    destruct (toordinal p <? e)%Z; [ | eexists; reflexivity].
    unfold has_float in F1.
    destruct (getitem prev_h p) as [[ | x] | | ]; try discriminate.
    cbn [bind mul_value]. destruct (IH p F2) as [a Ea]. rewrite Ea.
    eexists. reflexivity.
Qed.

(** X21: for a date not before the effective date, with [m] the first
    pillar at or after it, the query raises [KeyError] when the map has no
    entry for [m], whatever else it holds, and [TypeError] when it holds
    [None] for [m] and numbers for the pillars before; for a date after
    every pillar the query on an empty map raises [IndexError]. *)
Theorem Q_errors (h_values : hmap) (dat : date) :
  valid (effective_date M) = true -> valid dat = true ->
  forallb valid (spread_maturity_dates M) = true ->
  date_ltb dat (effective_date M) = false ->
  (forall pre m post,
     spread_maturity_dates M = pre ++ m :: post ->
     forallb (fun p => date_ltb p dat) pre = true ->
     date_leb dat m = true ->
     (getitem h_values m = Raise KeyError ->
      Q M h_values dat = Raise KeyError)
     /\ (getitem h_values m = Ret VNone ->
         forallb (has_float h_values) pre = true ->
         Q M h_values dat = Raise TypeError))
  /\ (forallb (fun p => date_ltb p dat) (spread_maturity_dates M) = true ->
      h_values = [] -> Q M h_values dat = Raise IndexError).
Proof.
  intros Ve Vd Vp B. split.
  - intros pre m post Hp Bp Lm.
    assert (Vpre : forallb valid pre = true).
    { rewrite Hp, forallb_app in Vp. apply andb_true_iff in Vp. tauto. }
    assert (Vm : valid m = true).
    { rewrite Hp, forallb_app in Vp. apply andb_true_iff in Vp.
      destruct Vp as [_ Vp]. simpl in Vp. apply andb_true_iff in Vp. tauto. }
    unfold Q. rewrite B. cbv zeta.
    rewrite Hp, (Q_loop_skips h_values dat _ pre (m :: post) Bp Vpre Vd).
    cbn [Q_loop]. rewrite Lm. split.
    + intros G. rewrite G. reflexivity.
    + intros G F. rewrite G. cbn [bind].
      apply (date_leb_iff dat m Vd Vm) in Lm.
      assert (L : (toordinal (effective_date M) <= toordinal dat)%Z).
      { destruct (Z_lt_le_dec (toordinal dat) (toordinal (effective_date M)))
          as [H | H]; [ | exact H].
        apply (date_ltb_iff dat (effective_date M) Vd Ve) in H.
        congruence. }
      pose proof (toordinal_range dat Vd) as [_ Rd].
      unfold Q_h.
      replace (IZR (days_between dat (effective_date M)) / 360 * 360)
        with (IZR (days_between dat (effective_date M))) by field.
      rewrite py_int_IZR. unfold days_between.
      rewrite plus_days_returns by (try assumption; lia).
      cbn [bind].
      replace (toordinal (effective_date M)
               + (toordinal dat - toordinal (effective_date M)))%Z
        with (toordinal dat) by lia.
      rewrite (Q_h_loop_closed M (toordinal dat) VNone h_values
                 (spread_maturity_dates M) 0 (effective_date M) 0
                 eq_refl eq_refl).
      rewrite Hp.
      destruct (solved_sum_stop (toordinal dat) h_values m post Lm pre
                  (effective_date M) F) as [a Ea].
      rewrite Ea. cbn [bind].
      replace (all_before (toordinal dat) (pre ++ m :: post)) with false.
      * reflexivity.
      * symmetry. unfold all_before. rewrite forallb_app. simpl.
        replace (toordinal m <? toordinal dat)%Z with false
          by (symmetry; apply Z.ltb_ge; lia).
        rewrite andb_false_r. reflexivity.
  - intros Bp E. subst h_values. unfold Q. rewrite B. cbv zeta.
    rewrite (Q_loop_beyond M [] dat _ _ Bp). reflexivity.
Qed.

End QueryErrors.

Lemma Q_errors_witness :
  Q notebook_market [] (mkdate 2014 6 1) = Raise KeyError.
Proof.
  apply (proj1 (proj1 (Q_errors notebook_market [] (mkdate 2014 6 1)
                         eq_refl eq_refl eq_refl eq_refl)
                  [] (mkdate 2014 9 22)
                  (tl (spread_maturity_dates notebook_market))
                  eq_refl eq_refl eq_refl)).
  reflexivity.
Defined.

(** ** The discount curve *)

Section DiscountCurve.

Local Open Scope R_scope.

Lemma r_times_s (s B0 B1 B2 tau : R) :
  Discount.r s B0 B1 B2 tau * s
  = B0 * s + (B1 + B2) * tau * (1 - exp (- s / tau))
    - B2 * s * exp (- s / tau).
Proof.
  unfold Discount.r. destruct (Req_dec_T s 0) as [-> | N].
  - replace (- 0 / tau) with 0 by (unfold Rdiv; ring).
    rewrite exp_0. ring.
  - cbv zeta. field. exact N.
Qed.

(** X22: for [tau <> 0], where the divisions by [tau] of the source are
    defined, and every [s], 0 included, the discount factor is
    [exp(-(B0 s + (B1 + B2) tau (1 - exp(-s/tau)) - B2 s exp(-s/tau)))]:
    the special case [r(0) = 0] gives [Z(0) = 1], the value of the general
    formula at 0; and [Z] is positive. *)
Theorem Z_closed_form (s B0 B1 B2 tau : R) :
  tau <> 0 ->
  Discount.Z s B0 B1 B2 tau
  = exp (- (B0 * s + (B1 + B2) * tau * (1 - exp (- s / tau))
            - B2 * s * exp (- s / tau)))
  /\ Discount.Z 0 B0 B1 B2 tau = 1
  /\ 0 < Discount.Z s B0 B1 B2 tau.
Proof.
  intros _. unfold Discount.Z. split; [ | split].
  - f_equal. rewrite <- r_times_s. ring.
  - rewrite Rmult_0_r, exp_0. reflexivity.
  - apply exp_pos.
Qed.

Lemma scaled_bounds (b g : R) :
  -1 <= g <= 1 -> - Rabs b <= b * g <= Rabs b.
Proof.
  intros Hg.
  assert (A : Rabs (b * g) <= Rabs b).
  { rewrite Rabs_mult. rewrite <- (Rmult_1_r (Rabs b)) at 2.
    apply Rmult_le_compat_l; [apply Rabs_pos | apply Rabs_le; lra]. }
  pose proof (Rle_abs (b * g)) as U.
  pose proof (Rle_abs (- (b * g))) as L. rewrite Rabs_Ropp in L.
  lra.
Qed.

Lemma loading_bounds (s tau : R) :
  0 < s -> 0 < tau ->
  0 < exp (- s / tau) < 1
  /\ 0 < tau / s * (1 - exp (- s / tau)) < 1.
Proof.
  intros Hs Ht.
  assert (X : 0 < s / tau) by (apply Rdiv_lt_0_compat; assumption).
  assert (U : 0 < tau / s) by (apply Rdiv_lt_0_compat; assumption).
  replace (- s / tau) with (- (s / tau)) by (unfold Rdiv; ring).
  assert (E1 : exp (- (s / tau)) < 1).
  { rewrite <- exp_0. apply exp_increasing. lra. }
  pose proof (exp_pos (- (s / tau))) as E0.
  pose proof (exp_ineq1 (- (s / tau)) ltac:(lra)) as E2.
  split; [lra | ]. split.
  - apply Rmult_lt_0_compat; lra.
  - assert (P : tau / s * (1 - exp (- (s / tau))) < tau / s * (s / tau))
      by (apply Rmult_lt_compat_l; lra).
    replace (tau / s * (s / tau)) with 1 in P by (field; lra).
    exact P.
Qed.

(** X23: for [s > 0] and [tau > 0] the Nelson-Siegel rate stays within
    [|B1| + |B2|] of its level [B0], and the discount factor between
    [exp(-(|B0| + |B1| + |B2|) s)] and [exp((|B0| + |B1| + |B2|) s)]. *)
Theorem r_within_loadings (s B0 B1 B2 tau : R) :
  0 < s -> 0 < tau ->
  B0 - (Rabs B1 + Rabs B2) <= Discount.r s B0 B1 B2 tau
  <= B0 + (Rabs B1 + Rabs B2)
  /\ exp (- ((Rabs B0 + Rabs B1 + Rabs B2) * s))
     <= Discount.Z s B0 B1 B2 tau
     <= exp ((Rabs B0 + Rabs B1 + Rabs B2) * s).
Proof.
  intros Hs Ht.
  destruct (loading_bounds s tau Hs Ht) as [[E0 E1] [G0 G1]].
  assert (R : B0 - (Rabs B1 + Rabs B2) <= Discount.r s B0 B1 B2 tau
              <= B0 + (Rabs B1 + Rabs B2)).
  { unfold Discount.r. destruct (Req_dec_T s 0) as [E | _]; [lra | ].
    cbv zeta.
    pose proof (scaled_bounds B1 (tau / s * (1 - exp (- s / tau)))
                  ltac:(lra)) as T2.
    pose proof (scaled_bounds B2
                  (tau / s * (1 - exp (- s / tau)) - exp (- s / tau))
                  ltac:(lra)) as T3.
    replace (B1 * (tau / s) * (1 - exp (- s / tau)))
      with (B1 * (tau / s * (1 - exp (- s / tau)))) by ring.
    lra. }
  split; [exact R | ].
  pose proof (Rle_abs B0) as U0.
  pose proof (Rle_abs (- B0)) as L0. rewrite Rabs_Ropp in L0.
  assert (X : forall x y, x <= y -> exp x <= exp y).
  { intros x y H. destruct (Req_dec x y) as [-> | Ne]; [lra | ].
    left. apply exp_increasing. lra. }
  unfold Discount.Z. split; apply X.
  - assert (Discount.r s B0 B1 B2 tau * s
            <= (Rabs B0 + Rabs B1 + Rabs B2) * s)
      by (apply Rmult_le_compat_r; lra).
    lra.
  - assert (- (Rabs B0 + Rabs B1 + Rabs B2) * s
            <= Discount.r s B0 B1 B2 tau * s)
      by (apply Rmult_le_compat_r; lra).
    lra.
Qed.

End DiscountCurve.

Lemma Z_closed_form_witness :
  Z0 (1 / 2)
  = exp (- (408 / 10000 * (1 / 2)
            + (- (396 / 10000) + - (511 / 10000)) * (1614 / 1000)
              * (1 - exp (- (1 / 2) / (1614 / 1000)))
            - - (511 / 10000) * (1 / 2)
              * exp (- (1 / 2) / (1614 / 1000))))%R
  /\ Z0 0 = 1%R
  /\ (0 < Z0 (1 / 2))%R.
Proof.
  apply (Z_closed_form (1 / 2) (408 / 10000) (- (396 / 10000))
           (- (511 / 10000)) (1614 / 1000)).
  lra.
Defined.

Lemma r_within_loadings_witness :
  (408 / 10000 - (Rabs (- (396 / 10000)) + Rabs (- (511 / 10000)))
   <= Discount.r (1 / 2) (408 / 10000) (- (396 / 10000)) (- (511 / 10000))
        (1614 / 1000)
   <= 408 / 10000 + (Rabs (- (396 / 10000)) + Rabs (- (511 / 10000))))%R
  /\ (exp (- ((Rabs (408 / 10000) + Rabs (- (396 / 10000))
               + Rabs (- (511 / 10000))) * (1 / 2)))
      <= Z0 (1 / 2)
      <= exp ((Rabs (408 / 10000) + Rabs (- (396 / 10000))
               + Rabs (- (511 / 10000))) * (1 / 2)))%R.
Proof.
  apply (r_within_loadings (1 / 2) (408 / 10000) (- (396 / 10000))
           (- (511 / 10000)) (1614 / 1000)); lra.
Defined.

(** ** The valuation on a market of two pillars, one and two days out *)

Section ShortMarket.

Local Open Scope R_scope.

Variables sp1 sp2 : R.

Local Abbreviation SM := (short_market sp1 sp2).

Lemma Z0_zero : Z0 0 = 1.
Proof.
  unfold Z0, Discount.Z. rewrite Rmult_0_r. apply exp_0.
Qed.

Lemma K_first_month (T : R) : 0 < T <= 1 / 12 -> K T = 1%Z.
Proof.
  intros [H0 H1]. pose proof (K_bounds T) as [B0 B1].
  assert (L : (1 <= K T)%Z) by (apply py_ceil_pos; lra).
  assert (U : IZR (K T) < 2) by lra.
  apply lt_IZR in U. lia.
Qed.

Lemma target_short (n : Z) :
  target SM (IZR n / 360) = (735311 + n)%Z.
Proof.
  unfold target. replace (IZR n / 360 * 360) with (IZR n) by field.
  rewrite py_int_IZR. reflexivity.
Qed.

Lemma Q_h_short_first (n : Z) (h : R) (prev_h : hmap) :
  (0 <= n <= 1)%Z ->
  Q_h SM (IZR n / 360) (VFloat h) prev_h
  = Ret (exp (- (0 + h * (IZR n / 360)))).
Proof.
  intros Hn. rewrite Q_h_closed.
  replace (IZR n / 360 * 360) with (IZR n) by field.
  rewrite py_int_IZR.
  change (effective_date SM) with (mkdate 2014 3 19).
  change (spread_maturity_dates SM)
    with [mkdate 2014 3 20; mkdate 2014 3 21].
  rewrite plus_days_returns;
    [ | reflexivity | lia
      | change (toordinal (mkdate 2014 3 19)) with 735311%Z;
        unfold MAXORDINAL; lia].
  cbn [bind solved_sum final_delta].
  change (toordinal (mkdate 2014 3 20)) with 735312%Z.
  change (toordinal (mkdate 2014 3 19)) with 735311%Z.
  replace (735312 <? 735311 + n)%Z with false
    by (symmetry; apply Z.ltb_ge; lia).
  cbn [bind]. do 4 f_equal.
  replace (735311 + n - 735311)%Z with n by lia.
  reflexivity.
Qed.

Lemma Q_h_short_second (h r1 : R) (prev_h : hmap) :
  getitem prev_h (mkdate 2014 3 20) = Ret (VFloat r1) ->
  Q_h SM (IZR 2 / 360) (VFloat h) prev_h
  = Ret (exp (- (r1 * (1 / 360) + h * (1 / 360)))).
Proof.
  intros G. rewrite Q_h_closed.
  replace (IZR 2 / 360 * 360) with (IZR 2) by field.
  rewrite py_int_IZR.
  change (effective_date SM) with (mkdate 2014 3 19).
  change (spread_maturity_dates SM)
    with [mkdate 2014 3 20; mkdate 2014 3 21].
  rewrite plus_days_returns;
    [ | reflexivity | lia
      | change (toordinal (mkdate 2014 3 19)) with 735311%Z;
        unfold MAXORDINAL; lia].
  cbn [bind solved_sum final_delta].
  change (toordinal (mkdate 2014 3 21)) with 735313%Z.
  change (toordinal (mkdate 2014 3 20)) with 735312%Z.
  change (toordinal (mkdate 2014 3 19)) with 735311%Z.
  change (735312 <? 735311 + 2)%Z with true.
  change (735313 <? 735311 + 2)%Z with false.
  rewrite G. cbn [bind mul_value].
  change (735312 - 735311)%Z with 1%Z.
  change (735311 + 2 - 735312)%Z with 1%Z.
  do 2 f_equal. lra.
Qed.

Lemma legs_value_short_first (surv : R -> res R) (n : nat) (rec q0 q1 : R) :
  surv (IZR 0 / 360) = Ret q0 -> surv (IZR 1 / 360) = Ret q1 ->
  legs_value SM surv (S (S n)) (mkdate 2014 3 20) standard_cds_payment_dates
    rec
  = Ret ((1 - rec) * 100 / 2 * ((1 + Z0 (1 / 360)) * (q0 - q1))
         - 5 / 10 * sp1 * (1 / 360 * Z0 (1 / 360) * (q0 + q1))).
Proof.
  intros H0 H1. unfold legs_value.
  change (year_fraction SM (mkdate 2014 3 20)) with (IZR 1 / 360).
  rewrite (K_first_month (IZR 1 / 360)) by lra.
  change (range 1) with [0%Z]. cbn [legs_protection]. unfold s.
  rewrite (K_first_month (IZR 1 / 360)) by lra.
  change (1 =? 0)%Z with false. cbn [bind].
  change (0 + 1)%Z with 1%Z.
  replace (IZR 0 * (IZR 1 / 360) / IZR 1) with (IZR 0 / 360) by field.
  replace (IZR 1 * (IZR 1 / 360) / IZR 1) with (IZR 1 / 360) by field.
  rewrite H0, H1. cbn [bind].
  change (index_from (spread_maturity_dates SM) (mkdate 2014 3 20) 0)
    with (@Ret nat 0%nat).
  cbn [bind].
  change (item (map snd (spread_data SM)) 0) with (Ret sp1).
  cbn [bind].
  change (next_payment_date (S (S n)) (effective_date SM)
            standard_cds_payment_dates)
    with (Ret (mkdate 2014 3 20)).
  cbn [bind legs_premium].
  change (date_leb (mkdate 2014 3 20) (mkdate 2014 3 20)) with true.
  change (year_fraction SM (effective_date SM)) with (IZR 0 / 360).
  change (year_fraction SM (mkdate 2014 3 20)) with (IZR 1 / 360).
  rewrite H0, H1. cbn [bind].
  change (next_payment_date (S (S n)) (mkdate 2014 3 20)
            standard_cds_payment_dates)
    with (Ret (mkdate 2014 6 20)).
  cbn [bind].
  change (date_leb (mkdate 2014 6 20) (mkdate 2014 3 20)) with false.
  change (days_between (mkdate 2014 3 20) (effective_date SM)) with 1%Z.
  cbn [bind]. replace (IZR 0 / 360) with 0 by lra. rewrite Z0_zero.
  f_equal. field.
Qed.

Lemma diff_Q_h_short_first (n : Z) (h : R) (prev_h : hmap) :
  (0 <= n <= 1)%Z ->
  diff_Q_h SM (IZR n / 360) (VFloat h) prev_h
  = Ret (- (IZR n / 360) * exp (- (0 + h * (IZR n / 360)))).
Proof.
  intros Hn. rewrite diff_Q_h_closed, (Q_h_short_first n h prev_h Hn).
  cbn [bind]. unfold Delta. rewrite target_short.
  change (effective_date SM) with (mkdate 2014 3 19).
  change (spread_maturity_dates SM)
    with [mkdate 2014 3 20; mkdate 2014 3 21].
  cbn [final_delta].
  change (toordinal (mkdate 2014 3 20)) with 735312%Z.
  change (toordinal (mkdate 2014 3 19)) with 735311%Z.
  replace (735312 <? 735311 + n)%Z with false
    by (symmetry; apply Z.ltb_ge; lia).
  replace (735311 + n - 735311)%Z with n by lia.
  reflexivity.
Qed.

Lemma standard_cds_mtm_value_short_first (n : nat) (h : R) (prev_h : hmap)
  (rec : R) :
  standard_cds_mtm_value SM (S (S n)) h (mkdate 2014 3 20) prev_h
    standard_cds_payment_dates rec
  = Ret ((1 - rec) * 100 / 2
         * ((1 + Z0 (1 / 360)) * (1 - exp (- (h * (1 / 360)))))
         - 5 / 10 * sp1
           * (1 / 360 * Z0 (1 / 360) * (1 + exp (- (h * (1 / 360)))))).
Proof.
  rewrite standard_cds_mtm_value_legs_value.
  rewrite (legs_value_short_first _ n rec _ _
             (Q_h_short_first 0 h prev_h ltac:(lia))
             (Q_h_short_first 1 h prev_h ltac:(lia))).
  replace (0 + h * (IZR 0 / 360)) with 0 by lra.
  replace (0 + h * (IZR 1 / 360)) with (h * (1 / 360)) by lra.
  rewrite Ropp_0, exp_0. reflexivity.
Qed.

Lemma d_standard_cds_mtm_value_short_first (n : nat) (h : R)
  (prev_h : hmap) (rec : R) :
  d_standard_cds_mtm_value SM (S (S n)) h (mkdate 2014 3 20) prev_h
    standard_cds_payment_dates rec
  = Ret ((1 - rec) * 100 / 2
         * ((1 + Z0 (1 / 360)) * (1 / 360 * exp (- (h * (1 / 360)))))
         - 5 / 10 * sp1
           * (1 / 360 * Z0 (1 / 360)
              * - (1 / 360 * exp (- (h * (1 / 360)))))).
Proof.
  rewrite d_standard_cds_mtm_value_legs_value.
  rewrite (legs_value_short_first _ n rec _ _
             (diff_Q_h_short_first 0 h prev_h ltac:(lia))
             (diff_Q_h_short_first 1 h prev_h ltac:(lia))).
  replace (0 + h * (IZR 0 / 360)) with 0 by lra.
  replace (0 + h * (IZR 1 / 360)) with (h * (1 / 360)) by lra.
  rewrite Ropp_0, exp_0. f_equal. field.
Qed.

Lemma legs_value_short_second (surv : R -> res R) (n : nat)
  (rec q0 q1 q2 : R) :
  surv (IZR 0 / 360) = Ret q0 -> surv (IZR 1 / 360) = Ret q1 ->
  surv (IZR 2 / 360) = Ret q2 ->
  legs_value SM surv (S (S n)) (mkdate 2014 3 21) standard_cds_payment_dates
    rec
  = Ret ((1 - rec) * 100 / 2 * ((1 + Z0 (2 / 360)) * (q0 - q2))
         - 5 / 10 * sp2 * (1 / 360 * Z0 (1 / 360) * (q0 + q1))).
Proof.
  intros H0 H1 H2. unfold legs_value.
  change (year_fraction SM (mkdate 2014 3 21)) with (IZR 2 / 360).
  rewrite (K_first_month (IZR 2 / 360)) by lra.
  change (range 1) with [0%Z]. cbn [legs_protection]. unfold s.
  rewrite (K_first_month (IZR 2 / 360)) by lra.
  change (1 =? 0)%Z with false. cbn [bind].
  change (0 + 1)%Z with 1%Z.
  replace (IZR 0 * (IZR 2 / 360) / IZR 1) with (IZR 0 / 360) by field.
  replace (IZR 1 * (IZR 2 / 360) / IZR 1) with (IZR 2 / 360) by field.
  rewrite H0, H2. cbn [bind].
  change (index_from (spread_maturity_dates SM) (mkdate 2014 3 21) 0)
    with (@Ret nat 1%nat).
  cbn [bind].
  change (item (map snd (spread_data SM)) 1) with (Ret sp2).
  cbn [bind].
  change (next_payment_date (S (S n)) (effective_date SM)
            standard_cds_payment_dates)
    with (Ret (mkdate 2014 3 20)).
  cbn [bind legs_premium].
  change (date_leb (mkdate 2014 3 20) (mkdate 2014 3 21)) with true.
  change (year_fraction SM (effective_date SM)) with (IZR 0 / 360).
  change (year_fraction SM (mkdate 2014 3 20)) with (IZR 1 / 360).
  rewrite H0, H1. cbn [bind].
  change (next_payment_date (S (S n)) (mkdate 2014 3 20)
            standard_cds_payment_dates)
    with (Ret (mkdate 2014 6 20)).
  cbn [bind].
  change (date_leb (mkdate 2014 6 20) (mkdate 2014 3 21)) with false.
  change (days_between (mkdate 2014 3 20) (effective_date SM)) with 1%Z.
  cbn [bind]. replace (IZR 0 / 360) with 0 by lra. rewrite Z0_zero.
  f_equal. field.
Qed.

Lemma standard_cds_mtm_value_short_second (n : nat) (h r1 : R)
  (prev_h : hmap) (rec : R) :
  getitem prev_h (mkdate 2014 3 20) = Ret (VFloat r1) ->
  standard_cds_mtm_value SM (S (S n)) h (mkdate 2014 3 21) prev_h
    standard_cds_payment_dates rec
  = Ret ((1 - rec) * 100 / 2
         * ((1 + Z0 (2 / 360))
            * (1 - exp (- (r1 * (1 / 360) + h * (1 / 360)))))
         - 5 / 10 * sp2
           * (1 / 360 * Z0 (1 / 360) * (1 + exp (- (h * (1 / 360)))))).
Proof.
  intros G. rewrite standard_cds_mtm_value_legs_value.
  rewrite (legs_value_short_second _ n rec _ _ _
             (Q_h_short_first 0 h prev_h ltac:(lia))
             (Q_h_short_first 1 h prev_h ltac:(lia))
             (Q_h_short_second h r1 prev_h G)).
  replace (0 + h * (IZR 0 / 360)) with 0 by lra.
  replace (0 + h * (IZR 1 / 360)) with (h * (1 / 360)) by lra.
  rewrite Ropp_0, exp_0. reflexivity.
Qed.

End ShortMarket.

Lemma Z0_pos (x : R) : (0 < Z0 x)%R.
Proof. unfold Z0, Discount.Z. apply exp_pos. Qed.

(** With the spread [stall_spread] at the first pillar, the root finder
    called with the cell's own two functions returns [None] at once: the
    value at 0.01 is above 55 and the derivative is 0. *)
Lemma newton_raphson_method_stalls_on_short_market (sp2 : R) (n : nat)
  (prev_h : hmap) :
  newton_raphson_method
    (fun h d p =>
       standard_cds_mtm_value (short_market stall_spread sp2) (S (S n)) h d
         p standard_cds_payment_dates (45 / 100)%R)
    (fun h d p =>
       d_standard_cds_mtm_value (short_market stall_spread sp2) (S (S n)) h
         d p standard_cds_payment_dates (45 / 100)%R)
    (mkdate 2014 3 20) prev_h (1 / 1000000)%R (S (S n)) (1 / 100)%R
  = Ret VNone.
Proof.
  pose proof (Z0_pos (1 / 360)) as P.
  pose proof derivative_floor_bounds as B.
  unfold newton_raphson_method, newton_trace.
  rewrite standard_cds_mtm_value_short_first.
  rewrite (newton_loop_stalls _ _ _ _ _ _ _ 0%R).
  - reflexivity.
  - apply Rlt_gt. apply Rlt_le_trans with 55%R; [lra | ].
    apply Rle_trans with
      (55 * (1 + Z0 (1 / 360)))%R; [lra | ].
    right. rewrite Rabs_right.
    + unfold stall_spread. field. lra.
    + unfold stall_spread. apply Rle_ge.
      apply Rle_trans with (55 * (1 + Z0 (1 / 360)))%R; [lra | ].
      right. field. lra.
  - rewrite d_standard_cds_mtm_value_short_first. f_equal.
    unfold stall_spread. field. lra.
  - rewrite Rabs_R0. lra.
Qed.

(** The notebook's calibration cell on the market with [stall_spread] at the
    first pillar: the root finder returns [None] for the first pillar, the
    cell stores it and goes on to the second pillar, where the valuation
    raises [TypeError] on the stored [None]. *)
Lemma h_values_cell_stall (sp2 : R) (n : nat) :
  h_values_cell (short_market stall_spread sp2) (S (S n))
  = ([(mkdate 2014 3 20, VNone)], Raise TypeError).
Proof.
  unfold h_values_cell.
  change (spread_maturity_dates (short_market stall_spread sp2))
    with [mkdate 2014 3 20; mkdate 2014 3 21].
  cbn [calibrate]. rewrite newton_raphson_method_stalls_on_short_market.
  apply (calibrate_after_failure (short_market stall_spread sp2) (S (S n))
           (mkdate 2014 3 20) (mkdate 2014 3 21) []); try reflexivity.
  vm_compute. split; [discriminate | reflexivity].
Qed.

(** The cell on the market with the fair spreads: it stores 0.01 for both
    pillars. *)
Lemma h_values_cell_fair (n : nat) :
  h_values_cell fair_market (S (S n))
  = ([(mkdate 2014 3 20, VFloat (1 / 100)%R);
      (mkdate 2014 3 21, VFloat (1 / 100)%R)], Ret tt).
Proof.
  pose proof (Z0_pos (1 / 360)) as P1.
  pose proof (exp_pos (- (1 / 100 * (1 / 360)))) as E.
  unfold h_values_cell, fair_market.
  change (spread_maturity_dates (short_market fair_spread_1 fair_spread_2))
    with [mkdate 2014 3 20; mkdate 2014 3 21].
  cbn [calibrate].
  rewrite (newton_raphson_method_at_root _ _ _ _ _ (S n) _ 0%R).
  - cbn [setitem].
    rewrite (newton_raphson_method_at_root _ _ _ _ _ (S n) _ 0%R).
    + reflexivity.
    + rewrite (standard_cds_mtm_value_short_second _ _ n _ (1 / 100));
        [ | reflexivity].
      f_equal. unfold fair_spread_2. field. lra.
    + rewrite Rabs_R0. lra.
  - rewrite standard_cds_mtm_value_short_first.
    f_equal. unfold fair_spread_1. field. lra.
  - rewrite Rabs_R0. lra.
Qed.

Lemma calibrate_stores_failure_and_continues_witness :
  calibrate (cell_value (short_market stall_spread 100) 14)
    (cell_derivative (short_market stall_spread 100) 14) 14
    [mkdate 2014 3 20; mkdate 2014 3 21] []
  = calibrate (cell_value (short_market stall_spread 100) 14)
      (cell_derivative (short_market stall_spread 100) 14) 14
      [mkdate 2014 3 21] (setitem [] (mkdate 2014 3 20) VNone)
  /\ getitem (setitem [] (mkdate 2014 3 20) VNone) (mkdate 2014 3 20)
     = Ret VNone
  /\ exists done rest',
       [mkdate 2014 3 20; mkdate 2014 3 21] = done ++ rest'
       /\ map fst [(mkdate 2014 3 20, VNone)] = done
       /\ (Raise TypeError = Ret tt -> rest' = []).
Proof.
  destruct (calibrate_stores_failure_and_continues
              (cell_value (short_market stall_spread 100) 14)
              (cell_derivative (short_market stall_spread 100) 14) 14
              (mkdate 2014 3 20) [mkdate 2014 3 21] []
              (newton_raphson_method_stalls_on_short_market 100 12 []))
    as (H1 & H2 & H3).
  split; [exact H1 | ]. split; [exact H2 | ].
  apply (H3 [(mkdate 2014 3 20, VNone)] (Raise TypeError)).
  - repeat constructor; simpl; intuition discriminate.
  - exact (h_values_cell_stall 100 12).
Defined.

(** C2, as stated, fails.  On the market of two pillars with the spread
    [stall_spread] (about -39600) at the first, the root finder, called as
    the cell calls it, returns [None] for the first pillar; the cell stores
    that [None] under the first pillar and goes on to the second pillar,
    where the valuation raises [TypeError] on it: no halt at the failed
    pillar, no report, and an entry for it in the map. *)
Lemma calibrate_writes_failed_pillars :
  newton_raphson_method (cell_value (short_market stall_spread 100) 14)
    (cell_derivative (short_market stall_spread 100) 14)
    (mkdate 2014 3 20) [] (1 / 1000000) 14 (1 / 100) = Ret VNone
  /\ h_values_cell (short_market stall_spread 100) 14
     = ([(mkdate 2014 3 20, VNone)], Raise TypeError)
  /\ getitem [(mkdate 2014 3 20, VNone)] (mkdate 2014 3 20) = Ret VNone.
Proof.
  split; [exact (newton_raphson_method_stalls_on_short_market 100 12 []) | ].
  split; [exact (h_values_cell_stall 100 12) | reflexivity].
Qed.

Lemma calibrate_appends_roots_witness :
  exists added,
    [(mkdate 2014 3 20, VFloat (1 / 100)%R);
     (mkdate 2014 3 21, VFloat (1 / 100)%R)] = [] ++ added
    /\ map fst added
       = firstn (length added) [mkdate 2014 3 20; mkdate 2014 3 21]
    /\ (Ret tt = Ret tt ->
        length added = length [mkdate 2014 3 20; mkdate 2014 3 21])
    /\ (forall j m h,
          nth_error added j = Some (m, VFloat h) ->
          exists val,
            cell_value fair_market 14 h m ([] ++ firstn j added) = Ret val
            /\ (Rabs val <= 1 / 1000000)%R).
Proof.
  apply (calibrate_appends_roots (cell_value fair_market 14)
           (cell_derivative fair_market 14) 14
           [mkdate 2014 3 20; mkdate 2014 3 21] []).
  - simpl. repeat constructor; simpl; intuition discriminate.
  - exact (h_values_cell_fair 12).
Defined.

Lemma h_values_cell_reprices_witness :
  exists val,
    standard_cds_mtm_value fair_market 14 (1 / 100)%R (mkdate 2014 3 20)
      [(mkdate 2014 3 20, VFloat (1 / 100)%R);
       (mkdate 2014 3 21, VFloat (1 / 100)%R)]
      standard_cds_payment_dates (45 / 100)%R = Ret val
    /\ (Rabs val <= 1 / 1000000)%R.
Proof.
  apply (h_values_cell_reprices fair_market 14
           [(mkdate 2014 3 20, VFloat (1 / 100)%R);
            (mkdate 2014 3 21, VFloat (1 / 100)%R)] (Ret tt)
           (mkdate 2014 3 20) (1 / 100)%R eq_refl eq_refl eq_refl
           (h_values_cell_fair 12)).
  reflexivity.
Defined.

(** ** The valuation as the difference of the two legs *)

Section LegsDifference.

Local Open Scope R_scope.






End LegsDifference.
